(** * Gbubble: the graph topology engine and the multi-hop trace crawler

    A shallow embedding of the two computations of the [BubbleViz]
    component: the memoised graph construction (filtering, balances,
    adjacency, links, breadth-first hop labels, union-find clusters, node
    attributes, the relationship filter and the balance domain of the radius
    scale) and [handleTraceExecution], the layered crawl over the history
    provider.  Around them: the token list and its selection controls, the
    trace candidates with their groups and the automatic target selection,
    the label badge and the details-panel label, [truncate], [handleAddData]
    of [App.tsx], and the sync endpoint of [server.js].

    Conventions of the embedding.
    - A JavaScript [number] is a binary64 float ([PrimFloat.float]); counters
      that only ever hold small naturals (hop levels, link counts, component
      sizes) are [nat].
    - A JavaScript [string] is a [string]; [toLowerCase] lowers the ASCII
      letters, which is what it does on chain addresses.
    - A value of type [string | undefined] is an [option string].
    - [Map] and [Set] keep insertion order, so they are association lists and
      duplicate-free lists that grow at the end.
    - A thrown [TypeError] is the [TypeError] result; [OutOfFuel] is the
      embedding's own outcome for a loop cut short, and is proved never to
      arise.
    - What the code draws from its environment is an argument: the draws of
      [Math.random()], the answers of the history provider, the order in
      which the concurrent fetches of a batch settle, and whether the
      database accepts a command. *)

From Stdlib Require Import List String Ascii Bool Arith ZArith Lia Floats Sorted
  Permutation DecimalString.
Import ListNotations.

Set Warnings "-inexact-float".
Local Open Scope string_scope.
Local Open Scope list_scope.
Local Open Scope bool_scope.

(* ================================================================== *)
(** * Part I. Definitions *)
(* ================================================================== *)

(** ** Results of code that may throw *)

Inductive result (A : Type) : Type :=
| Ok (a : A)
| TypeError
| OutOfFuel.
Arguments Ok {A} a.
Arguments TypeError {A}.
Arguments OutOfFuel {A}.

Definition bind {A B : Type} (r : result A) (f : A -> result B) : result B :=
  match r with
  | Ok a => f a
  | TypeError => TypeError
  | OutOfFuel => OutOfFuel
  end.

Notation "x <- r ;; k" := (bind r (fun x => k))
  (at level 61, r at next level, right associativity).
Notation "' pat <- r ;; k" := (bind r (fun x => match x with pat => k end))
  (at level 61, pat pattern, r at next level, right associativity).

(** [forEach] over a list with a body that may throw. *)
Fixpoint foldM {A S : Type} (f : S -> A -> result S) (l : list A) (s : S) : result S :=
  match l with
  | [] => Ok s
  | x :: l' => s' <- f s x ;; foldM f l' s'
  end.

(** ** Keys with the equality of [===] *)

Class EqKey (K : Type) : Type := { keqb : K -> K -> bool }.

#[export] Instance string_EqKey : EqKey string := {| keqb := String.eqb |}.

Definition ostr_eqb (a b : option string) : bool :=
  match a, b with
  | Some x, Some y => String.eqb x y
  | None, None => true
  | _, _ => false
  end.

#[export] Instance ostr_EqKey : EqKey (option string) := {| keqb := ostr_eqb |}.

(** The keys whose [keqb] decides equality. *)
Class EqKeyOk (K : Type) `{EqKey K} : Prop :=
  keqb_eq : forall a b : K, keqb a b = true <-> a = b.

(** ** [Set] and [Map], in insertion order *)

Section Collections.
Context {K : Type} `{EqKey K}.

Definition JSSet : Type := list K.

Definition set_has (s : JSSet) (k : K) : bool := existsb (keqb k) s.

Definition set_add (s : JSSet) (k : K) : JSSet :=
  if set_has s k then s else s ++ [k].

Definition set_from (l : list K) : JSSet := fold_left set_add l [].

Context {V : Type}.

Definition JSMap : Type := list (K * V).

Fixpoint map_get (m : JSMap) (k : K) : option V :=
  match m with
  | [] => None
  | (k', v) :: m' => if keqb k k' then Some v else map_get m' k
  end.

Definition map_has (m : JSMap) (k : K) : bool :=
  match map_get m k with Some _ => true | None => false end.

(** [m.set(k, v)]: an existing key keeps its place. *)
Fixpoint map_set (m : JSMap) (k : K) (v : V) : JSMap :=
  match m with
  | [] => [(k, v)]
  | (k', v') :: m' =>
      if keqb k k' then (k', v) :: m' else (k', v') :: map_set m' k v
  end.

Definition map_keys (m : JSMap) : list K := map fst m.
Definition map_values (m : JSMap) : list V := map snd m.
End Collections.

Arguments JSSet K : clear implicits.
Arguments JSMap K V : clear implicits.

(** ** Strings *)

Definition lower_ascii (c : ascii) : ascii :=
  let n := nat_of_ascii c in
  if (65 <=? n)%nat && (n <=? 90)%nat then ascii_of_nat (n + 32) else c.

Fixpoint toLowerCase (s : string) : string :=
  match s with
  | EmptyString => EmptyString
  | String c s' => String (lower_ascii c) (toLowerCase s')
  end.

(** [s.includes(sub)] *)
Fixpoint includes (s sub : string) : bool :=
  prefix sub s ||
  match s with
  | EmptyString => false
  | String _ s' => includes s' sub
  end.

(** A string is truthy when it is not empty; [undefined] is falsy. *)
Definition truthy_str (s : option string) : bool :=
  match s with
  | Some s => negb (s =? "")
  | None => false
  end.

(** What a template literal prints for a [string | undefined]. *)
Definition template (a : option string) : string :=
  match a with
  | Some s => s
  | None => "undefined"
  end.

(** [a.toLowerCase()] on a [string | undefined]: a [TypeError] on [undefined]. *)
Definition lowerOrThrow (a : option string) : result string :=
  match a with
  | Some s => Ok (toLowerCase s)
  | None => TypeError
  end.

(** ** Numbers *)

Definition truthy_num (x : float) : bool :=
  negb (PrimFloat.eqb x 0%float || PrimFloat.is_nan x).

(** [x || d] on numbers. *)
Definition num_or (x d : float) : float := if truthy_num x then x else d.

(** [(m.get(k) || 0)] on a possibly missing number. *)
Definition num_or_zero (x : option float) : float :=
  match x with
  | Some x => num_or x 0%float
  | None => 0%float
  end.

Definition is_neg_zero (x : float) : bool :=
  match PrimFloat.classify x with
  | NZero => true
  | _ => false
  end.

Definition min2 (a b : float) : float :=
  if PrimFloat.is_nan a || PrimFloat.is_nan b then nan
  else if PrimFloat.ltb b a then b
  else if PrimFloat.ltb a b then a
  else if is_neg_zero b then b else a.

Definition max2 (a b : float) : float :=
  if PrimFloat.is_nan a || PrimFloat.is_nan b then nan
  else if PrimFloat.ltb a b then b
  else if PrimFloat.ltb b a then a
  else if is_neg_zero a then b else a.

(** [Math.min(...l)] and [Math.max(...l)]; on no argument they are
    [Infinity] and [-Infinity]. *)
Definition Math_min (l : list float) : float := fold_left min2 l infinity.
Definition Math_max (l : list float) : float := fold_left max2 l neg_infinity.

(** ** The data model *)

Inductive TxType : Type := native | erc20.

Definition TxType_eqb (a b : TxType) : bool :=
  match a, b with
  | native, native | erc20, erc20 => true
  | _, _ => false
  end.

(** Modelled from the spec: the [Transaction] interface of [../types], which
    is not among the sources.  [tx_from] and [tx_to] are [string | undefined]
    so that a record with a missing endpoint can be written down;
    [tx_timestamp] is the time value of [new Date(t.timestamp)] in
    milliseconds, [None] for an invalid date. *)
Record Transaction : Type := {
  tx_id : string;
  tx_hash : string;
  tx_from : option string;
  tx_to : option string;
  tx_value : float;
  tx_token : option string;
  tx_timestamp : option Z;
  tx_type : TxType
}.

Record Label : Type := {
  address : string;
  label : string;
  tag_type : string
}.

Inductive Theme : Type := light | dark.

Record Link : Type := {
  source : option string;
  target : option string;
  link_value : float;
  count : nat;
  isBidirectional : bool
}.

(** A colour is either a literal or [d3.interpolateSinebow] at a fraction. *)
Inductive Color : Type :=
| Hex (s : string)
| Sinebow (t : float).

(** The nodes pushed at lines 259-268 (the [AddressNode] interface itself is
    in [../types]). *)
Record AddressNode : Type := {
  id : option string;
  balance : float;
  node_type : string;
  activityScore : float;
  groupId : nat;
  groupSize : nat;
  groupColor : Color;
  hop : option nat
}.

(** The props and state the memoised computation depends on.  [tzOffset] is
    the local zone's offset from UTC in milliseconds, which [setHours] uses. *)
Record Inputs : Type := {
  data : list Transaction;
  activeType : TxType;
  theme : Theme;
  baseAddresses : JSSet string;
  sharedLabels : list Label;
  dateRange_start : option Z;
  dateRange_end : option Z;
  dustThreshold : float;
  selectedTokens : JSSet string;
  showRelatedOnly : bool;
  tzOffset : Z
}.

Definition DEFAULT_SMALL_GROUP_COLOR : string := "#334155".
Definition GROUP_THRESHOLD : nat := 3.
Definition goldenRatio : float := 0.618033988749895%float.

(** ** Graph builder: filtering *)

Fixpoint insert_sorted (s : string) (l : list string) : list string :=
  match l with
  | [] => [s]
  | x :: l' => if String.leb s x then s :: l else x :: insert_sorted s l'
  end.

(** [Array.prototype.sort()] on strings. *)
Definition sort_strings (l : list string) : list string :=
  fold_right insert_sorted [] l.

Definition token_of (t : Transaction) : string :=
  match tx_token t with
  | Some s => s
  | None => ""
  end.

Definition availableTokens (data : list Transaction) (activeType : TxType) : list string :=
  let tokens :=
    fold_left
      (fun tokens t => if truthy_str (tx_token t) then set_add tokens (token_of t) else tokens)
      (filter (fun t => TxType_eqb (tx_type t) activeType) data) [] in
  sort_strings (filter (fun s => negb (s =? "")) tokens).

Definition msPerDay : Z := 86400000.

(** [eod.setHours(23, 59, 59, 999)] in the local zone. *)
Definition endOfDay (tz d : Z) : Z :=
  let loc := (d + tz)%Z in
  (loc - loc mod msPerDay + (msPerDay - 1) - tz)%Z.

(** [new Date(t.timestamp) >= d] and [<= d]; an invalid date compares false. *)
Definition date_geb (t : option Z) (d : Z) : bool :=
  match t with
  | Some t => (d <=? t)%Z
  | None => false
  end.

Definition date_leb (t : option Z) (d : Z) : bool :=
  match t with
  | Some t => (t <=? d)%Z
  | None => false
  end.

(** The transfers left before the token filter: type, date range and dust. *)
Definition preTokenData (inp : Inputs) : list Transaction :=
  let filteredData := filter (fun t => TxType_eqb (tx_type t) (activeType inp)) (data inp) in
  let filteredData :=
    match dateRange_start inp with
    | Some start => filter (fun t => date_geb (tx_timestamp t) start) filteredData
    | None => filteredData
    end in
  let filteredData :=
    match dateRange_end inp with
    | Some e =>
        let eod := endOfDay (tzOffset inp) e in
        filter (fun t => date_leb (tx_timestamp t) eod) filteredData
    | None => filteredData
    end in
  if PrimFloat.ltb 0%float (dustThreshold inp)
  then filter (fun t => PrimFloat.leb (dustThreshold inp) (tx_value t)) filteredData
  else filteredData.

(** The token-membership filter, lines 146-149. *)
Definition tokenFilter (available : list string) (selected : JSSet string)
    (filteredData : list Transaction) : list Transaction :=
  if (0 <? List.length available)%nat then
    let tokensToFilter :=
      if (0 <? List.length selected)%nat then selected else set_from available in
    filter (fun t => truthy_str (tx_token t) && set_has tokensToFilter (token_of t))
           filteredData
  else filteredData.

Definition filteredData (inp : Inputs) : list Transaction :=
  tokenFilter (availableTokens (data inp) (activeType inp)) (selectedTokens inp)
              (preTokenData inp).

(** ** Graph builder: balances, adjacency and links *)

Definition Addr : Type := option string.

Record Maps : Type := {
  balanceMap : JSMap Addr float;
  adj : JSMap Addr (JSSet Addr);
  linkMap : JSMap string Link
}.

Definition emptyMaps : Maps := {| balanceMap := []; adj := []; linkMap := [] |}.

Definition add_balance (m : JSMap Addr float) (a : Addr) (v : float) : JSMap Addr float :=
  map_set m a (num_or_zero (map_get m a) + v)%float.

Definition ensure_adj (m : JSMap Addr (JSSet Addr)) (a : Addr) : JSMap Addr (JSSet Addr) :=
  if map_has m a then m else map_set m a [].

(** [adj.get(a)!.add(b)]; the key is present when this is called. *)
Definition adj_add (m : JSMap Addr (JSSet Addr)) (a b : Addr) : JSMap Addr (JSSet Addr) :=
  match map_get m a with
  | Some s => map_set m a (set_add s b)
  | None => m
  end.

Definition linkKey (a b : Addr) : string :=
  (template a ++ "-" ++ template b)%string.

Definition add_link (m : JSMap string Link) (tx : Transaction) : JSMap string Link :=
  let key := linkKey (tx_from tx) (tx_to tx) in
  let m :=
    if map_has m key then m
    else map_set m key {| source := tx_from tx; target := tx_to tx;
                          link_value := 0%float; count := 0; isBidirectional := false |} in
  match map_get m key with
  | Some l =>
      map_set m key {| source := source l; target := target l;
                       link_value := (link_value l + tx_value tx)%float;
                       count := count l + 1;
                       isBidirectional := isBidirectional l |}
  | None => m
  end.

(** The body of [filteredData.forEach], lines 151-168. *)
Definition processTx (m : Maps) (tx : Transaction) : Maps :=
  let bm := add_balance (balanceMap m) (tx_from tx) (tx_value tx) in
  let bm := add_balance bm (tx_to tx) (tx_value tx) in
  let a := ensure_adj (adj m) (tx_from tx) in
  let a := ensure_adj a (tx_to tx) in
  let a := adj_add a (tx_from tx) (tx_to tx) in
  let a := adj_add a (tx_to tx) (tx_from tx) in
  {| balanceMap := bm; adj := a; linkMap := add_link (linkMap m) tx |}.

Definition buildMaps (fd : list Transaction) : Maps :=
  fold_left processTx fd emptyMaps.

Definition validNodes (m : Maps) : JSSet Addr := map_keys (balanceMap m).

Definition markBidirectional (linkKeys : JSSet string) (l : Link) : Link :=
  if set_has linkKeys (linkKey (target l) (source l))
  then {| source := source l; target := target l; link_value := link_value l;
          count := count l; isBidirectional := true |}
  else l.

(** Lines 170-178: the links between valid nodes, with the reverse-key mark. *)
Definition preFilteredLinks (m : Maps) : list Link :=
  let valid := validNodes m in
  let links :=
    filter (fun l => set_has valid (source l) && set_has valid (target l))
           (map_values (linkMap m)) in
  let linkKeys := set_from (map (fun l => linkKey (source l) (target l)) links) in
  map (markBidirectional linkKeys) links.

(** ** Hop labeler *)

Section HopLabeler.
Context {K : Type} `{EqKey K}.

Record BfsState : Type := {
  computedHopMap : JSMap K nat;
  queue : list (K * nat);
  visited : JSSet K
}.

Definition emptyBfs : BfsState :=
  {| computedHopMap := []; queue := []; visited := [] |}.

(** Lines 188-190: a matching valid node becomes a level-0 seed. *)
Definition seedNode (st : BfsState) (validNode : K) : BfsState :=
  {| computedHopMap := map_set (computedHopMap st) validNode 0;
     queue := queue st ++ [(validNode, 0)];
     visited := set_add (visited st) validNode |}.

(** Lines 201-206: the body of [neighbors.forEach]. *)
Definition visitNeighbor (level : nat) (st : BfsState) (neighborId : K) : BfsState :=
  if set_has (visited st) neighborId then st
  else
    let nextLevel := level + 1 in
    {| computedHopMap := map_set (computedHopMap st) neighborId nextLevel;
       queue := queue st ++ [(neighborId, nextLevel)];
       visited := set_add (visited st) neighborId |}.

Definition neighborsOf (adj : JSMap K (JSSet K)) (k : K) : list K :=
  match map_get adj k with
  | Some neighbors => neighbors
  | None => []
  end.

(** One turn of the [while] loop after [queue.shift()]. *)
Definition expand (adj : JSMap K (JSSet K)) (k : K) (level : nat) (st : BfsState) : BfsState :=
  fold_left (visitNeighbor level) (neighborsOf adj k) st.

Definition dequeued (st : BfsState) (rest : list (K * nat)) : BfsState :=
  {| computedHopMap := computedHopMap st; queue := rest; visited := visited st |}.

(** Lines 195-209: [while (queue.length > 0)]. *)
Fixpoint bfsLoop (fuel : nat) (adj : JSMap K (JSSet K)) (st : BfsState) : result BfsState :=
  match queue st with
  | [] => Ok st
  | (k, level) :: rest =>
      match fuel with
      | O => OutOfFuel
      | S fuel' => bfsLoop fuel' adj (expand adj k level (dequeued st rest))
      end
  end.

(** Turns that always suffice: each turn takes one entry off the queue, and
    an entry is pushed only for a neighbour occurrence not yet visited. *)
Definition bfsFuel (adj : JSMap K (JSSet K)) (st : BfsState) : nat :=
  List.length (queue st) + List.length (flat_map snd adj).
End HopLabeler.

Arguments BfsState K : clear implicits.

(** Lines 185-193: for every base address, every valid node that equals it
    up to letter case is seeded.  [validNode.toLowerCase()] throws on a node
    that is [undefined]. *)
Definition seedBase (validNodes : JSSet Addr) (st : BfsState Addr) (base : string)
    : result (BfsState Addr) :=
  foldM (fun st validNode =>
           lowered <- lowerOrThrow validNode ;;
           Ok (if lowered =? toLowerCase base then seedNode st validNode else st))
        validNodes st.

Definition seedAll (validNodes : JSSet Addr) (baseAddresses : JSSet string)
    : result (BfsState Addr) :=
  foldM (seedBase validNodes) baseAddresses emptyBfs.

(** Lines 181-209: the hop map of the filtered graph. *)
Definition computeHops (m : Maps) (baseAddresses : JSSet string)
    : result (JSMap Addr nat) :=
  st0 <- seedAll (validNodes m) baseAddresses ;;
  st <- bfsLoop (bfsFuel (adj m) st0) (adj m) st0 ;;
  Ok (computedHopMap st).

(** ** Cluster finder *)

Section UnionFind.
Context {K : Type} `{EqKey K}.

(** Lines 216-220: [find], which also registers an unknown address as its
    own root.  The recursion follows parent links; [fuel] bounds it. *)
Fixpoint find (fuel : nat) (parent : JSMap K K) (i : K) : result (JSMap K K * K) :=
  match fuel with
  | O => OutOfFuel
  | S fuel' =>
      let parent := if map_has parent i then parent else map_set parent i i in
      match map_get parent i with
      | Some p => if keqb p i then Ok (parent, i) else find fuel' parent p
      | None => Ok (parent, i)       (* not taken: [i] has a parent by now *)
      end
  end.

(** Line 221: [union]. *)
Definition union (fuel : nat) (parent : JSMap K K) (i j : K) : result (JSMap K K) :=
  '(parent, rootI) <- find fuel parent i ;;
  '(parent, rootJ) <- find fuel parent j ;;
  Ok (if keqb rootI rootJ then parent else map_set parent rootI rootJ).
End UnionFind.

(** Every [find] of a run gets this much fuel: one call per parent link on
    the way to the root, and no chain is longer than the number of links
    that were united. *)
Definition ufFuel (links : list Link) : nat := S (List.length links).

(** Lines 223-227: the nodes of the links, united pairwise. *)
Definition uniteLink (fuel : nat) (st : JSSet Addr * JSMap Addr Addr) (l : Link)
    : result (JSSet Addr * JSMap Addr Addr) :=
  let '(nodeSet, parent) := st in
  let nodeSet := set_add nodeSet (source l) in
  let nodeSet := set_add nodeSet (target l) in
  parent <- union fuel parent (source l) (target l) ;;
  Ok (nodeSet, parent).

(** Line 229: a valid node that no link touches is its own component. *)
Definition addIsolated (st : JSSet Addr * JSMap Addr Addr) (a : Addr)
    : JSSet Addr * JSMap Addr Addr :=
  let '(nodeSet, parent) := st in
  if set_has nodeSet a then st else (set_add nodeSet a, map_set parent a a).

(** Line 232: counting the members of every root. *)
Definition countRoot (fuel : nat) (st : JSMap Addr Addr * JSMap Addr nat) (a : Addr)
    : result (JSMap Addr Addr * JSMap Addr nat) :=
  let '(parent, componentCounts) := st in
  '(parent, root) <- find fuel parent a ;;
  let n := match map_get componentCounts root with Some n => n | None => 0 end in
  Ok (parent, map_set componentCounts root (n + 1)).

(** ** Node construction *)

(** [labels.find(l => l.address.toLowerCase() === id.toLowerCase())] *)
Fixpoint findLabel (id : Addr) (labels : list Label) : result (option Label) :=
  match labels with
  | [] => Ok None
  | l :: labels' =>
      lowered <- lowerOrThrow id ;;
      if toLowerCase (address l) =? lowered then Ok (Some l) else findLabel id labels'
  end.

(** Lines 38-45. *)
Definition getNodeType (id : Addr) (labels : list Label) : result string :=
  found <- findLabel id labels ;;
  match found with
  | Some l => Ok (tag_type l)
  | None =>
      lowered <- lowerOrThrow id ;;
      if includes lowered "binance" || includes lowered "kraken" then Ok "exchange"
      else if includes lowered "bridge" || includes lowered "safe" then Ok "contract"
      else Ok "wallet"
  end.

(** [colorCounter %= 1] for a counter in [0, 2), the only values it takes:
    the counter is below one before [goldenRatio] is added. *)
Definition mod1 (x : float) : float :=
  if PrimFloat.leb 1%float x then (x - 1)%float else x.

Record NodeState : Type := {
  ns_parent : JSMap Addr Addr;
  rootColors : JSMap Addr Color;
  colorCounter : float;
  computedNodes : list AddressNode
}.

Definition defaultColor (theme : Theme) : Color :=
  match theme with
  | light => Hex DEFAULT_SMALL_GROUP_COLOR
  | dark => Hex "#94a3b8"
  end.

(** Lines 239-269: one node.  [random] gives the draws of [Math.random()] in
    the order they are made during the run; the only call is the one for
    [activityScore], so the draw of a node is indexed by the nodes already
    pushed. *)
Definition buildNode (random : nat -> float) (fuel : nat) (theme : Theme)
    (labels : list Label) (m : Maps) (componentCounts : JSMap Addr nat)
    (hops : JSMap Addr nat) (st : NodeState) (a : Addr) : result NodeState :=
  let bal := num_or_zero (map_get (balanceMap m) a) in
  '(parent, root) <- find fuel (ns_parent st) a ;;
  let size :=
    match map_get componentCounts root with
    | Some (S n) => S n
    | _ => 1
    end in
  let '(rootColors, colorCounter, color, gid) :=
    if (GROUP_THRESHOLD <? size)%nat then
      let '(rootColors, colorCounter) :=
        if map_has (rootColors st) root then (rootColors st, colorCounter st)
        else
          let c := mod1 (colorCounter st + goldenRatio)%float in
          (map_set (rootColors st) root (Sinebow c), c) in
      (rootColors, colorCounter,
       match map_get rootColors root with Some c => c | None => defaultColor theme end,
       1)
    else (rootColors st, colorCounter st, defaultColor theme, 0) in
  ty <- getNodeType a labels ;;
  Ok {| ns_parent := parent;
        rootColors := rootColors;
        colorCounter := colorCounter;
        computedNodes :=
          computedNodes st ++
          [{| id := a; balance := bal; node_type := ty;
              activityScore := random (List.length (computedNodes st));
              groupId := gid; groupSize := size; groupColor := color;
              hop := map_get hops a |}] |}.

(** Lines 274-290: the relationship filter. *)
Definition isRelated (m : Maps) (hops : JSMap Addr nat) (n : AddressNode) : bool :=
  match hop n with
  | None => false
  | Some 0 => true
  | Some 1 =>
      match map_get (adj m) (id n) with
      | None => false
      | Some neighbors =>
          existsb (fun neighborId =>
                     match map_get hops neighborId with
                     | Some h => (0 <? h)%nat
                     | None => false
                     end) neighbors
      end
  | Some _ => true
  end.

(** What the memo returns; [minBal] and [maxBal] are the domain handed to
    [d3.scaleSqrt().domain(...).range([20, 80]).clamp(true)]. *)
Record Topology : Type := {
  nodes : list AddressNode;
  links : list Link;
  minBal : float;
  maxBal : float
}.

(** Lines 131-302: the memoised graph construction. *)
Definition topology (random : nat -> float) (inp : Inputs) : result Topology :=
  let m := buildMaps (filteredData inp) in
  let valid := validNodes m in
  let pre := preFilteredLinks m in
  hops <- computeHops m (baseAddresses inp) ;;
  let fuel := ufFuel pre in
  '(nodeSet, parent) <- foldM (uniteLink fuel) pre ([], []) ;;
  let '(nodeSet, parent) := fold_left addIsolated valid (nodeSet, parent) in
  '(parent, componentCounts) <- foldM (countRoot fuel) nodeSet (parent, []) ;;
  st <- foldM (buildNode random fuel (theme inp) (sharedLabels inp) m componentCounts hops)
              nodeSet
              {| ns_parent := parent; rootColors := []; colorCounter := 0%float;
                 computedNodes := [] |} ;;
  let finalNodes :=
    if showRelatedOnly inp then filter (isRelated m hops) (computedNodes st)
    else computedNodes st in
  let finalNodeSet := set_from (map id finalNodes) in
  let finalLinks :=
    filter (fun l => set_has finalNodeSet (source l) && set_has finalNodeSet (target l)) pre in
  Ok {| nodes := finalNodes;
        links := finalLinks;
        minBal := num_or (Math_min (map balance finalNodes)) 0.001%float;
        maxBal := num_or (Math_max (map balance finalNodes)) 1%float |}.

(** ** Trace crawler *)

Inductive Direction : Type := dir_both | dir_from | dir_to.

Record TraceConfig : Type := {
  network : string;
  includeNative : bool;
  includeERC20 : bool;
  direction : Direction;
  hops : nat;
  cfg_start : string;
  cfg_end : string
}.

(** The history provider, [fetchAddressHistory(address, network, range)] of
    [../services/chainService], which is not among the sources: [None] is a
    rejected promise.  The range is handed over as the two date strings of
    the configuration. *)
Definition Provider : Type :=
  string -> string -> option (string * string) -> option (list Transaction).

Record CrawlInput : Type := {
  crawl_data : list Transaction;
  traceTargets : JSSet string;
  tracedAddresses : JSSet string;
  traceConfig : TraceConfig
}.

(** How an invocation ends. *)
Inductive Outcome : Type :=
| Refused                              (* no target: alert, early return *)
| Ingested (txs : list Transaction)    (* onAddData(allNewTransactions) *)
| NoNewData                            (* "Trace Complete. No *new* data found." *)
| TraceFailed.                         (* the catch block: "Trace failed." *)

(** [frontiers] lists the [nextFrontier] of every layer that ran, in order. *)
Record CrawlResult : Type := {
  outcome : Outcome;
  tracedAfter : JSSet string;
  frontiers : list (list string)
}.

Definition BATCH_SIZE : nat := 5.

(** Lines 442-443: the slices [currentFrontier.slice(j, j + BATCH_SIZE)]. *)
Fixpoint batchesFrom (fuel : nat) (frontier : list string) : list (list string) :=
  match fuel, frontier with
  | S fuel', _ :: _ => firstn BATCH_SIZE frontier :: batchesFrom fuel' (skipn BATCH_SIZE frontier)
  | _, _ => []
  end.

Definition batches (frontier : list string) : list (list string) :=
  batchesFrom (List.length frontier) frontier.

Record LayerState : Type := {
  nextFrontier : JSSet string;
  layerTransactions : list Transaction
}.

(** Lines 450-451: the two type switches of the configuration. *)
Definition typeSkipped (cfg : TraceConfig) (tx : Transaction) : bool :=
  match tx_type tx with
  | native => negb (includeNative cfg)
  | erc20 => negb (includeERC20 cfg)
  end.

(** [(a || '')] on a [string | undefined]. *)
Definition orEmpty (a : option string) : string :=
  match a with
  | Some s => s
  | None => ""
  end.

(** Lines 449-483: one transfer of the history of [address]. *)
Definition traceTx (cfg : TraceConfig) (sessionVisited : JSSet string) (address : string)
    (st : LayerState) (tx : Transaction) : LayerState :=
  if typeSkipped cfg tx then st
  else
    let fromAddr := toLowerCase (orEmpty (tx_from tx)) in
    let toAddr := toLowerCase (orEmpty (tx_to tx)) in
    let currentAddr := toLowerCase address in
    let isFrom := fromAddr =? currentAddr in
    let isTo := toAddr =? currentAddr in
    let '(isValidDirection, neighbor) :=
      match direction cfg with
      | dir_from => if isFrom then (true, tx_to tx) else (false, Some "")
      | dir_to => if isTo then (true, tx_from tx) else (false, Some "")
      | dir_both =>
          if isFrom || isTo then (true, if isFrom then tx_to tx else tx_from tx)
          else (false, Some "")
      end in
    if isValidDirection && truthy_str neighbor then
      let neighborLower := toLowerCase (orEmpty neighbor) in
      {| layerTransactions := layerTransactions st ++ [tx];
         nextFrontier :=
           if set_has sessionVisited neighborLower then nextFrontier st
           else set_add (nextFrontier st) neighborLower |}
    else st.

(** The range handed to the provider, lines 411-416. *)
Definition rangeOf (cfg : TraceConfig) : option (string * string) :=
  if negb (cfg_start cfg =? "") && negb (cfg_end cfg =? "")
  then Some (cfg_start cfg, cfg_end cfg)
  else None.

(** Lines 445-484: the callback of one address.  A rejected fetch rejects the
    callback's promise, which [Promise.allSettled] absorbs: nothing is
    collected for that address and nothing is thrown. *)
Definition traceAddress (fetchAddressHistory : Provider) (cfg : TraceConfig)
    (sessionVisited : JSSet string) (st : LayerState) (address : string) : LayerState :=
  match fetchAddressHistory address (network cfg) (rangeOf cfg) with
  | Some txs => fold_left (traceTx cfg sessionVisited address) txs st
  | None => st
  end.

(** The fetches of a batch run concurrently, and the rest of a callback runs
    in one piece once its fetch has settled: a schedule gives, for a batch,
    the order in which its fetches settle (a permutation of the batch). *)
Definition Schedule : Type := list string -> list string.

Definition inOrder : Schedule := fun batch => batch.

(** Lines 438-489: one layer, batch after batch. *)
Definition traceLayer (fetchAddressHistory : Provider) (settle : Schedule)
    (cfg : TraceConfig) (sessionVisited : JSSet string) (currentFrontier : list string)
    : LayerState :=
  fold_left
    (fun st batch =>
       fold_left (traceAddress fetchAddressHistory cfg sessionVisited) (settle batch) st)
    (batches currentFrontier)
    {| nextFrontier := []; layerTransactions := [] |}.

(** [l.forEach(a => s.add(a.toLowerCase()))] *)
Definition addLowered (s : JSSet string) (l : list string) : JSSet string :=
  fold_left (fun s a => set_add s (toLowerCase a)) l s.

Record CrawlState : Type := {
  sessionVisited : JSSet string;
  currentFrontier : list string;
  allNewTransactions : list Transaction;
  seenFrontiers : list (list string)
}.

(** Lines 430-499: the layers; [n] counts the turns of the [for] loop that
    are left. *)
Fixpoint traceLayers (fetchAddressHistory : Provider) (settle : Schedule)
    (cfg : TraceConfig) (n : nat) (st : CrawlState) : CrawlState :=
  match n with
  | O => st
  | S n' =>
      match currentFrontier st with
      | [] => st
      | _ :: _ =>
          let layer :=
            traceLayer fetchAddressHistory settle cfg (sessionVisited st)
                       (currentFrontier st) in
          traceLayers fetchAddressHistory settle cfg n'
            {| sessionVisited := addLowered (sessionVisited st) (currentFrontier st);
               currentFrontier := nextFrontier layer;
               allNewTransactions := allNewTransactions st ++ layerTransactions layer;
               seenFrontiers := seenFrontiers st ++ [nextFrontier layer] |}
      end
  end.

(** Lines 418-422: the lower-cased endpoints of the loaded transfers; a
    record without an endpoint makes [toLowerCase] throw. *)
Definition knownAddresses (data : list Transaction) : result (JSSet string) :=
  foldM (fun known t =>
           f <- lowerOrThrow (tx_from t) ;;
           let known := set_add known f in
           t' <- lowerOrThrow (tx_to t) ;;
           Ok (set_add known t'))
        data [].

(** Lines 401-529. *)
Definition handleTraceExecution (fetchAddressHistory : Provider) (settle : Schedule)
    (inp : CrawlInput) : CrawlResult :=
  match traceTargets inp with
  | [] => {| outcome := Refused; tracedAfter := tracedAddresses inp; frontiers := [] |}
  | _ :: _ =>
      match knownAddresses (crawl_data inp) with
      | Ok _ =>
          let st :=
            traceLayers fetchAddressHistory settle (traceConfig inp)
                        (hops (traceConfig inp))
              {| sessionVisited :=
                   addLowered (set_from (map toLowerCase (tracedAddresses inp)))
                              (traceTargets inp);
                 currentFrontier := traceTargets inp;
                 allNewTransactions := [];
                 seenFrontiers := [] |} in
          match allNewTransactions st with
          | _ :: _ =>
              {| outcome := Ingested (allNewTransactions st);
                 tracedAfter := fold_left set_add (sessionVisited st) (tracedAddresses inp);
                 frontiers := seenFrontiers st |}
          | [] =>
              {| outcome := NoNewData;
                 tracedAfter := addLowered (tracedAddresses inp) (traceTargets inp);
                 frontiers := seenFrontiers st |}
          end
      | _ =>
          {| outcome := TraceFailed; tracedAfter := tracedAddresses inp; frontiers := [] |}
      end
  end.

(** ** Token selection controls *)

(** [s.delete(k)] *)
Definition set_delete {K : Type} `{EqKey K} (s : JSSet K) (k : K) : JSSet K :=
  filter (fun x => negb (keqb x k)) s.

(** Lines 370-375: [toggleToken], the new selection. *)
Definition toggleToken (selectedTokens : JSSet string) (token : string) : JSSet string :=
  let newSet := set_from selectedTokens in
  if set_has newSet token then set_delete newSet token else set_add newSet token.

(** Lines 377-383: [toggleAllTokens], the new selection. *)
Definition toggleAllTokens (available : list string) (selectedTokens : JSSet string)
    : JSSet string :=
  if (List.length selectedTokens =? List.length available)%nat then []
  else set_from available.

(** The inputs after [setSelectedTokens(s)]. *)
Definition withSelectedTokens (inp : Inputs) (s : JSSet string) : Inputs :=
  {| data := data inp;
     activeType := activeType inp;
     theme := theme inp;
     baseAddresses := baseAddresses inp;
     sharedLabels := sharedLabels inp;
     dateRange_start := dateRange_start inp;
     dateRange_end := dateRange_end inp;
     dustThreshold := dustThreshold inp;
     selectedTokens := s;
     showRelatedOnly := showRelatedOnly inp;
     tzOffset := tzOffset inp |}.

(** ** Trace candidates *)

#[export] Instance nat_EqKey : EqKey nat := {| keqb := Nat.eqb |}.

(** [arr.filter(p)] with a predicate that may throw. *)
Fixpoint filterM {A : Type} (p : A -> result bool) (l : list A) : result (list A) :=
  match l with
  | [] => Ok []
  | x :: l' =>
      b <- p x ;;
      rest <- filterM p l' ;;
      Ok (if b then x :: rest else rest)
  end.

(** [n.hop ?? 0] *)
Definition hopOrZero (n : AddressNode) : nat :=
  match hop n with
  | Some h => h
  | None => 0
  end.

Fixpoint insert_by_hop (n : AddressNode) (l : list AddressNode) : list AddressNode :=
  match l with
  | [] => [n]
  | x :: l' =>
      if (hopOrZero n <? hopOrZero x)%nat then x :: insert_by_hop n l' else n :: l
  end.

(** [sort((a, b) => hopB - hopA)] with [hop ?? 0]: descending, and stable. *)
Definition sort_by_hop_desc (l : list AddressNode) : list AddressNode :=
  fold_right insert_by_hop [] l.

(** Lines 306-314: [candidateList]. *)
Definition candidateList (nodes : list AddressNode)
    (baseAddresses tracedAddresses : JSSet string) : result (list AddressNode) :=
  pool <- filterM (fun n =>
                     match hop n with
                     | Some _ => Ok true
                     | None =>
                         lowered <- lowerOrThrow (id n) ;;
                         Ok (set_has baseAddresses lowered)
                     end) nodes ;;
  untraced <- filterM (fun n =>
                         lowered <- lowerOrThrow (id n) ;;
                         Ok (negb (set_has tracedAddresses lowered))) pool ;;
  Ok (sort_by_hop_desc untraced).

Record CandidateGroup : Type := {
  group_hop : nat;
  group_label : string;
  group_nodes : list AddressNode
}.

(** The body of [candidateList.forEach], lines 318-322; [push] extends the
    array the map holds. *)
Definition groupPush (groups : JSMap nat (list AddressNode)) (node : AddressNode)
    : JSMap nat (list AddressNode) :=
  let hop := hopOrZero node in
  let groups := if map_has groups hop then groups else map_set groups hop [] in
  match map_get groups hop with
  | Some g => map_set groups hop (g ++ [node])
  | None => groups
  end.

Fixpoint insert_nat (n : nat) (l : list nat) : list nat :=
  match l with
  | [] => [n]
  | x :: l' => if (n <=? x)%nat then n :: l else x :: insert_nat n l'
  end.

(** [sort((a, b) => a - b)] on numbers. *)
Definition sort_nat (l : list nat) : list nat := fold_right insert_nat [] l.

(** [hop === 0 ? 'Base (0)' : `Hop ${hop}`] *)
Definition groupLabel (hop : nat) : string :=
  match hop with
  | O => "Base (0)"
  | S _ => ("Hop " ++ NilZero.string_of_uint (Nat.to_uint hop))%string
  end.

(** Lines 316-328: [groupedCandidates]. *)
Definition groupedCandidates (candidateList : list AddressNode) : list CandidateGroup :=
  let groups := fold_left groupPush candidateList [] in
  map (fun hop =>
         {| group_hop := hop;
            group_label := groupLabel hop;
            group_nodes := match map_get groups hop with Some g => g | None => [] end |})
      (sort_nat (map_keys groups)).

(** Lines 333-338 of the auto-selection: the largest hop of a node that is
    not traced yet; [None] is the initial [-1]. *)
Definition maxUntracedHop (nodes : list AddressNode) (tracedAddresses : JSSet string)
    : result (option nat) :=
  foldM (fun maxHop n =>
           match hop n with
           | None => Ok maxHop
           | Some h =>
               if match maxHop with Some m => (m <? h)%nat | None => true end
               then
                 lowered <- lowerOrThrow (id n) ;;
                 Ok (if negb (set_has tracedAddresses lowered) then Some h else maxHop)
               else Ok maxHop
           end)
        nodes None.

(** Lines 332-351: the targets the trace dialog selects when it opens. *)
Definition autoSelect (nodes : list AddressNode) (tracedAddresses : JSSet string)
    : result (JSSet Addr) :=
  maxHop <- maxUntracedHop nodes tracedAddresses ;;
  match maxHop with
  | Some m =>
      foldM (fun targets n =>
               if match hop n with Some h => (h =? m)%nat | None => false end
               then
                 lowered <- lowerOrThrow (id n) ;;
                 Ok (if negb (set_has tracedAddresses lowered)
                     then set_add targets (id n) else targets)
               else Ok targets)
            nodes []
  | None => Ok []
  end.

(** ** Labels on the canvas and in the details panel *)

(** Lines 673-674: the map behind the label badges, keyed by the lower-cased
    address. *)
Definition labelMap (sharedLabels : list Label) : JSMap string string :=
  fold_left (fun m l => map_set m (toLowerCase (address l)) (label l)) sharedLabels [].

(** Lines 676 and 684: the badge text of a node, when it has a badge. *)
Definition badgeOf (sharedLabels : list Label) (id : Addr) : result (option string) :=
  lowered <- lowerOrThrow id ;;
  Ok (map_get (labelMap sharedLabels) lowered).

(** Lines 781-784: the label shown in the details panel. *)
Definition existingLabel (sharedLabels : list Label) (selectedNode : option AddressNode)
    : result (option Label) :=
  match selectedNode with
  | None => Ok None
  | Some n => findLabel (id n) sharedLabels
  end.

(** Lines 53-57: [truncate]. *)
Definition truncate (str : option string) : string :=
  let s := orEmpty str in
  if (String.length s <=? 10)%nat then s
  else (substring 0 4 s ++ "..." ++ substring (String.length s - 4) 4 s)%string.

(** ** Adding data (App.tsx) *)

(** Lines 63-79 of App.tsx: [handleAddData] gives the new table and the
    calls of [dataService.syncTransactions], which never rejects. *)
Definition handleAddData (prev newTxns : list Transaction)
    : list Transaction * list (list Transaction * TxType) :=
  let data := newTxns ++ prev in
  let calls :=
    if (0 <? List.length newTxns)%nat then
      let natives := filter (fun t => TxType_eqb (tx_type t) native) newTxns in
      let erc20s := filter (fun t => TxType_eqb (tx_type t) erc20) newTxns in
      (if (0 <? List.length natives)%nat then [(natives, native)] else [])
      ++ (if (0 <? List.length erc20s)%nat then [(erc20s, erc20)] else [])
    else [] in
  (data, calls).

(** ** The sync endpoint (server.js) *)

Inductive Column : Type :=
| col_unique_id | col_tx_hash | col_method | col_block_number | col_timestamp
| col_from_addr | col_to_addr | col_value | col_fee | col_token_symbol.

(** A value bound to a placeholder: the user id, the chain id ['1'], or the
    field of a transfer that goes into a column. *)
Inductive Bound (T : Type) : Type :=
| UserId
| ChainId
| FieldOf (c : Column) (t : T).

Arguments UserId {T}.
Arguments ChainId {T}.
Arguments FieldOf {T} c t.

(** One [INSERT]: the placeholder numbers of every row and the values. *)
Record Statement (T : Type) : Type := {
  into : TxType;
  placeholders : list (list nat);
  bound : list (Bound T)
}.

Arguments into {T} s.
Arguments placeholders {T} s.
Arguments bound {T} s.

Definition chunkSize : nat := 500.

Section Sync.
Context {T : Type}.

(** The slices [transactions.slice(i, i + chunkSize)]. *)
Fixpoint chunksFrom (fuel : nat) (transactions : list T) : list (list T) :=
  match fuel, transactions with
  | S fuel', _ :: _ =>
      firstn chunkSize transactions :: chunksFrom fuel' (skipn chunkSize transactions)
  | _, _ => []
  end.

Definition chunks (transactions : list T) : list (list T) :=
  chunksFrom (List.length transactions) transactions.

(** The ten values of a native row and the eleven of a token row. *)
Definition rowValues (type : TxType) (t : T) : list (Bound T) :=
  match type with
  | native =>
      [UserId; FieldOf col_tx_hash t; FieldOf col_method t; FieldOf col_block_number t;
       FieldOf col_timestamp t; FieldOf col_from_addr t; FieldOf col_to_addr t;
       FieldOf col_value t; FieldOf col_fee t; ChainId]
  | erc20 =>
      [UserId; FieldOf col_unique_id t; FieldOf col_tx_hash t; FieldOf col_method t;
       FieldOf col_block_number t; FieldOf col_timestamp t; FieldOf col_from_addr t;
       FieldOf col_to_addr t; FieldOf col_value t; FieldOf col_token_symbol t; ChainId]
  end.

(** [($offset+1, ..., $offset+w)] with [offset = idx * w]. *)
Definition rowPlaceholders (type : TxType) (idx : nat) : list nat :=
  match type with
  | native => map (fun k => idx * 10 + k) (seq 1 10)
  | erc20 => map (fun k => idx * 11 + k) (seq 1 11)
  end.

(** [chunk.map((t, idx) => ...)] with the values pushed on the way. *)
Definition insertOf (type : TxType) (chunk : list T) : Statement T :=
  {| into := type;
     placeholders := map (rowPlaceholders type) (seq 0 (List.length chunk));
     bound := flat_map (rowValues type) chunk |}.

(** What reaches the database in one request. *)
Inductive DbCommand : Type :=
| Begin
| Insert (s : Statement T)
| Commit
| Rollback.

Inductive SyncResponse : Type :=
| CountZero          (* [{ count: 0 }] *)
| Success            (* [{ success: true }] *)
| Status500
| NoAnswer.          (* the [catch] block threw as well: nothing is sent *)

(** The commands in order, until the database refuses one; [query] tells
    whether it accepts a command. *)
Fixpoint runCommands (query : DbCommand -> bool) (cmds : list DbCommand)
    : list DbCommand * bool :=
  match cmds with
  | [] => ([], true)
  | c :: rest =>
      if query c then
        let '(log, ok) := runCommands query rest in (c :: log, ok)
      else ([c], false)
  end.

(** Lines 140-203 of server.js: [POST /api/data/sync] after authentication
    and once [pool.connect()] has given a connection, with the commands sent
    over it.  A refused command throws into the [catch], which rolls back
    and answers 500; a refused [ROLLBACK] throws out of the [catch] before
    the answer. *)
Definition syncHandler (query : DbCommand -> bool) (transactions : list T)
    (type : TxType) : list DbCommand * SyncResponse :=
  match transactions with
  | [] => ([], CountZero)
  | _ :: _ =>
      let '(log, ok) :=
        runCommands query
          (Begin :: map (fun chunk => Insert (insertOf type chunk)) (chunks transactions)
           ++ [Commit]) in
      if ok then (log, Success)
      else (log ++ [Rollback], if query Rollback then Status500 else NoAnswer)
  end.
End Sync.

(** ** The trace configuration *)



(* ================================================================== *)
(** * Part II. Specifications *)
(* ================================================================== *)

(** ** Distances in an adjacency structure *)

Section BfsSpec.
Context {K : Type} `{EqKey K}.
Variable adj : JSMap K (JSSet K).
Variable seed : K -> Prop.

(** [reach j n]: some seed is joined to [n] by [j] adjacency steps. *)
Inductive reach : nat -> K -> Prop :=
| reach_seed s : seed s -> reach 0 s
| reach_step j p n : reach j p -> In n (neighborsOf adj p) -> reach (S j) n.

(** A hop map is exact when every label is the least number of steps. *)
Definition exactHops (hopMap : JSMap K nat) : Prop :=
  forall n k, map_get hopMap n = Some k ->
              reach k n /\ forall j, reach j n -> k <= j.

Definition pending (q : list (K * nat)) (p : K) : Prop :=
  exists l, In (p, l) q.

(** The invariant of the [while] loop, between two turns. *)
Record BfsInv (st : BfsState K) : Prop := {
  inv_visited : forall n, In n (visited st) <-> map_get (computedHopMap st) n <> None;
  inv_exact : exactHops (computedHopMap st);
  inv_queue : forall n l, In (n, l) (queue st) -> map_get (computedHopMap st) n = Some l;
  inv_sorted : StronglySorted le (map snd (queue st));
  inv_window : forall e e', In e (queue st) -> In e' (queue st) -> snd e' <= snd e + 1;
  inv_closed : forall p n, In p (visited st) -> In n (neighborsOf adj p) ->
                           In n (visited st) \/ pending (queue st) p;
  inv_seeds : forall s, seed s -> In s (visited st)
}.

(** The invariant inside a turn: [k] was dequeued at [level] and [rest] are
    the neighbours it has still to look at. *)
Record ExpandInv (k : K) (level : nat) (rest : list K) (st : BfsState K) : Prop := {
  exp_visited : forall n, In n (visited st) <-> map_get (computedHopMap st) n <> None;
  exp_exact : exactHops (computedHopMap st);
  exp_queue : forall n l, In (n, l) (queue st) -> map_get (computedHopMap st) n = Some l;
  exp_sorted : StronglySorted le (map snd (queue st));
  exp_window : forall e, In e (queue st) -> level <= snd e <= level + 1;
  exp_closed : forall p n, In p (visited st) -> In n (neighborsOf adj p) ->
                           In n (visited st) \/ pending (queue st) p \/ (p = k /\ In n rest);
  exp_seeds : forall s, seed s -> In s (visited st);
  exp_self : map_get (computedHopMap st) k = Some level;
  exp_rest : forall n, In n rest -> In n (neighborsOf adj k)
}.

(** Neighbour occurrences not yet visited: what the loop can still push. *)
Definition unvisited (st : BfsState K) : nat :=
  List.length (filter (fun n => negb (set_has (visited st) n)) (flat_map snd adj)).

(** What bounds the turns that are left. *)
Definition measure (st : BfsState K) : nat :=
  List.length (queue st) + unvisited st.
End BfsSpec.

(** ** The filtered graph *)

(** A record that carries both endpoints. *)
Definition wellFormed (tx : Transaction) : bool :=
  match tx_from tx, tx_to tx with
  | Some _, Some _ => true
  | _, _ => false
  end.

(** [tx] joins [u] and [v], in either direction. *)
Definition joins (u v : Addr) (tx : Transaction) : bool :=
  (keqb (tx_from tx) u && keqb (tx_to tx) v) ||
  (keqb (tx_from tx) v && keqb (tx_to tx) u).

(** The undirected edges of a filtered transfer set. *)
Definition uedge (fd : list Transaction) (u v : Addr) : bool := existsb (joins u v) fd.

(** [upath fd k u v]: [k] undirected edges lead from [u] to [v]. *)
Inductive upath (fd : list Transaction) : nat -> Addr -> Addr -> Prop :=
| upath_here u : upath fd 0 u u
| upath_edge k u v w : uedge fd u v = true -> upath fd k v w -> upath fd (S k) u w.

(** [a] is an endpoint of some transfer of the set. *)
Definition isNode (fd : list Transaction) (a : Addr) : bool :=
  existsb (fun tx => keqb (tx_from tx) a || keqb (tx_to tx) a) fd.

(** [a] equals some base address up to letter case. *)
Definition matchesBase (baseAddresses : JSSet string) (a : Addr) : bool :=
  match a with
  | Some s => existsb (fun base => toLowerCase s =? toLowerCase base) baseAddresses
  | None => false
  end.

(** The base nodes: the nodes of the graph that match a base address. *)
Definition baseNode (fd : list Transaction) (baseAddresses : JSSet string) (a : Addr) : bool :=
  isNode fd a && matchesBase baseAddresses a.

(** The state of the seeding loops, with [P] the nodes seeded so far. *)
Record SeedInv (P : Addr -> Prop) (st : BfsState Addr) : Prop := {
  seed_visited : forall n, In n (visited st) <-> P n;
  seed_zero : forall n, In n (visited st) -> map_get (computedHopMap st) n = Some 0;
  seed_known : forall n, map_get (computedHopMap st) n <> None -> In n (visited st);
  seed_queue : forall n l, In (n, l) (queue st) -> l = 0 /\ In n (visited st);
  seed_pending : forall n, In n (visited st) -> pending (queue st) n
}.

(** ** Sample inputs *)

Definition transfer (f t : string) (v : float) : Transaction :=
  {| tx_id := (f ++ ">" ++ t)%string; tx_hash := ""; tx_from := Some f; tx_to := Some t;
     tx_value := v; tx_token := None; tx_timestamp := Some 0%Z; tx_type := native |}.

(** The example scenario of the specification: a triangle on a, b and c. *)
Definition triangle : list Transaction :=
  [transfer "a" "b" 10; transfer "b" "c" 5; transfer "c" "a" 3].

(** ** Identity of addresses *)



(** The balance the builder accumulates for the address spelled exactly [a]:
    each transfer credits its value once for the sender and once for the
    recipient. *)
Definition credit (a x : Addr) (v : float) (b : option float) : option float :=
  if keqb x a then Some (num_or_zero b + v)%float else b.

Definition balanceOf (fd : list Transaction) (a : Addr) : option float :=
  fold_left
    (fun b tx => credit a (tx_to tx) (tx_value tx) (credit a (tx_from tx) (tx_value tx) b))
    fd None.


(** ** Token selection *)

Definition tokenTransfer (f t tok : string) : Transaction :=
  {| tx_id := (f ++ ">" ++ t)%string; tx_hash := ""; tx_from := Some f; tx_to := Some t;
     tx_value := 1%float; tx_token := Some tok; tx_timestamp := Some 0%Z;
     tx_type := erc20 |}.

(** One token transfer on screen and nothing ticked in the token list. *)
Definition nothingSelected : Inputs :=
  {| data := [tokenTransfer "a" "b" "USDT"];
     activeType := erc20;
     theme := light;
     baseAddresses := [];
     sharedLabels := [];
     dateRange_start := None;
     dateRange_end := None;
     dustThreshold := 0%float;
     selectedTokens := [];
     showRelatedOnly := false;
     tzOffset := 0%Z |}.

(** ** Runs of the graph construction *)

(** A node without its [Math.random()] draw. *)
Definition forgetScore (n : AddressNode) : AddressNode :=
  {| id := id n; balance := balance n; node_type := node_type n;
     activityScore := 0%float;
     groupId := groupId n; groupSize := groupSize n; groupColor := groupColor n;
     hop := hop n |}.

Definition forgetScores (t : Topology) : Topology :=
  {| nodes := map forgetScore (nodes t); links := links t;
     minBal := minBal t; maxBal := maxBal t |}.

Definition mapResult {A B : Type} (f : A -> B) (r : result A) : result B :=
  match r with
  | Ok a => Ok (f a)
  | TypeError => TypeError
  | OutOfFuel => OutOfFuel
  end.

(** Two results that end the same way, with related values. *)
Definition resultRel {A : Type} (R : A -> A -> Prop) (r1 r2 : result A) : Prop :=
  match r1, r2 with
  | Ok a1, Ok a2 => R a1 a2
  | TypeError, TypeError => True
  | OutOfFuel, OutOfFuel => True
  | _, _ => False
  end.

(** Two states of the node loop that differ in the draws only. *)
Definition sameButScores (s1 s2 : NodeState) : Prop :=
  ns_parent s1 = ns_parent s2 /\
  rootColors s1 = rootColors s2 /\
  colorCounter s1 = colorCounter s2 /\
  map forgetScore (computedNodes s1) = map forgetScore (computedNodes s2).

Definition scoresOf (r : result Topology) : list float :=
  match r with
  | Ok t => map activityScore (nodes t)
  | _ => []
  end.

(** The triangle, unfiltered, with base a. *)
Definition triangleInputs : Inputs :=
  {| data := triangle;
     activeType := native;
     theme := light;
     baseAddresses := ["a"];
     sharedLabels := [];
     dateRange_start := None;
     dateRange_end := None;
     dustThreshold := 0%float;
     selectedTokens := [];
     showRelatedOnly := false;
     tzOffset := 0%Z |}.

(** ** Crawls *)

(** A set of addresses that are all lower-cased forms. *)
Definition allLowered (s : JSSet string) : Prop :=
  forall a, In a s -> exists x, a = toLowerCase x.

(** A provider that rejects every request, and one that answers every
    request with an empty history. *)
Definition providerDown : Provider := fun _ _ _ => None.
Definition providerIdle : Provider := fun _ _ _ => Some [].

Definition traceBoth (n : nat) : TraceConfig :=
  {| network := "TRON"; includeNative := true; includeERC20 := true;
     direction := dir_both; hops := n; cfg_start := ""; cfg_end := "" |}.

(** A first crawl from the single target a. *)
Definition crawlFromA (n : nat) : CrawlInput :=
  {| crawl_data := []; traceTargets := ["a"]; tracedAddresses := [];
     traceConfig := traceBoth n |}.

(** The provider knows the single transfer a -> b. *)
Definition providerAB : Provider :=
  fun address _ _ => if address =? "a" then Some [transfer "a" "b" 1] else Some [].

(** The provider knows the triangle and returns, for an address, the
    transfers that touch it. *)
Definition providerTriangle : Provider :=
  fun address _ _ =>
    Some (filter (fun tx => keqb (tx_from tx) (Some address) || keqb (tx_to tx) (Some address))
                 [transfer "a" "b" 1; transfer "a" "c" 1; transfer "b" "c" 1]).

(** The session's visited set when the layers start. *)
Definition initialVisited (inp : CrawlInput) : JSSet string :=
  addLowered (set_from (map toLowerCase (tracedAddresses inp))) (traceTargets inp).

(** A provider from which nothing is ever collected: every request is
    rejected or answered with an empty history. *)
Definition silent (fetchAddressHistory : Provider) : Prop :=
  forall a n r, fetchAddressHistory a n r = None \/ fetchAddressHistory a n r = Some [].

Definition emptyLayer : LayerState := {| nextFrontier := []; layerTransactions := [] |}.

(** ** Parent links *)

Section UnionFindSpec.
Context {K : Type} `{EqKey K}.

(** The parent links climb in [rank], and no rank exceeds [c]: a walk to the
    root takes at most [c] steps. *)
Definition ranked (rank : K -> nat) (c : nat) (parent : JSMap K K) : Prop :=
  (forall i p, map_get parent i = Some p -> p <> i -> rank i < rank p) /\
  (forall i, rank i <= c).

(** [union] hangs the root [rootI] under the root [rootJ]. *)
Definition raise (rank : K -> nat) (rootI rootJ : K) : K -> nat :=
  fun x => if keqb x rootJ then Nat.max (rank rootJ) (rank rootI + 1) else rank x.
End UnionFindSpec.

(** ** Records with a missing endpoint *)

(** A set of addresses none of which is [undefined]. *)
Definition defined (s : JSSet Addr) : Prop := forall a, In a s -> a <> None.

(** A transfer whose sender is missing. *)
Definition senderless : Transaction :=
  {| tx_id := "?>b"; tx_hash := ""; tx_from := None; tx_to := Some "b";
     tx_value := 4%float; tx_token := None; tx_timestamp := Some 0%Z;
     tx_type := native |}.

Definition plainInputs (data : list Transaction) : Inputs :=
  {| data := data;
     activeType := native;
     theme := light;
     baseAddresses := [];
     sharedLabels := [];
     dateRange_start := None;
     dateRange_end := None;
     dustThreshold := 0%float;
     selectedTokens := [];
     showRelatedOnly := false;
     tzOffset := 0%Z |}.

(** The domain handed to the radius scale. *)
Definition radiusDomain (t : Topology) : float * float := (minBal t, maxBal t).

(** A crawl over transfers loaded with a missing sender. *)
Definition crawlOverMalformed : CrawlInput :=
  {| crawl_data := [senderless]; traceTargets := ["a"]; tracedAddresses := ["z"];
     traceConfig := traceBoth 1 |}.

(** A frontier of a layer: no repetition, and nothing the session had
    visited when the layer started. *)
Definition freshFrontier (sessionVisited : JSSet string) (frontier : JSSet string) : Prop :=
  NoDup frontier /\ forall a, In a frontier -> ~ In a sessionVisited.

(** ** The scenarios of the specification *)

(** What the examples read off a node. *)
Definition nodeSummary (n : AddressNode) : Addr * option nat * nat * nat * Color :=
  (id n, hop n, groupSize n, groupId n, groupColor n).

(** The triangle with no base address and the relationship filter on. *)
Definition triangleUnseeded : Inputs :=
  {| data := triangle;
     activeType := native;
     theme := light;
     baseAddresses := [];
     sharedLabels := [];
     dateRange_start := None;
     dateRange_end := None;
     dustThreshold := 0%float;
     selectedTokens := [];
     showRelatedOnly := true;
     tzOffset := 0%Z |}.

(** The provider of the two-hop example: a -> b for a; b -> a and b -> d
    for b. *)
Definition providerABD : Provider :=
  fun address _ _ =>
    if address =? "a" then Some [transfer "a" "b" 1]
    else if address =? "b" then Some [transfer "b" "a" 1; transfer "b" "d" 1]
    else Some [].

(** A node that carries the hop and the balance recorded for its id. *)
Definition labelled (m : Maps) (hops : JSMap Addr nat) (n : AddressNode) : Prop :=
  hop n = map_get hops (id n) /\
  balance n = num_or_zero (map_get (balanceMap m) (id n)).

(** Frontiers two or more layers apart share no address. *)
Definition apart (fs : list (list string)) : Prop :=
  forall i j a, i + 2 <= j -> In a (nth i fs []) -> ~ In a (nth j fs []).

(** A set of addresses in lower case. *)
Definition lowerCased (s : JSSet string) : Prop := forall a, In a s -> toLowerCase a = a.

(** The state between two layers: the frontiers seen so far are in lower
    case and apart, the last of them is the one to query next, and the
    session has visited all the others. *)
Record CrawlInv (st : CrawlState) : Prop := {
  crawl_apart : apart (seenFrontiers st);
  crawl_lower : forall F, In F (seenFrontiers st) -> lowerCased F;
  crawl_last : seenFrontiers st = [] \/
               exists earlier,
                 seenFrontiers st = earlier ++ [currentFrontier st] /\
                 forall F a, In F earlier -> In a F -> In a (sessionVisited st)
}.

(** ** The filters in one pass *)

(** The transfers the four filters keep, as one predicate. *)
Definition retained (inp : Inputs) (t : Transaction) : bool :=
  TxType_eqb (tx_type t) (activeType inp) &&
  match dateRange_start inp with
  | Some start => date_geb (tx_timestamp t) start
  | None => true
  end &&
  match dateRange_end inp with
  | Some e => date_leb (tx_timestamp t) (endOfDay (tzOffset inp) e)
  | None => true
  end &&
  (if PrimFloat.ltb 0%float (dustThreshold inp)
   then PrimFloat.leb (dustThreshold inp) (tx_value t) else true) &&
  match availableTokens (data inp) (activeType inp) with
  | [] => true
  | _ :: _ =>
      truthy_str (tx_token t) &&
      match selectedTokens inp with
      | [] => true
      | _ :: _ => set_has (selectedTokens inp) (token_of t)
      end
  end.

(** The key under which a transfer is aggregated. *)
Definition keyOf (tx : Transaction) : string := linkKey (tx_from tx) (tx_to tx).

Definition linkKeyOf (l : Link) : string := linkKey (source l) (target l).

(** The transfers aggregated under [key]. *)
Definition withKey (key : string) (fd : list Transaction) : list Transaction :=
  filter (fun tx => keyOf tx =? key) fd.

(** What the link map holds under every key while the transfers [fd] have
    been processed. *)
Definition LinkInv (fd : list Transaction) (lm : JSMap string Link) : Prop :=
  forall key,
    match map_get lm key with
    | Some l =>
        linkKeyOf l = key /\ isBidirectional l = false /\
        count l = List.length (withKey key fd) /\
        exists tx rest, withKey key fd = tx :: rest /\
                        source l = tx_from tx /\ target l = tx_to tx
    | None => withKey key fd = []
    end.

(** ** Clusters *)

Section ClusterSpec.
Context {K : Type} `{EqKey K}.

(** Following the parent links from [i] ends at [r]; an address without an
    entry is its own root, as [find] makes it. *)
Inductive climbs (parent : JSMap K K) : K -> K -> Prop :=
| climbs_new i : map_get parent i = None -> climbs parent i i
| climbs_root i : map_get parent i = Some i -> climbs parent i i
| climbs_up i p r :
    map_get parent i = Some p -> p <> i -> climbs parent p r -> climbs parent i r.

Definition sameRoot (parent : JSMap K K) (x y : K) : Prop :=
  exists r, climbs parent x r /\ climbs parent y r.

(** Every parent has an entry of its own. *)
Definition closed (parent : JSMap K K) : Prop :=
  forall i q, map_get parent i = Some q -> map_get parent q <> None.
End ClusterSpec.

(** A link joins [a] and [b], in either direction. *)
Definition linked (ls : list Link) (a b : Addr) : Prop :=
  exists l, In l ls /\
            ((source l = a /\ target l = b) \/ (source l = b /\ target l = a)).

(** A chain of links leads from [a] to [b]. *)
Inductive connected (ls : list Link) : Addr -> Addr -> Prop :=
| connected_refl a : connected ls a a
| connected_step a b c : connected ls a b -> linked ls b c -> connected ls a c.

(** The root [find] returns. *)
Definition rootOf (fuel : nat) (parent : JSMap Addr Addr) (a : Addr) : Addr :=
  match find fuel parent a with
  | Ok (_, root) => root
  | _ => a
  end.

(** [componentCounts.get(root) || 0] *)
Definition countOf (componentCounts : JSMap Addr nat) (root : Addr) : nat :=
  match map_get componentCounts root with
  | Some n => n
  | None => 0
  end.

(** The state of the union-find structure after the links [done]. *)
Record UFInv (rank : Addr -> nat) (c : nat) (done : list Link)
    (nodeSet : JSSet Addr) (parent : JSMap Addr Addr) : Prop := {
  uf_ranked : ranked rank c parent;
  uf_closed : closed parent;
  uf_keys : forall k, map_get parent k <> None -> In k nodeSet;
  uf_conn : forall x y, sameRoot parent x y <-> connected done x y
}.

(** The members of [nodeSet] in the cluster of [a]. *)
Definition cluster (root : Addr -> Addr) (nodeSet : JSSet Addr) (a : Addr) : list Addr :=
  filter (fun x => keqb (root x) (root a)) nodeSet.

(** What a node says about its cluster. *)
Definition clustered (theme : Theme) (root : Addr -> Addr) (nodeSet : JSSet Addr)
    (rootColors : JSMap Addr Color) (n : AddressNode) : Prop :=
  groupSize n = List.length (cluster root nodeSet (id n)) /\
  ((groupSize n <= GROUP_THRESHOLD /\ groupId n = 0 /\
    groupColor n = defaultColor theme) \/
   (GROUP_THRESHOLD < groupSize n /\ groupId n = 1 /\
    map_get rootColors (root (id n)) = Some (groupColor n) /\
    exists c, groupColor n = Sinebow c)).

(** ** Trace candidates *)

Definition hasId (n : AddressNode) : bool :=
  match id n with Some _ => true | None => false end.

(** The lower-cased id of [n] is not among the traced addresses. *)
Definition untraced (tracedAddresses : JSSet string) (n : AddressNode) : bool :=
  match id n with
  | Some s => negb (set_has tracedAddresses (toLowerCase s))
  | None => false
  end.

(** [n] has a hop, or its lower-cased id is a base address. *)
Definition inPool (baseAddresses : JSSet string) (n : AddressNode) : bool :=
  match hop n with
  | Some _ => true
  | None =>
      match id n with
      | Some s => set_has baseAddresses (toLowerCase s)
      | None => false
      end
  end.

Definition atHop (h : nat) (n : AddressNode) : bool := (hopOrZero n =? h)%nat.

(** What the group map holds while the candidates [l] have been pushed. *)
Definition GroupInv (l : list AddressNode) (groups : JSMap nat (list AddressNode)) : Prop :=
  forall h,
    match map_get groups h with
    | Some g => g = filter (atHop h) l /\ g <> []
    | None => filter (atHop h) l = []
    end.

(** [m] is the largest hop of an untraced node of [nodes], if there is one. *)
Definition isMaxUntracedHop (nodes : list AddressNode) (tracedAddresses : JSSet string)
    (maxHop : option nat) : Prop :=
  match maxHop with
  | Some m =>
      (exists n, In n nodes /\ hop n = Some m /\ untraced tracedAddresses n = true) /\
      (forall n h, In n nodes -> hop n = Some h -> untraced tracedAddresses n = true ->
                   h <= m)
  | None =>
      forall n, In n nodes -> hop n <> None -> untraced tracedAddresses n = false
  end.

Definition node (a : string) (h : option nat) : AddressNode :=
  {| id := Some a; balance := 0%float; node_type := "wallet"; activityScore := 0%float;
     groupId := 0; groupSize := 1; groupColor := Hex DEFAULT_SMALL_GROUP_COLOR;
     hop := h |}.

(** ** What a layer collects *)

(** The lower-cased counterparty for which a transfer of the history of
    [address] is collected; [None] when the transfer is passed over. *)
Definition counterparty (cfg : TraceConfig) (address : string) (tx : Transaction)
    : option string :=
  if typeSkipped cfg tx then None
  else
    let isFrom := toLowerCase (orEmpty (tx_from tx)) =? toLowerCase address in
    let isTo := toLowerCase (orEmpty (tx_to tx)) =? toLowerCase address in
    let neighbor :=
      match direction cfg with
      | dir_from => if isFrom then tx_to tx else None
      | dir_to => if isTo then tx_from tx else None
      | dir_both => if isFrom then tx_to tx else if isTo then tx_from tx else None
      end in
    match neighbor with
    | Some s => if s =? "" then None else Some (toLowerCase s)
    | None => None
    end.

(** The history the provider returns for [a]; nothing when it rejects. *)
Definition history (fetchAddressHistory : Provider) (cfg : TraceConfig) (a : string)
    : list Transaction :=
  match fetchAddressHistory a (network cfg) (rangeOf cfg) with
  | Some txs => txs
  | None => []
  end.

Definition collectedFrom (fetchAddressHistory : Provider) (cfg : TraceConfig) (a : string)
    : list Transaction :=
  filter (fun tx => match counterparty cfg a tx with Some _ => true | None => false end)
         (history fetchAddressHistory cfg a).

(** [x] is the counterparty of a transfer collected from one of [order]. *)
Definition discovered (fetchAddressHistory : Provider) (cfg : TraceConfig)
    (order : list string) (x : string) : Prop :=
  exists a tx, In a order /\ In tx (history fetchAddressHistory cfg a) /\
               counterparty cfg a tx = Some x.

Definition sameMembers {A : Type} (s1 s2 : list A) : Prop := forall x, In x s1 <-> In x s2.

(** Two outcomes of the same kind, with the same transfers in some order. *)
Definition sameOutcome (o1 o2 : Outcome) : Prop :=
  match o1, o2 with
  | Refused, Refused => True
  | NoNewData, NoNewData => True
  | TraceFailed, TraceFailed => True
  | Ingested txs1, Ingested txs2 => Permutation txs1 txs2
  | _, _ => False
  end.

(** Two crawl states that differ in order only. *)
Record CrawlSim (s1 s2 : CrawlState) : Prop := {
  sim_visited : sameMembers (sessionVisited s1) (sessionVisited s2);
  sim_frontier : Permutation (currentFrontier s1) (currentFrontier s2);
  sim_new : Permutation (allNewTransactions s1) (allNewTransactions s2);
  sim_seen : Forall2 (@Permutation string) (seenFrontiers s1) (seenFrontiers s2)
}.

(** The settle order that is the reverse of the batch. *)
Definition lastFirst : Schedule := fun batch => rev batch.

(** The transfers a call hands to [onAddData]. *)
Definition ingested (r : CrawlResult) : list Transaction :=
  match outcome r with
  | Ingested txs => txs
  | _ => []
  end.

(** The addresses a call has queried: the targets and every frontier but
    the last, which no layer was left to query (or which was empty). *)
Definition queried (inp : CrawlInput) (r : CrawlResult) : list string :=
  match frontiers r with
  | [] => []
  | _ :: _ => traceTargets inp ++ List.concat (removelast (frontiers r))
  end.

(** The state between two layers, with [Q] the addresses queried so far. *)
Definition QueriedInv (fetchAddressHistory : Provider) (cfg : TraceConfig)
    (targets : list string) (st : CrawlState) (Q : list string) : Prop :=
  (forall tx, In tx (allNewTransactions st)
              <-> exists a, In a Q /\ In tx (collectedFrom fetchAddressHistory cfg a)) /\
  ((seenFrontiers st = [] /\ Q = [] /\ currentFrontier st = targets) \/
   (exists earlier, seenFrontiers st = earlier ++ [currentFrontier st] /\
                    Q = targets ++ List.concat earlier)).

(** ** Labels *)

(** The label is stored for the address [s], up to letter case. *)
Definition matchesLabel (s : string) (l : Label) : bool :=
  toLowerCase (address l) =? toLowerCase s.

Definition sampleLabels : list Label :=
  [{| address := "0xAB"; label := "first"; tag_type := "exchange" |};
   {| address := "0xab"; label := "second"; tag_type := "contract" |}].

(** ** The sync endpoint *)

(** The commands of a request that the database accepts throughout. *)
Definition syncCommands {T : Type} (transactions : list T) (type : TxType)
    : list (@DbCommand T) :=
  Begin :: map (fun chunk => Insert (insertOf type chunk)) (chunks transactions) ++ [Commit].

Definition rowWidth (type : TxType) : nat :=
  match type with
  | native => 10
  | erc20 => 11
  end.

(** A database that refuses the second [INSERT] of a request. *)
Definition refusesLongRows (c : @DbCommand nat) : bool :=
  match c with
  | Insert s => (List.length (placeholders s) <=? 1)%nat
  | _ => true
  end.

(** The state between two layers: the targets and the addresses queried so
    far, [Q], are visited in lower case. *)
Definition TracedInv (targets : list string) (st : CrawlState) (Q : list string) : Prop :=
  (forall a, In a targets \/ In a Q -> In (toLowerCase a) (sessionVisited st)) /\
  ((seenFrontiers st = [] /\ Q = [] /\ currentFrontier st = targets) \/
   (exists earlier, seenFrontiers st = earlier ++ [currentFrontier st] /\
                    Q = targets ++ List.concat earlier)).

(** ** The configurations the component can hold *)


(* ================================================================== *)
(** * Part III. Proofs *)
(* ================================================================== *)

#[export] Instance string_EqKeyOk : EqKeyOk string.
Proof. intros a b. apply String.eqb_eq. Qed.

#[export] Instance ostr_EqKeyOk : EqKeyOk (option string).
Proof.
  intros [x|] [y|]; simpl; split; intro E; try discriminate; try reflexivity.
  - apply String.eqb_eq in E. now subst.
  - inversion E. apply String.eqb_refl.
Qed.

Lemma ostr_eqb_eq (a b : option string) : ostr_eqb a b = true <-> a = b.
Proof. apply ostr_EqKeyOk. Qed.

(** ** Sets and maps *)

Section CollectionFacts.
Context {K : Type} `{EqKeyOk K}.

Lemma keqb_refl (a : K) : keqb a a = true.
Proof. now apply keqb_eq. Qed.

Lemma keqb_neq (a b : K) : a <> b -> keqb a b = false.
Proof.
  intro N. destruct (keqb a b) eqn:E; [|reflexivity].
  apply keqb_eq in E. contradiction.
Qed.

Lemma keqb_false (a b : K) : keqb a b = false -> a <> b.
Proof. intros E ->. rewrite keqb_refl in E. discriminate. Qed.

Lemma key_eq_dec (a b : K) : {a = b} + {a <> b}.
Proof.
  destruct (keqb a b) eqn:E.
  - left. now apply keqb_eq.
  - right. now apply keqb_false.
Qed.

Lemma set_has_In (s : JSSet K) (k : K) : set_has s k = true <-> In k s.
Proof.
  unfold set_has. rewrite existsb_exists. split.
  - intros (x & I & E). apply keqb_eq in E. now subst.
  - intro I. exists k. split; [assumption | apply keqb_refl].
Qed.

Lemma set_has_false (s : JSSet K) (k : K) : set_has s k = false <-> ~ In k s.
Proof.
  rewrite <- set_has_In. destruct (set_has s k); split; congruence.
Qed.

Lemma set_add_In (s : JSSet K) (k x : K) : In x (set_add s k) <-> In x s \/ x = k.
Proof.
  unfold set_add. destruct (set_has s k) eqn:E.
  - apply set_has_In in E. split; [tauto | intros [I | ->]; assumption].
  - rewrite in_app_iff. simpl. intuition.
Qed.

Lemma set_add_incl (s : JSSet K) (k x : K) : In x s -> In x (set_add s k).
Proof. intro I. apply set_add_In. now left. Qed.

Lemma set_add_NoDup (s : JSSet K) (k : K) : NoDup s -> NoDup (set_add s k).
Proof.
  intro N. unfold set_add. destruct (set_has s k) eqn:E; [assumption|].
  apply set_has_false in E.
  apply NoDup_rev in N. rewrite <- (rev_involutive (s ++ [k])).
  apply NoDup_rev. rewrite rev_app_distr. simpl. constructor; [|assumption].
  now rewrite <- in_rev.
Qed.

Lemma fold_set_add_In (l : list K) (s : JSSet K) (x : K) :
  In x (fold_left set_add l s) <-> In x s \/ In x l.
Proof.
  revert s. induction l as [|a l IH]; intro s; simpl.
  - tauto.
  - rewrite IH, set_add_In. intuition.
Qed.

Lemma set_from_In (l : list K) (x : K) : In x (set_from l) <-> In x l.
Proof. unfold set_from. rewrite fold_set_add_In. simpl. tauto. Qed.

Context {V : Type}.

Lemma map_get_set_same (m : JSMap K V) (k : K) (v : V) :
  map_get (map_set m k v) k = Some v.
Proof.
  induction m as [|[k' v'] m IH]; simpl.
  - now rewrite keqb_refl.
  - destruct (keqb k k') eqn:E; simpl; rewrite E; [reflexivity | exact IH].
Qed.

Lemma map_get_set_other (m : JSMap K V) (k k' : K) (v : V) :
  k' <> k -> map_get (map_set m k v) k' = map_get m k'.
Proof.
  intro N. induction m as [|[k0 v0] m IH]; simpl.
  - now rewrite keqb_neq.
  - destruct (keqb k k0) eqn:E; simpl.
    + apply keqb_eq in E. subst k0. now rewrite keqb_neq.
    + now rewrite IH.
Qed.

Lemma map_get_In (m : JSMap K V) (k : K) (v : V) :
  map_get m k = Some v -> In (k, v) m.
Proof.
  induction m as [|[k' v'] m IH]; simpl; [discriminate|].
  destruct (keqb k k') eqn:E.
  - intro S. apply keqb_eq in E. inversion S. subst. now left.
  - intro S. right. now apply IH.
Qed.

Lemma map_get_keys (m : JSMap K V) (k : K) :
  map_get m k <> None <-> In k (map_keys m).
Proof.
  induction m as [|[k' v'] m IH]; simpl; [tauto|].
  destruct (keqb k k') eqn:E.
  - apply keqb_eq in E. subst. split; [now left | discriminate].
  - apply keqb_false in E. rewrite IH. split; [tauto | intros [E' | I]; congruence].
Qed.

Lemma map_has_keys (m : JSMap K V) (k : K) : map_has m k = true <-> In k (map_keys m).
Proof.
  rewrite <- map_get_keys. unfold map_has.
  destruct (map_get m k); split; congruence.
Qed.

Lemma map_set_keys (m : JSMap K V) (k x : K) (v : V) :
  In x (map_keys (map_set m k v)) <-> In x (map_keys m) \/ x = k.
Proof.
  rewrite <- !map_get_keys. destruct (key_eq_dec x k) as [-> | N].
  - rewrite map_get_set_same. split; [now right | discriminate].
  - rewrite map_get_set_other by assumption. tauto.
Qed.

End CollectionFacts.

Lemma map_get_flat {K V : Type} `{EqKeyOk K} (m : JSMap K (list V)) (k : K)
    (l : list V) (x : V) :
  map_get m k = Some l -> In x l -> In x (flat_map snd m).
Proof.
  intros G I. apply map_get_In in G. apply in_flat_map.
  exists (k, l). now split.
Qed.

(** ** The hop labeler computes distances *)

Lemma sorted_snoc (l : list nat) (x : nat) :
  StronglySorted le l -> (forall y, In y l -> y <= x) -> StronglySorted le (l ++ [x]).
Proof.
  induction 1 as [|a l S IH F]; intro B; simpl.
  - repeat constructor.
  - constructor.
    + apply IH. intros y I. apply B. now right.
    + apply Forall_app. split; [assumption|].
      constructor; [|constructor]. apply B. now left.
Qed.

Section BfsFacts.
Context {K : Type} `{EqKeyOk K}.
Variable adj : JSMap K (JSSet K).
Variable seed : K -> Prop.

Local Abbreviation reach := (reach adj seed).
Local Abbreviation BfsInv := (BfsInv adj seed).
Local Abbreviation ExpandInv := (ExpandInv adj seed).
Local Abbreviation measure := (measure adj).

(** Inside a turn at [level], whatever is closer than [level + 1] to a seed
    has been visited. *)
Lemma expand_frontier k level rest st j n :
  ExpandInv k level rest st -> reach j n -> In n (visited st) \/ level < j.
Proof.
  intros I R. induction R as [s S | j p n R IH E].
  - left. now apply (exp_seeds _ _ _ _ _ _ I).
  - destruct IH as [V | L]; [|right; lia].
    destruct (exp_closed _ _ _ _ _ _ I p n V E) as [V' | [(l & Q) | (-> & _)]].
    + now left.
    + right.
      pose proof (exp_queue _ _ _ _ _ _ I _ _ Q) as G.
      pose proof (exp_window _ _ _ _ _ _ I _ Q) as W. simpl in W.
      destruct (exp_exact _ _ _ _ _ _ I _ _ G) as [_ M].
      specialize (M _ R). lia.
    + right.
      destruct (exp_exact _ _ _ _ _ _ I _ _ (exp_self _ _ _ _ _ _ I)) as [_ M].
      specialize (M _ R). lia.
Qed.

Lemma visitNeighbor_inv k level n rest st :
  ExpandInv k level (n :: rest) st -> ExpandInv k level rest (visitNeighbor level st n).
Proof.
  intro I. unfold visitNeighbor.
  destruct (set_has (visited st) n) eqn:V.
  - (* already visited: nothing changes *)
    apply set_has_In in V.
    destruct I as [Iv Ie Iq Is Iw Ic Isd Iself Irest].
    constructor; try assumption.
    + intros p m Vp E. destruct (Ic p m Vp E) as [? | [? | (-> & [-> | ?])]]; auto.
    + intros m Im. apply Irest. now right.
  - apply set_has_false in V.
    assert (Hn : map_get (computedHopMap st) n = None).
    { destruct (map_get (computedHopMap st) n) eqn:G; [|reflexivity].
      exfalso. apply V. apply (exp_visited _ _ _ _ _ _ I). congruence. }
    assert (Hk : n <> k).
    { intros ->. rewrite (exp_self _ _ _ _ _ _ I) in Hn. discriminate. }
    assert (En : In n (neighborsOf adj k)).
    { apply (exp_rest _ _ _ _ _ _ I). now left. }
    pose proof I as [Iv Ie Iq Is Iw Ic Isd Iself Irest].
    constructor; simpl.
    + intro m. rewrite set_add_In. destruct (key_eq_dec m n) as [-> | N].
      * rewrite map_get_set_same. split; [discriminate | now right].
      * rewrite map_get_set_other by assumption. rewrite Iv. intuition.
    + intros m l. destruct (key_eq_dec m n) as [-> | N].
      * rewrite map_get_set_same. intro E. inversion E. subst l. split.
        -- replace (level + 1) with (S level) by lia.
           apply reach_step with (p := k); [|assumption].
           now apply (Ie k level).
        -- intros j R. destruct (expand_frontier _ _ _ _ _ _ I R); [contradiction | lia].
      * rewrite map_get_set_other by assumption. apply Ie.
    + intros m l. rewrite in_app_iff. simpl. intros [Q | [E | []]].
      * rewrite map_get_set_other; [now apply Iq|].
        intros ->. rewrite (Iq _ _ Q) in Hn. discriminate.
      * inversion E. subst. apply map_get_set_same.
    + rewrite map_app. simpl. apply sorted_snoc; [assumption|].
      intros y Y. apply in_map_iff in Y. destruct Y as (e & <- & Q).
      apply (Iw e Q).
    + intros e. rewrite in_app_iff. simpl. intros [Q | [<- | []]].
      * now apply Iw.
      * simpl. lia.
    + intros p m. rewrite !set_add_In. intros [Vp | ->] E.
      * destruct (Ic p m Vp E) as [? | [(l & Q) | (-> & [-> | ?])]]; auto.
        right. left. exists l. apply in_app_iff. now left.
      * right. left. exists (level + 1). apply in_app_iff. right. now left.
    + intros s S. apply set_add_incl. now apply Isd.
    + rewrite map_get_set_other; [assumption | congruence].
    + intros m Im. apply Irest. now right.
Qed.

Lemma expand_fold_inv k level rest st :
  ExpandInv k level rest st -> ExpandInv k level [] (fold_left (visitNeighbor level) rest st).
Proof.
  revert st. induction rest as [|n rest IH]; intros st I; simpl.
  - assumption.
  - apply IH. now apply visitNeighbor_inv.
Qed.

Lemma dequeue_inv st k level rest :
  BfsInv st -> queue st = (k, level) :: rest ->
  ExpandInv k level (neighborsOf adj k) (dequeued st rest).
Proof.
  intros [Iv Ie Iq Is Iw Ic Isd] Q. rewrite Q in *. simpl in Is.
  apply StronglySorted_inv in Is. destruct Is as [Is Ih].
  constructor; simpl; try assumption.
  - intros n l I. apply Iq. now right.
  - intros e I. split.
    + rewrite Forall_forall in Ih. apply Ih. now apply in_map.
    + apply (Iw (k, level) e); [now left | now right].
  - intros p n Vp E. destruct (Ic p n Vp E) as [? | (l & [Eq | I])]; auto.
    + inversion Eq. subst. right. right. now split.
    + right. left. now exists l.
  - apply Iq. now left.
  - auto.
Qed.

Lemma expand_done k level st : ExpandInv k level [] st -> BfsInv st.
Proof.
  intros [Iv Ie Iq Is Iw Ic Isd Iself Irest].
  constructor; try assumption.
  - intros e e' I I'. pose proof (Iw e I). pose proof (Iw e' I'). lia.
  - intros p n Vp E. destruct (Ic p n Vp E) as [? | [? | (_ & [])]]; auto.
Qed.

Lemma expand_inv st k level rest :
  BfsInv st -> queue st = (k, level) :: rest ->
  BfsInv (expand adj k level (dequeued st rest)).
Proof.
  intros I Q. unfold expand. eapply expand_done, expand_fold_inv, dequeue_inv; eassumption.
Qed.

(** Between turns, whatever a seed reaches is visited or lies beyond some
    queued entry. *)
Lemma bfs_frontier st j n :
  BfsInv st -> reach j n ->
  In n (visited st) \/ exists e, In e (queue st) /\ snd e < j.
Proof.
  intros I R. induction R as [s S | j p n R IH E].
  - left. now apply (inv_seeds _ _ _ I).
  - destruct IH as [V | (e & Q & L)]; [|right; exists e; split; [assumption | lia]].
    destruct (inv_closed _ _ _ I p n V E) as [V' | (l & Q)]; [now left|].
    right. exists (p, l). split; [assumption|]. simpl.
    destruct (inv_exact _ _ _ I _ _ (inv_queue _ _ _ I _ _ Q)) as [_ M].
    specialize (M _ R). lia.
Qed.

(** When the queue is empty the hop map is the distance function. *)
Lemma bfs_final st :
  BfsInv st -> queue st = [] ->
  forall n,
    match map_get (computedHopMap st) n with
    | Some k => reach k n /\ forall j, reach j n -> k <= j
    | None => forall j, ~ reach j n
    end.
Proof.
  intros I Q n. destruct (map_get (computedHopMap st) n) as [k|] eqn:G.
  - now apply (inv_exact _ _ _ I).
  - intros j R. destruct (bfs_frontier _ _ _ I R) as [V | (e & Ie & _)].
    + apply (inv_visited _ _ _ I) in V. contradiction.
    + rewrite Q in Ie. destruct Ie.
Qed.

(** *** The loop ends within its fuel *)

Lemma unvisited_add (v : JSSet K) (n : K) (U : list K) :
  List.length (filter (fun x => negb (set_has (set_add v n) x)) U)
  <= List.length (filter (fun x => negb (set_has v x)) U).
Proof.
  induction U as [|u U IH]; simpl; [lia|].
  destruct (set_has v u) eqn:E; simpl.
  - apply set_has_In in E.
    assert (E' : set_has (set_add v n) u = true) by now apply set_has_In, set_add_incl.
    rewrite E'. simpl. assumption.
  - destruct (set_has (set_add v n) u); simpl; lia.
Qed.

Lemma unvisited_add_new (v : JSSet K) (n : K) (U : list K) :
  In n U -> ~ In n v ->
  S (List.length (filter (fun x => negb (set_has (set_add v n) x)) U))
  <= List.length (filter (fun x => negb (set_has v x)) U).
Proof.
  intros I N. induction U as [|u U IH]; simpl; [destruct I|].
  destruct (key_eq_dec u n) as [-> | D].
  - assert (E : set_has v n = false) by now apply set_has_false.
    assert (E' : set_has (set_add v n) n = true).
    { apply set_has_In, set_add_In. now right. }
    rewrite E, E'. simpl. pose proof (unvisited_add v n U). lia.
  - destruct I as [-> | I]; [contradiction|]. specialize (IH I).
    destruct (set_has v u) eqn:E; simpl.
    + apply set_has_In in E.
      assert (E' : set_has (set_add v n) u = true) by now apply set_has_In, set_add_incl.
      rewrite E'. simpl. assumption.
    + destruct (set_has (set_add v n) u); simpl; lia.
Qed.

Lemma visitNeighbor_measure level st n :
  In n (flat_map snd adj) -> measure (visitNeighbor level st n) <= measure st.
Proof.
  intro I. unfold visitNeighbor, measure, unvisited.
  destruct (set_has (visited st) n) eqn:V; [lia|]. simpl.
  apply set_has_false in V. rewrite length_app. simpl.
  pose proof (unvisited_add_new (visited st) n _ I V). lia.
Qed.

Lemma expand_measure level st rest :
  (forall n, In n rest -> In n (flat_map snd adj)) ->
  measure (fold_left (visitNeighbor level) rest st) <= measure st.
Proof.
  revert st. induction rest as [|n rest IH]; intros st U; simpl; [lia|].
  etransitivity.
  - apply IH. intros m I. apply U. now right.
  - apply visitNeighbor_measure. apply U. now left.
Qed.

Lemma neighborsOf_flat k n : In n (neighborsOf adj k) -> In n (flat_map snd adj).
Proof.
  unfold neighborsOf. destruct (map_get adj k) as [l|] eqn:G; [|intros []].
  now apply map_get_flat with (k := k).
Qed.

Lemma bfsLoop_total fuel st :
  BfsInv st -> measure st <= fuel ->
  exists st', bfsLoop fuel adj st = Ok st' /\ BfsInv st' /\ queue st' = [].
Proof.
  revert st. induction fuel as [|fuel IH]; intros st I M.
  - destruct (queue st) as [|e q] eqn:Q.
    + exists st. simpl. rewrite Q. auto.
    + unfold measure in M. rewrite Q in M. simpl in M. lia.
  - simpl. destruct (queue st) as [|[k level] q] eqn:Q.
    + exists st. auto.
    + apply IH.
      * now apply expand_inv.
      * unfold expand. etransitivity.
        -- apply expand_measure. intros n. apply neighborsOf_flat.
        -- unfold measure, unvisited in *. rewrite Q in M. simpl in *. lia.
Qed.
End BfsFacts.

(** *** Seeding *)

Lemma zeros_sorted (l : list nat) : (forall y, In y l -> y = 0) -> StronglySorted le l.
Proof.
  induction l as [|a l IH]; intro Z; constructor.
  - apply IH. intros y I. apply Z. now right.
  - apply Forall_forall. intros y I. rewrite (Z a) by now left. lia.
Qed.

Lemma SeedInv_ext (P Q : Addr -> Prop) st :
  (forall n, P n <-> Q n) -> SeedInv P st -> SeedInv Q st.
Proof.
  intros E [Sv Sz Sk Sq Sp]. constructor; try assumption.
  intro n. rewrite Sv. apply E.
Qed.

Lemma SeedInv_empty : SeedInv (fun _ => False) emptyBfs.
Proof. constructor; simpl; tauto. Qed.

Lemma seedNode_inv (P : Addr -> Prop) st a :
  SeedInv P st -> SeedInv (fun n => P n \/ n = a) (seedNode st a).
Proof.
  intros [Sv Sz Sk Sq Sp]. constructor; simpl.
  - intro n. rewrite set_add_In, Sv. tauto.
  - intros n I. destruct (key_eq_dec n a) as [-> | N].
    + apply map_get_set_same.
    + rewrite map_get_set_other by assumption.
      apply set_add_In in I. destruct I; [auto | contradiction].
  - intros n G. apply set_add_In. destruct (key_eq_dec n a) as [-> | N]; [now right|].
    rewrite map_get_set_other in G by assumption. auto.
  - intros n l I. apply in_app_iff in I. destruct I as [I | [E | []]].
    + destruct (Sq _ _ I). split; [assumption | now apply set_add_incl].
    + inversion E. subst. split; [reflexivity | apply set_add_In; now right].
  - intros n I. apply set_add_In in I. destruct I as [I | ->].
    + destruct (Sp _ I) as (l & Q). exists l. apply in_app_iff. now left.
    + exists 0. apply in_app_iff. right. now left.
Qed.

Lemma seedBase_ok (vn : JSSet Addr) (base : string) :
  forall (P : Addr -> Prop) st,
    (forall a, In a vn -> a <> None) -> SeedInv P st ->
    exists st', seedBase vn st base = Ok st' /\
                SeedInv (fun n => P n \/ (In n vn /\ matchesBase [base] n = true)) st'.
Proof.
  unfold seedBase. induction vn as [|a vn IH]; intros P st W I; simpl.
  - exists st. split; [reflexivity|]. revert I. apply SeedInv_ext. tauto.
  - destruct a as [s|]; [|exfalso; apply (W None); [now left | reflexivity]].
    simpl. destruct (toLowerCase s =? toLowerCase base) eqn:E.
    + destruct (IH (fun n => P n \/ n = Some s) (seedNode st (Some s))) as (st' & R & I').
      * intros a Ia. apply W. now right.
      * now apply seedNode_inv.
      * exists st'. split; [assumption|]. revert I'. apply SeedInv_ext.
        intro n. split.
        -- intros [[Pn | ->] | (In' & M)]; auto.
           right. split; [now left | simpl; now rewrite E].
        -- intros [Pn | ([<- | In'] & M)]; auto.
    + destruct (IH P st) as (st' & R & I').
      * intros a Ia. apply W. now right.
      * assumption.
      * exists st'. split; [assumption|]. revert I'. apply SeedInv_ext.
        intro n. split.
        -- intros [Pn | (In' & M)]; auto.
        -- intros [Pn | ([<- | In'] & M)]; auto.
           simpl in M. rewrite E in M. discriminate.
Qed.

Lemma matchesBase_cons base bases n :
  matchesBase (base :: bases) n = matchesBase [base] n || matchesBase bases n.
Proof. destruct n as [s|]; simpl; [|reflexivity]. now rewrite orb_false_r. Qed.

Lemma seedFold_ok (vn : JSSet Addr) (bases : JSSet string) :
  forall (P : Addr -> Prop) st,
    (forall a, In a vn -> a <> None) -> SeedInv P st ->
    exists st', foldM (seedBase vn) bases st = Ok st' /\
                SeedInv (fun n => P n \/ (In n vn /\ matchesBase bases n = true)) st'.
Proof.
  induction bases as [|base bases IH]; intros P st W I; simpl.
  - exists st. split; [reflexivity|]. revert I. apply SeedInv_ext.
    intro n. destruct n; simpl; intuition discriminate.
  - destruct (seedBase_ok vn base P st W I) as (st1 & R1 & I1). rewrite R1. simpl.
    destruct (IH _ st1 W I1) as (st' & R & I'). exists st'. split; [assumption|].
    revert I'. apply SeedInv_ext. intro n.
    rewrite (matchesBase_cons base bases), orb_true_iff. tauto.
Qed.

Lemma seedAll_ok (vn : JSSet Addr) (bases : JSSet string) :
  (forall a, In a vn -> a <> None) ->
  exists st', seedAll vn bases = Ok st' /\
              SeedInv (fun n => In n vn /\ matchesBase bases n = true) st'.
Proof.
  intro W. destruct (seedFold_ok vn bases _ emptyBfs W SeedInv_empty) as (st' & R & I).
  exists st'. split; [assumption|]. revert I. apply SeedInv_ext. tauto.
Qed.

Lemma SeedInv_BfsInv (adj : JSMap Addr (JSSet Addr)) (P : Addr -> Prop) st :
  SeedInv P st -> BfsInv adj P st.
Proof.
  intros [Sv Sz Sk Sq Sp]. constructor.
  - intro n. split.
    + intro I. rewrite (Sz _ I). discriminate.
    + apply Sk.
  - intros n k G. assert (V : In n (visited st)) by (apply Sk; congruence).
    rewrite (Sz _ V) in G. inversion G. subst. split; [|lia].
    apply reach_seed. now apply Sv.
  - intros n l I. destruct (Sq _ _ I) as [-> V]. now apply Sz.
  - apply zeros_sorted. intros y I. apply in_map_iff in I.
    destruct I as ([n l] & <- & I). simpl. now destruct (Sq _ _ I).
  - intros [n l] [n' l'] I I'. simpl.
    destruct (Sq _ _ I) as [-> _]. destruct (Sq _ _ I') as [-> _]. lia.
  - intros p n V _. right. now apply Sp.
  - intros s S. now apply Sv.
Qed.

(** ** What the graph builder produces *)

Lemma buildMaps_snoc (fd : list Transaction) (tx : Transaction) :
  buildMaps (fd ++ [tx]) = processTx (buildMaps fd) tx.
Proof. unfold buildMaps. now rewrite fold_left_app. Qed.

Lemma map_has_get {V : Type} (m : JSMap Addr V) (k : Addr) :
  map_has m k = false -> map_get m k = None.
Proof. unfold map_has. destruct (map_get m k); [discriminate | reflexivity]. Qed.

Lemma neighborsOf_ensure (a : JSMap Addr (JSSet Addr)) (x u v : Addr) :
  In v (neighborsOf (ensure_adj a x) u) <-> In v (neighborsOf a u).
Proof.
  unfold ensure_adj. destruct (map_has a x) eqn:E; [tauto|].
  apply map_has_get in E. unfold neighborsOf.
  destruct (key_eq_dec u x) as [-> | N].
  - rewrite map_get_set_same, E. tauto.
  - rewrite map_get_set_other by assumption. tauto.
Qed.

Lemma ensure_has (a : JSMap Addr (JSSet Addr)) (x : Addr) :
  map_has (ensure_adj a x) x = true.
Proof.
  unfold ensure_adj. destruct (map_has a x) eqn:E; [assumption|].
  unfold map_has. now rewrite map_get_set_same.
Qed.

Lemma ensure_has_other (a : JSMap Addr (JSSet Addr)) (x y : Addr) :
  map_has a y = true -> map_has (ensure_adj a x) y = true.
Proof.
  unfold ensure_adj. destruct (map_has a x); [tauto|].
  rewrite !map_has_keys, map_set_keys. tauto.
Qed.

Lemma adj_add_has (a : JSMap Addr (JSSet Addr)) (x y z : Addr) :
  map_has a z = true -> map_has (adj_add a x y) z = true.
Proof.
  unfold adj_add. destruct (map_get a x); [|tauto].
  rewrite !map_has_keys, map_set_keys. tauto.
Qed.

Lemma adj_add_neighbors (a : JSMap Addr (JSSet Addr)) (x y u v : Addr) :
  map_has a x = true ->
  In v (neighborsOf (adj_add a x y) u) <-> In v (neighborsOf a u) \/ (u = x /\ v = y).
Proof.
  unfold adj_add, map_has, neighborsOf. destruct (map_get a x) as [s|] eqn:G; [|discriminate].
  intros _. destruct (key_eq_dec u x) as [-> | N].
  - rewrite map_get_set_same, G, set_add_In. intuition.
  - rewrite map_get_set_other by assumption. intuition.
Qed.

Lemma processTx_neighbors (m : Maps) (tx : Transaction) (u v : Addr) :
  In v (neighborsOf (adj (processTx m tx)) u) <->
  In v (neighborsOf (adj m) u) \/
  (u = tx_from tx /\ v = tx_to tx) \/ (u = tx_to tx /\ v = tx_from tx).
Proof.
  unfold processTx. simpl.
  rewrite adj_add_neighbors
    by (apply adj_add_has, ensure_has).
  rewrite adj_add_neighbors
    by (apply ensure_has_other, ensure_has).
  rewrite !neighborsOf_ensure. tauto.
Qed.

Lemma joins_spec (u v : Addr) (tx : Transaction) :
  joins u v tx = true <->
  (u = tx_from tx /\ v = tx_to tx) \/ (u = tx_to tx /\ v = tx_from tx).
Proof.
  unfold joins. rewrite orb_true_iff, !andb_true_iff, !keqb_eq.
  intuition congruence.
Qed.

(** The adjacency structure holds exactly the undirected edges. *)
Lemma adj_spec (fd : list Transaction) (u v : Addr) :
  In v (neighborsOf (adj (buildMaps fd)) u) <-> uedge fd u v = true.
Proof.
  induction fd as [|tx fd IH] using rev_ind.
  - simpl. split; [intros [] | discriminate].
  - rewrite buildMaps_snoc, processTx_neighbors, IH.
    unfold uedge. rewrite existsb_app. simpl.
    rewrite orb_false_r, orb_true_iff, joins_spec. tauto.
Qed.

Lemma uedge_sym (fd : list Transaction) (u v : Addr) :
  uedge fd u v = true -> uedge fd v u = true.
Proof.
  unfold uedge. rewrite !existsb_exists. intros (tx & I & J).
  exists tx. split; [assumption|]. apply joins_spec. apply joins_spec in J. tauto.
Qed.

(** The node universe holds exactly the endpoints of the transfers. *)
Lemma validNodes_spec (fd : list Transaction) (a : Addr) :
  In a (validNodes (buildMaps fd)) <-> isNode fd a = true.
Proof.
  unfold validNodes. induction fd as [|tx fd IH] using rev_ind.
  - simpl. split; [intros [] | discriminate].
  - rewrite buildMaps_snoc. unfold processTx, add_balance. simpl.
    rewrite !map_set_keys, IH. unfold isNode. rewrite existsb_app. simpl.
    rewrite orb_false_r, !orb_true_iff, !ostr_eqb_eq. intuition congruence.
Qed.

Lemma isNode_wellFormed (fd : list Transaction) (a : Addr) :
  forallb wellFormed fd = true -> isNode fd a = true -> a <> None.
Proof.
  unfold isNode. rewrite forallb_forall, existsb_exists.
  intros W (tx & I & E) ->. specialize (W tx I). unfold wellFormed in W.
  apply orb_true_iff in E. rewrite !keqb_eq in E.
  destruct (tx_from tx), (tx_to tx); destruct E; discriminate.
Qed.

(** Steps from a seed and undirected paths to a base node are the same. *)
Lemma reach_upath (fd : list Transaction) (seed : Addr -> Prop) (k : nat) (n : Addr) :
  reach (adj (buildMaps fd)) seed k n <-> exists b, seed b /\ upath fd k n b.
Proof.
  split.
  - induction 1 as [s S | j p n R (b & S & P) E].
    + exists s. split; [assumption | constructor].
    + exists b. split; [assumption|].
      apply upath_edge with (v := p); [|assumption].
      apply uedge_sym. now apply adj_spec.
  - intros (b & S & P). induction P as [u | k u v w E P IH].
    + now constructor.
    + apply reach_step with (p := v); [now apply IH|].
      apply adj_spec. now apply uedge_sym.
Qed.

(** ** C1: the hop labels are shortest distances *)

Lemma baseNode_seed (fd : list Transaction) (bases : JSSet string) (b : Addr) :
  In b (validNodes (buildMaps fd)) /\ matchesBase bases b = true <->
  baseNode fd bases b = true.
Proof. unfold baseNode. rewrite andb_true_iff, validNodes_spec. tauto. Qed.

Lemma seeded_measure (adj : JSMap Addr (JSSet Addr)) (st : BfsState Addr) :
  measure adj st <= bfsFuel adj st.
Proof.
  unfold measure, unvisited, bfsFuel. apply Nat.add_le_mono_l, filter_length_le.
Qed.

(** The hop map is total and exact, in steps from the seeded nodes. *)
Lemma computeHops_exact (fd : list Transaction) (bases : JSSet string) :
  forallb wellFormed fd = true ->
  exists hopMap,
    computeHops (buildMaps fd) bases = Ok hopMap /\
    forall n : Addr,
      match map_get hopMap n with
      | Some k =>
          reach (adj (buildMaps fd)) (fun b => baseNode fd bases b = true) k n /\
          forall j, reach (adj (buildMaps fd)) (fun b => baseNode fd bases b = true) j n ->
                    k <= j
      | None =>
          forall j, ~ reach (adj (buildMaps fd)) (fun b => baseNode fd bases b = true) j n
      end.
Proof.
  intro W. unfold computeHops.
  set (m := buildMaps fd).
  set (P := fun b : Addr => baseNode fd bases b = true).
  destruct (seedAll_ok (validNodes m) bases) as (st0 & R0 & S0).
  { intros a I. apply (isNode_wellFormed fd a W). now apply validNodes_spec. }
  apply SeedInv_ext with (Q := P) in S0; [|intro n; apply baseNode_seed].
  rewrite R0. simpl.
  destruct (bfsLoop_total (adj m) P (bfsFuel (adj m) st0) st0) as (st & R & I & Q).
  { now apply SeedInv_BfsInv. }
  { apply seeded_measure. }
  rewrite R. simpl. exists (computedHopMap st). split; [reflexivity|].
  intro n. exact (bfs_final (adj m) P st I Q n).
Qed.

(** C1. For every filtered transfer set (whose records carry both endpoints)
    and every base-address set, the hop labeler returns a hop map in which a
    node labelled [k] has a path of exactly [k] undirected edges of the
    filtered graph to some base node and no shorter path to any base node,
    and a node left without a label has no path to a base node at all. *)
Theorem hop_labeler_shortest_distance
    (fd : list Transaction) (baseAddresses : JSSet string) :
  forallb wellFormed fd = true ->
  exists hopMap,
    computeHops (buildMaps fd) baseAddresses = Ok hopMap /\
    forall n : Addr,
      match map_get hopMap n with
      | Some k =>
          (exists b, baseNode fd baseAddresses b = true /\ upath fd k n b) /\
          (forall j b, baseNode fd baseAddresses b = true -> upath fd j n b -> k <= j)
      | None =>
          forall j b, baseNode fd baseAddresses b = true -> ~ upath fd j n b
      end.
Proof.
  intro W. destruct (computeHops_exact fd baseAddresses W) as (hopMap & R & F).
  exists hopMap. split; [assumption|]. intro n. specialize (F n).
  destruct (map_get hopMap n) as [k|].
  - destruct F as [R1 M]. split.
    + now apply reach_upath in R1.
    + intros j b B U. apply M. apply reach_upath. now exists b.
  - intros j b B U. apply (F j). apply reach_upath. now exists b.
Qed.

Lemma hop_labeler_shortest_distance_witness :
  forallb wellFormed triangle = true /\
  exists hopMap,
    computeHops (buildMaps triangle) ["a"] = Ok hopMap /\
    forall n : Addr,
      match map_get hopMap n with
      | Some k =>
          (exists b, baseNode triangle ["a"] b = true /\ upath triangle k n b) /\
          (forall j b, baseNode triangle ["a"] b = true -> upath triangle j n b -> k <= j)
      | None =>
          forall j b, baseNode triangle ["a"] b = true -> ~ upath triangle j n b
      end.
Proof.
  split; [reflexivity | apply (hop_labeler_shortest_distance triangle ["a"]); reflexivity].
Defined.

(** The example of the specification: with base a, the hops are 0, 1 and 1. *)
Example triangle_hops :
  computeHops (buildMaps triangle) ["a"]
  = Ok [(Some "a", 0); (Some "b", 1); (Some "c", 1)].
Proof. reflexivity. Qed.

(** ** C2: addresses are keyed by their exact spelling *)




Lemma add_balance_get (m : JSMap Addr float) (a x : Addr) (v : float) :
  map_get (add_balance m x v) a = credit a x v (map_get m a).
Proof.
  unfold add_balance, credit. destruct (keqb x a) eqn:E.
  - apply keqb_eq in E. subst. apply map_get_set_same.
  - apply keqb_false in E. apply map_get_set_other. congruence.
Qed.

Lemma balance_spec (fd : list Transaction) (a : Addr) :
  map_get (balanceMap (buildMaps fd)) a = balanceOf fd a.
Proof.
  unfold balanceOf. induction fd as [|tx fd IH] using rev_ind.
  - reflexivity.
  - rewrite buildMaps_snoc, fold_left_app. simpl.
    now rewrite !add_balance_get, IH.
Qed.





(** ** C3: an empty token selection *)

Lemma insert_sorted_In (s x : string) (l : list string) :
  In x (insert_sorted s l) <-> x = s \/ In x l.
Proof.
  induction l as [|y l IH]; simpl.
  - intuition.
  - destruct (String.leb s y); simpl; [intuition|]. rewrite IH. intuition.
Qed.

Lemma sort_strings_In (x : string) (l : list string) :
  In x (sort_strings l) <-> In x l.
Proof.
  unfold sort_strings. induction l as [|y l IH]; simpl; [tauto|].
  rewrite insert_sorted_In, IH. intuition.
Qed.

Lemma collected_tokens (l : list Transaction) (acc : JSSet string) (x : string) :
  In x (fold_left
          (fun tokens t =>
             if truthy_str (tx_token t) then set_add tokens (token_of t) else tokens)
          l acc)
  <-> In x acc \/ exists t, In t l /\ truthy_str (tx_token t) = true /\ token_of t = x.
Proof.
  revert acc. induction l as [|t l IH]; intro acc; simpl.
  - split; [now left | intros [I | (t & [] & _)]; assumption].
  - rewrite IH. destruct (truthy_str (tx_token t)) eqn:T.
    + rewrite set_add_In. split.
      * intros [[I | ->] | (t' & I & T' & E)]; [now left | | ].
        -- right. exists t. auto.
        -- right. exists t'. auto.
      * intros [I | (t' & [<- | I] & T' & E)]; [tauto | | ].
        -- left. right. now symmetry.
        -- right. exists t'. auto.
    + split.
      * intros [I | (t' & I & T' & E)]; [now left|]. right. exists t'. auto.
      * intros [I | (t' & [<- | I] & T' & E)]; [now left | congruence |].
        right. exists t'. auto.
Qed.

Lemma truthy_token_nonempty (t : Transaction) :
  truthy_str (tx_token t) = true -> (token_of t =? "") = false.
Proof.
  unfold truthy_str, token_of. destruct (tx_token t); [|discriminate].
  now rewrite negb_true_iff.
Qed.

(** Every token carried by a transfer of the active type is available. *)
Lemma availableTokens_complete (data : list Transaction) (ty : TxType) (t : Transaction) :
  In t data -> TxType_eqb (tx_type t) ty = true -> truthy_str (tx_token t) = true ->
  In (token_of t) (availableTokens data ty).
Proof.
  intros I E T. unfold availableTokens.
  apply sort_strings_In, filter_In. split.
  - apply collected_tokens. right. exists t. split; [|auto].
    apply filter_In. now split.
  - now rewrite truthy_token_nonempty.
Qed.

Lemma preTokenData_active (inp : Inputs) (t : Transaction) :
  In t (preTokenData inp) ->
  In t (data inp) /\ TxType_eqb (tx_type t) (activeType inp) = true.
Proof.
  unfold preTokenData.
  destruct (PrimFloat.ltb 0 (dustThreshold inp));
    destruct (dateRange_end inp); destruct (dateRange_start inp);
    repeat rewrite filter_In; tauto.
Qed.

(** C3, as amended.  When tokens are available and none is selected, the
    token filter falls back on the whole available set: it keeps every
    transfer that carries a token and removes only those that carry none. *)
Theorem empty_selection_keeps_token_transfers (inp : Inputs) :
  availableTokens (data inp) (activeType inp) <> [] ->
  selectedTokens inp = [] ->
  filteredData inp = filter (fun t => truthy_str (tx_token t)) (preTokenData inp).
Proof.
  intros A S. unfold filteredData, tokenFilter. rewrite S. simpl.
  destruct (availableTokens (data inp) (activeType inp)) as [|tok toks] eqn:E;
    [contradiction|].
  simpl. apply filter_ext_in. intros t I.
  destruct (truthy_str (tx_token t)) eqn:T; [|reflexivity]. simpl.
  apply set_has_In, set_from_In. rewrite <- E.
  destruct (preTokenData_active inp t I) as [D Ty].
  now apply availableTokens_complete.
Qed.

Lemma empty_selection_keeps_token_transfers_witness :
  availableTokens (data nothingSelected) (activeType nothingSelected) <> [] /\
  selectedTokens nothingSelected = [] /\
  filteredData nothingSelected
  = filter (fun t => truthy_str (tx_token t)) (preTokenData nothingSelected).
Proof.
  split; [discriminate|]. split; [reflexivity|].
  apply (empty_selection_keeps_token_transfers nothingSelected);
    [discriminate | reflexivity].
Defined.

(** C3, as stated, fails: with "USDT" available and nothing selected, the
    token filter keeps the transfer instead of excluding it. *)
Lemma empty_selection_excludes_nothing :
  availableTokens (data nothingSelected) (activeType nothingSelected) = ["USDT"] /\
  selectedTokens nothingSelected = [] /\
  tokenFilter ["USDT"] [] (preTokenData nothingSelected) = [tokenTransfer "a" "b" "USDT"] /\
  filteredData nothingSelected = [tokenTransfer "a" "b" "USDT"].
Proof. repeat split. Qed.

(** ** C4: what two runs on the same inputs share *)

Lemma resultRel_bind {A B : Type} (RA : A -> A -> Prop) (RB : B -> B -> Prop)
    (r1 r2 : result A) (k1 k2 : A -> result B) :
  resultRel RA r1 r2 ->
  (forall a1 a2, RA a1 a2 -> resultRel RB (k1 a1) (k2 a2)) ->
  resultRel RB (bind r1 k1) (bind r2 k2).
Proof.
  intros R K. destruct r1, r2; simpl in *; try contradiction; auto.
Qed.

Lemma resultRel_refl {A : Type} (r : result A) : resultRel eq r r.
Proof. destruct r; simpl; auto. Qed.

Lemma foldM_rel {A S : Type} (R : S -> S -> Prop) (f1 f2 : S -> A -> result S)
    (l : list A) :
  (forall s1 s2 a, R s1 s2 -> resultRel R (f1 s1 a) (f2 s2 a)) ->
  forall s1 s2, R s1 s2 -> resultRel R (foldM f1 l s1) (foldM f2 l s2).
Proof.
  intro F. induction l as [|a l IH]; intros s1 s2 Rs; simpl.
  - assumption.
  - apply resultRel_bind with (RA := R); [now apply F | assumption].
Qed.

Lemma buildNode_rel (r1 r2 : nat -> float) fuel theme labels m counts hops s1 s2 a :
  sameButScores s1 s2 ->
  resultRel sameButScores
    (buildNode r1 fuel theme labels m counts hops s1 a)
    (buildNode r2 fuel theme labels m counts hops s2 a).
Proof.
  intros (Ep & Ec & En & Em). unfold buildNode. rewrite Ep, Ec, En.
  destruct (find fuel (ns_parent s2) a) as [[parent root]| |]; simpl; auto.
  destruct (if (GROUP_THRESHOLD <? _)%nat then _ else _) as [[[colors counter] color] gid].
  destruct (getNodeType a labels); simpl; auto.
  repeat split; try reflexivity.
  cbn [computedNodes]. rewrite !map_app. simpl. now rewrite Em.
Qed.

Lemma filter_forgetScore (m : Maps) (hops : JSMap Addr nat) (l : list AddressNode) :
  map forgetScore (filter (isRelated m hops) l)
  = filter (isRelated m hops) (map forgetScore l).
Proof.
  induction l as [|n l IH]; simpl; [reflexivity|].
  change (isRelated m hops (forgetScore n)) with (isRelated m hops n).
  destruct (isRelated m hops n); simpl; now rewrite IH.
Qed.

Lemma map_forgetScore_id (l : list AddressNode) :
  map id (map forgetScore l) = map id l.
Proof. rewrite map_map. reflexivity. Qed.

Lemma map_forgetScore_balance (l : list AddressNode) :
  map balance (map forgetScore l) = map balance l.
Proof. rewrite map_map. reflexivity. Qed.

(** C4, as amended.  Two runs of the graph construction on the same
    transfers, filters, base addresses, labels and theme end the same way
    and agree on the nodes, on every attribute of a node other than
    [activityScore] (a fresh [Math.random()] draw of each run), on the links
    and on the balance domain. *)
Theorem runs_agree_up_to_activity_score (random1 random2 : nat -> float) (inp : Inputs) :
  mapResult forgetScores (topology random1 inp)
  = mapResult forgetScores (topology random2 inp).
Proof.
  unfold topology.
  destruct (computeHops _ _) as [hops| |]; simpl; try reflexivity.
  destruct (foldM (uniteLink _) _ _) as [[nodeSet parent]| |]; simpl; try reflexivity.
  destruct (fold_left addIsolated _ _) as [nodeSet' parent'].
  destruct (foldM (countRoot _) _ _) as [[parent'' counts]| |]; simpl; try reflexivity.
  match goal with
  | |- mapResult _ (bind (foldM ?f1 ?l ?s) _) = mapResult _ (bind (foldM ?f2 ?l ?s) _) =>
      assert (R : resultRel sameButScores (foldM f1 l s) (foldM f2 l s));
      [ apply foldM_rel;
        [ intros s1 s2 a Rs; now apply buildNode_rel
        | repeat split ]
      | destruct (foldM f1 l s) as [s1| |], (foldM f2 l s) as [s2| |];
        simpl in R; try contradiction; try reflexivity ]
  end.
  destruct R as (_ & _ & _ & En). simpl. unfold forgetScores. simpl.
  assert (Ef : map forgetScore
                 (if showRelatedOnly inp
                  then filter (isRelated (buildMaps (filteredData inp)) hops) (computedNodes s1)
                  else computedNodes s1)
               = map forgetScore
                 (if showRelatedOnly inp
                  then filter (isRelated (buildMaps (filteredData inp)) hops) (computedNodes s2)
                  else computedNodes s2)).
  { destruct (showRelatedOnly inp); [|assumption].
    now rewrite !filter_forgetScore, En. }
  rewrite Ef.
  rewrite <- (map_forgetScore_id (if showRelatedOnly inp then _ else computedNodes s1)).
  rewrite <- (map_forgetScore_balance (if showRelatedOnly inp then _ else computedNodes s1)).
  rewrite Ef.
  rewrite map_forgetScore_id, map_forgetScore_balance. reflexivity.
Qed.

(** C4, as stated, fails: two runs on the triangle whose draws differ give
    nodes that differ in [activityScore]. *)
Lemma runs_differ_in_activity_score :
  scoresOf (topology (fun _ => 0.25%float) triangleInputs)
  = [0.25%float; 0.25%float; 0.25%float] /\
  scoresOf (topology (fun _ => 0.75%float) triangleInputs)
  = [0.75%float; 0.75%float; 0.75%float] /\
  topology (fun _ => 0.25%float) triangleInputs
  <> topology (fun _ => 0.75%float) triangleInputs.
Proof.
  split; [reflexivity|]. split; [reflexivity|].
  intro E. apply (f_equal scoresOf) in E. vm_compute in E.
  apply (f_equal (fun l => match l with
                           | x :: _ => PrimFloat.eqb x 0.25%float
                           | [] => false
                           end)) in E.
  vm_compute in E. discriminate E.
Qed.

(** ** C10: what a crawl does to the traced set *)

Lemma addLowered_In (l : list string) (s : JSSet string) (x : string) :
  In x (addLowered s l) <-> In x s \/ In x (map toLowerCase l).
Proof.
  unfold addLowered. revert s. induction l as [|a l IH]; intro s; simpl.
  - tauto.
  - rewrite IH, set_add_In. split; intuition congruence.
Qed.

Lemma allLowered_addLowered (l : list string) (s : JSSet string) :
  allLowered s -> allLowered (addLowered s l).
Proof.
  intros A x I. apply addLowered_In in I. destruct I as [I | I].
  - now apply A.
  - apply in_map_iff in I. destruct I as (y & <- & _). now exists y.
Qed.

Lemma traceLayers_visited_lowered fetch settle cfg n st :
  allLowered (sessionVisited st) ->
  allLowered (sessionVisited (traceLayers fetch settle cfg n st)).
Proof.
  revert st. induction n as [|n IH]; intros st A; simpl; [assumption|].
  destruct (currentFrontier st); [assumption|].
  apply IH. cbn [sessionVisited]. now apply allLowered_addLowered.
Qed.

Lemma initialVisited_lowered (inp : CrawlInput) : allLowered (initialVisited inp).
Proof.
  unfold initialVisited. apply allLowered_addLowered.
  intros a I. apply set_from_In, in_map_iff in I.
  destruct I as (y & <- & _). now exists y.
Qed.

(** C10.  Whatever the provider answers, an invocation of the crawl only
    adds to [tracedAddresses], and only lower-cased addresses; an invocation
    that ends in the catch block, or that is refused for want of a target,
    leaves the set as it was: only the two completion paths commit. *)
Theorem crawl_only_grows_traced
    (fetchAddressHistory : Provider) (settle : Schedule) (inp : CrawlInput) :
  (forall a, In a (tracedAddresses inp) ->
             In a (tracedAfter (handleTraceExecution fetchAddressHistory settle inp))) /\
  (forall a, In a (tracedAfter (handleTraceExecution fetchAddressHistory settle inp)) ->
             In a (tracedAddresses inp) \/ exists x, a = toLowerCase x) /\
  (outcome (handleTraceExecution fetchAddressHistory settle inp) = TraceFailed ->
   tracedAfter (handleTraceExecution fetchAddressHistory settle inp) = tracedAddresses inp) /\
  (tracedAfter (handleTraceExecution fetchAddressHistory settle inp) <> tracedAddresses inp ->
   outcome (handleTraceExecution fetchAddressHistory settle inp) = NoNewData \/
   exists txs, outcome (handleTraceExecution fetchAddressHistory settle inp) = Ingested txs).
Proof.
  unfold handleTraceExecution.
  destruct (traceTargets inp) as [|t ts] eqn:T; cbn [outcome tracedAfter].
  { repeat split; auto; try congruence. }
  destruct (knownAddresses (crawl_data inp)) as [known| |]; cbn [outcome tracedAfter];
    try (repeat split; auto; congruence).
  match goal with
  | |- context [allNewTransactions ?s] => set (st := s)
  end.
  assert (L : allLowered (sessionVisited st)).
  { apply traceLayers_visited_lowered. cbn [sessionVisited].
    rewrite <- T. apply (initialVisited_lowered inp). }
  destruct (allNewTransactions st) as [|tx txs] eqn:N; cbn [outcome tracedAfter].
  - split; [|split; [|split]].
    + intros a I. apply addLowered_In. now left.
    + intros a I. apply addLowered_In in I. destruct I as [I | I]; [now left|].
      right. apply in_map_iff in I. destruct I as (y & <- & _). now exists y.
    + discriminate.
    + intros _. now left.
  - split; [|split; [|split]].
    + intros a I. apply fold_set_add_In. now left.
    + intros a I. apply fold_set_add_In in I. destruct I as [I | I]; [now left|].
      right. now apply L.
    + discriminate.
    + intros _. right. now exists (tx :: txs).
Qed.

(** ** C5: a provider that cannot be reached *)

Lemma traceAddress_silent fetch cfg sv st a :
  silent fetch -> traceAddress fetch cfg sv st a = st.
Proof.
  intro S. unfold traceAddress.
  destruct (S a (network cfg) (rangeOf cfg)) as [E | E]; now rewrite E.
Qed.

Lemma traceLayer_silent fetch settle cfg sv frontier :
  silent fetch -> traceLayer fetch settle cfg sv frontier = emptyLayer.
Proof.
  intro S. unfold traceLayer. fold emptyLayer.
  generalize emptyLayer as st. induction (batches frontier) as [|b bs IH]; intro st; simpl.
  - reflexivity.
  - rewrite <- (IH st) at 2. f_equal.
    induction (settle b) as [|a b' IHb]; simpl; [reflexivity|].
    now rewrite traceAddress_silent.
Qed.

Lemma traceLayers_silent fetch1 fetch2 settle cfg n st :
  silent fetch1 -> silent fetch2 ->
  traceLayers fetch1 settle cfg n st = traceLayers fetch2 settle cfg n st.
Proof.
  intros S1 S2. revert st. induction n as [|n IH]; intro st; simpl; [reflexivity|].
  destruct (currentFrontier st); [reflexivity|].
  now rewrite !traceLayer_silent, IH.
Qed.

Lemma traceLayers_silent_collects fetch settle cfg n st :
  silent fetch ->
  allNewTransactions (traceLayers fetch settle cfg n st) = allNewTransactions st.
Proof.
  intro S. revert st. induction n as [|n IH]; intro st; simpl; [reflexivity|].
  destruct (currentFrontier st); [reflexivity|].
  rewrite IH, traceLayer_silent by assumption. simpl. apply app_nil_r.
Qed.

Lemma knownFold_ok (data : list Transaction) (known : JSSet string) :
  forallb wellFormed data = true ->
  exists k, foldM (fun known t =>
                     f <- lowerOrThrow (tx_from t) ;;
                     let known := set_add known f in
                     t' <- lowerOrThrow (tx_to t) ;;
                     Ok (set_add known t'))
                  data known = Ok k.
Proof.
  revert known. induction data as [|t data IH]; intros known W; simpl.
  - now exists known.
  - simpl in W. apply andb_true_iff in W. destruct W as [Wt W].
    unfold wellFormed in Wt.
    destruct (tx_from t) as [f|]; [|discriminate].
    destruct (tx_to t) as [t'|]; [|discriminate]. simpl. now apply IH.
Qed.

Lemma knownAddresses_ok (data : list Transaction) :
  forallb wellFormed data = true -> exists k, knownAddresses data = Ok k.
Proof. apply knownFold_ok. Qed.

(** C5, as amended.  When every fetch of a crawl fails, each failure is
    absorbed where it arises: the crawl collects nothing, commits its targets
    to [tracedAddresses] and ends with the ordinary "no new data" completion,
    in every respect as it does when the provider is reachable and answers
    every request with an empty history. *)
Theorem total_outage_ends_as_no_new_data
    (fetchAddressHistory : Provider) (settle : Schedule) (inp : CrawlInput) :
  (forall a n r, fetchAddressHistory a n r = None) ->
  traceTargets inp <> [] ->
  forallb wellFormed (crawl_data inp) = true ->
  outcome (handleTraceExecution fetchAddressHistory settle inp) = NoNewData /\
  tracedAfter (handleTraceExecution fetchAddressHistory settle inp)
  = addLowered (tracedAddresses inp) (traceTargets inp) /\
  handleTraceExecution fetchAddressHistory settle inp = handleTraceExecution providerIdle settle inp.
Proof.
  intros Down T W.
  assert (S : silent fetchAddressHistory) by (intros a n r; left; apply Down).
  assert (S' : silent providerIdle) by (intros a n r; now right).
  unfold handleTraceExecution.
  destruct (traceTargets inp) as [|t ts]; [contradiction|].
  destruct (knownAddresses_ok _ W) as (k & ->).
  rewrite (traceLayers_silent fetchAddressHistory providerIdle) by assumption.
  rewrite traceLayers_silent_collects by assumption.
  cbn [allNewTransactions outcome tracedAfter]. auto.
Qed.

Lemma total_outage_ends_as_no_new_data_witness :
  (forall a n r, providerDown a n r = None) /\
  traceTargets (crawlFromA 3) <> [] /\
  forallb wellFormed (crawl_data (crawlFromA 3)) = true /\
  outcome (handleTraceExecution providerDown inOrder (crawlFromA 3)) = NoNewData /\
  tracedAfter (handleTraceExecution providerDown inOrder (crawlFromA 3))
  = addLowered (tracedAddresses (crawlFromA 3)) (traceTargets (crawlFromA 3)) /\
  handleTraceExecution providerDown inOrder (crawlFromA 3)
  = handleTraceExecution providerIdle inOrder (crawlFromA 3).
Proof.
  split; [reflexivity|]. split; [discriminate|]. split; [reflexivity|].
  apply (total_outage_ends_as_no_new_data providerDown inOrder (crawlFromA 3));
    [reflexivity | discriminate | reflexivity].
Defined.

(** C5, as stated, fails: with every fetch rejected the crawl from a ends
    with "no new data" and marks a as traced, as it does with a provider that
    is reachable and has nothing to report. *)
Lemma outage_is_reported_as_no_new_data :
  handleTraceExecution providerDown inOrder (crawlFromA 3)
  = {| outcome := NoNewData; tracedAfter := ["a"]; frontiers := [[]] |} /\
  handleTraceExecution providerIdle inOrder (crawlFromA 3)
  = {| outcome := NoNewData; tracedAfter := ["a"]; frontiers := [[]] |}.
Proof. split; reflexivity. Qed.

(** ** C6: one hop from a single target *)

Lemma traceTx_keeps cfg sv a st t :
  (forall x, In x (layerTransactions st) -> In x (layerTransactions (traceTx cfg sv a st t))) /\
  (forall y, In y (nextFrontier st) -> In y (nextFrontier (traceTx cfg sv a st t))).
Proof.
  unfold traceTx. destruct (typeSkipped cfg t); [tauto|].
  destruct (match direction cfg with
            | dir_both => _ | dir_from => _ | dir_to => _ end) as [valid neighbor].
  destruct (valid && truthy_str neighbor); [|tauto]. simpl. split.
  - intros x I. apply in_app_iff. now left.
  - intros y I. destruct (set_has sv _); [assumption | now apply set_add_incl].
Qed.

Lemma fold_traceTx_keeps cfg sv a txs st :
  (forall x, In x (layerTransactions st) ->
             In x (layerTransactions (fold_left (traceTx cfg sv a) txs st))) /\
  (forall y, In y (nextFrontier st) ->
             In y (nextFrontier (fold_left (traceTx cfg sv a) txs st))).
Proof.
  revert st. induction txs as [|t txs IH]; intro st; simpl; [tauto|].
  destruct (IH (traceTx cfg sv a st t)) as [IH1 IH2].
  destruct (traceTx_keeps cfg sv a st t) as [K1 K2]. split; auto.
Qed.

Lemma traceTx_collects cfg sv (A B : string) st tx :
  direction cfg = dir_both -> typeSkipped cfg tx = false ->
  tx_from tx = Some A -> tx_to tx = Some B -> B <> "" ->
  In tx (layerTransactions (traceTx cfg sv A st tx)) /\
  (~ In (toLowerCase B) sv -> In (toLowerCase B) (nextFrontier (traceTx cfg sv A st tx))).
Proof.
  intros D S F T N. unfold traceTx. rewrite S, D, F, T. cbn [orEmpty].
  rewrite String.eqb_refl. cbn [orb andb truthy_str].
  assert (E : (B =? "") = false) by now apply String.eqb_neq.
  rewrite E. cbn [negb layerTransactions nextFrontier orEmpty]. split.
  - apply in_app_iff. right. now left.
  - intro V. apply set_has_false in V. rewrite V. apply set_add_In. now right.
Qed.

Lemma fold_traceTx_collects cfg sv (A B : string) txs tx :
  direction cfg = dir_both -> typeSkipped cfg tx = false ->
  tx_from tx = Some A -> tx_to tx = Some B -> B <> "" ->
  In tx txs ->
  forall st,
    In tx (layerTransactions (fold_left (traceTx cfg sv A) txs st)) /\
    (~ In (toLowerCase B) sv ->
     In (toLowerCase B) (nextFrontier (fold_left (traceTx cfg sv A) txs st))).
Proof.
  intros D S F T N. induction txs as [|t txs IH]; intros I st; [destruct I|].
  simpl. destruct I as [-> | I].
  - destruct (traceTx_collects cfg sv A B st tx D S F T N) as [C1 C2].
    destruct (fold_traceTx_keeps cfg sv A txs (traceTx cfg sv A st tx)) as [K1 K2].
    split; auto.
  - now apply IH.
Qed.

Lemma initialVisited_In (inp : CrawlInput) (x : string) :
  In x (initialVisited inp)
  <-> In x (map toLowerCase (tracedAddresses inp)) \/ In x (map toLowerCase (traceTargets inp)).
Proof. unfold initialVisited. now rewrite addLowered_In, set_from_In. Qed.

(** C6, as amended.  In a crawl of one hop from the single target A, in both
    directions, where the provider's answer for A holds a transfer from A to
    B of an enabled type: the transfer is in the collected output, the
    lower-cased B is in the next frontier unless the session had visited it
    already, and [tracedAddresses] afterwards holds the lower-cased A; B is
    not added to it, being discovered but not queried. *)
Theorem one_hop_discovers_without_tracing
    (fetchAddressHistory : Provider) (settle : Schedule) (inp : CrawlInput)
    (A B : string) (txs : list Transaction) (tx : Transaction) :
  (forall batch, Permutation batch (settle batch)) ->
  traceTargets inp = [A] ->
  hops (traceConfig inp) = 1 ->
  direction (traceConfig inp) = dir_both ->
  forallb wellFormed (crawl_data inp) = true ->
  fetchAddressHistory A (network (traceConfig inp)) (rangeOf (traceConfig inp)) = Some txs ->
  In tx txs ->
  tx_from tx = Some A -> tx_to tx = Some B -> B <> "" ->
  typeSkipped (traceConfig inp) tx = false ->
  exists collected F,
    outcome (handleTraceExecution fetchAddressHistory settle inp) = Ingested collected /\
    In tx collected /\
    frontiers (handleTraceExecution fetchAddressHistory settle inp) = [F] /\
    (~ In (toLowerCase B) (initialVisited inp) -> In (toLowerCase B) F) /\
    In (toLowerCase A) (tracedAfter (handleTraceExecution fetchAddressHistory settle inp)) /\
    forall x, In x (tracedAfter (handleTraceExecution fetchAddressHistory settle inp))
              <-> In x (tracedAddresses inp) \/
                  In x (map toLowerCase (tracedAddresses inp)) \/
                  x = toLowerCase A.
Proof.
  intros Sp T H1 D W Fe I Ff Ft N S.
  pose proof (initialVisited_In inp) as IV. unfold initialVisited in *.
  unfold handleTraceExecution. rewrite T in *.
  destruct (knownAddresses_ok _ W) as (k & ->). rewrite H1.
  cbn [traceLayers currentFrontier sessionVisited allNewTransactions seenFrontiers app].
  set (sv := addLowered (set_from (map toLowerCase (tracedAddresses inp))) [A]) in *.
  assert (L : traceLayer fetchAddressHistory settle (traceConfig inp) sv [A]
              = fold_left (traceTx (traceConfig inp) sv A) txs emptyLayer).
  { unfold traceLayer, batches. cbn [List.length batchesFrom firstn skipn BATCH_SIZE].
    cbn [fold_left]. rewrite (Permutation_length_1_inv (Sp [A])). cbn [fold_left].
    unfold traceAddress. now rewrite Fe. }
  rewrite L.
  destruct (fold_traceTx_collects (traceConfig inp) sv A B txs tx D S Ff Ft N I emptyLayer)
    as [C1 C2].
  set (layer := fold_left (traceTx (traceConfig inp) sv A) txs emptyLayer) in *.
  destruct (layerTransactions layer) as [|t0 ts] eqn:E; [destruct C1|].
  cbn [outcome tracedAfter frontiers].
  exists (t0 :: ts), (nextFrontier layer).
  assert (X : forall x, In x (fold_left set_add (addLowered sv [A]) (tracedAddresses inp))
                        <-> In x (tracedAddresses inp) \/
                            In x (map toLowerCase (tracedAddresses inp)) \/
                            x = toLowerCase A).
  { intro x. rewrite fold_set_add_In, addLowered_In, IV. simpl. intuition. }
  repeat split; try assumption; try reflexivity.
  - apply X. right. now right.
  - apply X.
  - apply X.
Qed.

Lemma one_hop_discovers_without_tracing_witness :
  exists collected F,
    outcome (handleTraceExecution providerAB inOrder (crawlFromA 1)) = Ingested collected /\
    In (transfer "a" "b" 1) collected /\
    frontiers (handleTraceExecution providerAB inOrder (crawlFromA 1)) = [F] /\
    (~ In (toLowerCase "b") (initialVisited (crawlFromA 1)) -> In (toLowerCase "b") F) /\
    In (toLowerCase "a") (tracedAfter (handleTraceExecution providerAB inOrder (crawlFromA 1))) /\
    forall x, In x (tracedAfter (handleTraceExecution providerAB inOrder (crawlFromA 1)))
              <-> In x (tracedAddresses (crawlFromA 1)) \/
                  In x (map toLowerCase (tracedAddresses (crawlFromA 1))) \/
                  x = toLowerCase "a".
Proof.
  apply (one_hop_discovers_without_tracing providerAB inOrder (crawlFromA 1) "a" "b"
           [transfer "a" "b" 1] (transfer "a" "b" 1));
    try reflexivity; try discriminate.
  simpl. now left.
Defined.

(** C6, as stated, fails: after one hop from a, with the provider returning
    a -> b, the transfer is collected and b is the next frontier, but
    [tracedAddresses] holds a alone. *)
Lemma one_hop_leaves_neighbour_untraced :
  handleTraceExecution providerAB inOrder (crawlFromA 1)
  = {| outcome := Ingested [transfer "a" "b" 1];
       tracedAfter := ["a"];
       frontiers := [["b"]] |} /\
  ~ In "b" (tracedAfter (handleTraceExecution providerAB inOrder (crawlFromA 1))).
Proof.
  split; [reflexivity|]. simpl. intros [E | []]. discriminate E.
Qed.

(** ** The cluster finder always finds its roots *)

Section UnionFindFacts.
Context {K : Type} `{EqKeyOk K}.

Lemma ranked_set_self (rank : K -> nat) c (parent : JSMap K K) (a : K) :
  ranked rank c parent -> ranked rank c (map_set parent a a).
Proof.
  intros [R B]. split; [|assumption]. intros i p G N.
  destruct (key_eq_dec i a) as [-> | D].
  - rewrite map_get_set_same in G. congruence.
  - rewrite map_get_set_other in G by assumption. now apply R.
Qed.

Lemma ranked_weaken (rank : K -> nat) c c' (parent : JSMap K K) :
  c <= c' -> ranked rank c parent -> ranked rank c' parent.
Proof. intros L [R B]. split; [assumption|]. intro i. specialize (B i). lia. Qed.

Lemma find_ok (rank : K -> nat) (c fuel : nat) :
  forall (parent : JSMap K K) (i : K),
    ranked rank c parent -> c - rank i < fuel ->
    exists parent' root,
      find fuel parent i = Ok (parent', root) /\
      ranked rank c parent' /\
      map_get parent' root = Some root /\
      (forall j p, map_get parent j = Some p -> map_get parent' j = Some p).
Proof.
  induction fuel as [|fuel IH]; intros parent i R F; [lia|].
  simpl.
  set (parent1 := if map_has parent i then parent else map_set parent i i).
  assert (R1 : ranked rank c parent1).
  { unfold parent1. destruct (map_has parent i); [assumption | now apply ranked_set_self]. }
  assert (K1 : forall j p, map_get parent j = Some p -> map_get parent1 j = Some p).
  { unfold parent1, map_has. destruct (map_get parent i) eqn:G; [auto|].
    intros j p Gj. rewrite map_get_set_other; [assumption | congruence]. }
  assert (G1 : exists p, map_get parent1 i = Some p).
  { unfold parent1, map_has. destruct (map_get parent i) as [p|] eqn:G.
    - now exists p.
    - exists i. apply map_get_set_same. }
  destruct G1 as (p & G1). rewrite G1.
  destruct (keqb p i) eqn:E.
  - apply keqb_eq in E. subst p. exists parent1, i. auto.
  - apply keqb_false in E. destruct R1 as [Rl Rb].
    pose proof (Rl i p G1 E) as Lt. pose proof (Rb p) as Bp.
    destruct (IH parent1 p (conj Rl Rb)) as (parent' & root & Fd & R' & Rt & K'); [lia|].
    exists parent', root. repeat split; try assumption; try apply R'.
    intros j q Gj. apply K'. now apply K1.
Qed.

Lemma raise_ge (rank : K -> nat) (rootI rootJ x : K) : rank x <= raise rank rootI rootJ x.
Proof.
  unfold raise. destruct (keqb x rootJ) eqn:E; [|lia].
  apply keqb_eq in E. subst. lia.
Qed.

Lemma ranked_link (rank : K -> nat) c (parent : JSMap K K) (rootI rootJ : K) :
  ranked rank c parent -> map_get parent rootJ = Some rootJ -> rootI <> rootJ ->
  ranked (raise rank rootI rootJ) (S c) (map_set parent rootI rootJ).
Proof.
  intros [R B] RJ N. split.
  - intros i p G D. destruct (key_eq_dec i rootI) as [-> | E].
    + rewrite map_get_set_same in G. inversion G. subst p.
      unfold raise. rewrite keqb_refl, (keqb_neq rootI rootJ) by assumption. lia.
    + rewrite map_get_set_other in G by assumption.
      assert (i <> rootJ) by (intros ->; congruence).
      pose proof (R i p G D). pose proof (raise_ge rank rootI rootJ p).
      unfold raise at 1. rewrite (keqb_neq i rootJ) by assumption. lia.
  - intro i. unfold raise. pose proof (B i). pose proof (B rootI). pose proof (B rootJ).
    destruct (keqb i rootJ); lia.
Qed.

Lemma union_ok (rank : K -> nat) (c fuel : nat) (parent : JSMap K K) (i j : K) :
  ranked rank c parent -> c < fuel ->
  exists parent' rank', union fuel parent i j = Ok parent' /\ ranked rank' (S c) parent'.
Proof.
  intros R F. unfold union.
  destruct (find_ok rank c fuel parent i R) as (p1 & rootI & F1 & R1 & T1 & K1); [lia|].
  rewrite F1. simpl.
  destruct (find_ok rank c fuel p1 j R1) as (p2 & rootJ & F2 & R2 & T2 & K2); [lia|].
  rewrite F2. simpl.
  destruct (keqb rootI rootJ) eqn:E.
  - exists p2, rank. split; [reflexivity|]. apply ranked_weaken with (c := c); [lia | assumption].
  - apply keqb_false in E. exists (map_set p2 rootI rootJ), (raise rank rootI rootJ).
    split; [reflexivity|]. now apply ranked_link.
Qed.
End UnionFindFacts.

(** ** The loops of the construction end without running out of fuel *)

Lemma uniteFold_ok (fuel : nat) (l : list Link) :
  forall (nodeSet : JSSet Addr) (parent : JSMap Addr Addr) (rank : Addr -> nat) (c : nat),
    ranked rank c parent -> c + List.length l <= fuel ->
    exists nodeSet' parent' rank',
      foldM (uniteLink fuel) l (nodeSet, parent) = Ok (nodeSet', parent') /\
      ranked rank' (c + List.length l) parent' /\
      (forall a, In a nodeSet' ->
                 In a nodeSet \/ exists x, In x l /\ (a = source x \/ a = target x)).
Proof.
  induction l as [|x l IH]; intros nodeSet parent rank c R F; simpl.
  - exists nodeSet, parent, rank. rewrite Nat.add_0_r. auto.
  - simpl in F.
    destruct (union_ok rank c fuel parent (source x) (target x) R) as (p1 & rank1 & U & R1);
      [lia|].
    rewrite U. simpl.
    destruct (IH (set_add (set_add nodeSet (source x)) (target x)) p1 rank1 (S c) R1)
      as (ns' & p' & rank' & Fd & R' & I'); [lia|].
    exists ns', p', rank'. replace (c + S (List.length l)) with (S c + List.length l) by lia.
    rewrite Fd. do 2 (split; [first [reflexivity | assumption]|]).
    intros a Ia. destruct (I' a Ia) as [I | (y & Iy & E)].
    + rewrite !set_add_In in I. destruct I as [[I | ->] | ->]; [now left | |];
        right; exists x; split; auto; now left.
    + right. exists y. split; [now right | assumption].
Qed.

Lemma isolatedFold_ok (rank : Addr -> nat) (c : nat) (l : list Addr) :
  forall (nodeSet : JSSet Addr) (parent : JSMap Addr Addr),
    ranked rank c parent ->
    exists nodeSet' parent',
      fold_left addIsolated l (nodeSet, parent) = (nodeSet', parent') /\
      ranked rank c parent' /\
      (forall a, In a nodeSet' <-> In a nodeSet \/ In a l).
Proof.
  induction l as [|x l IH]; intros nodeSet parent R; simpl.
  - exists nodeSet, parent. split; [reflexivity|]. split; [assumption|]. intro a. tauto.
  - destruct (set_has nodeSet x) eqn:E.
    + destruct (IH nodeSet parent R) as (ns' & p' & Fd & R' & I').
      exists ns', p'. do 2 (split; [assumption|]). intro a. rewrite I'.
      apply set_has_In in E. intuition congruence.
    + destruct (IH (set_add nodeSet x) (map_set parent x x)) as (ns' & p' & Fd & R' & I').
      * now apply ranked_set_self.
      * exists ns', p'. do 2 (split; [assumption|]). intro a.
        rewrite I', set_add_In. intuition congruence.
Qed.

Lemma countFold_ok (rank : Addr -> nat) (c fuel : nat) (l : list Addr) :
  c < fuel ->
  forall (parent : JSMap Addr Addr) (counts : JSMap Addr nat),
    ranked rank c parent ->
    exists parent' counts',
      foldM (countRoot fuel) l (parent, counts) = Ok (parent', counts') /\
      ranked rank c parent'.
Proof.
  intro F. induction l as [|x l IH]; intros parent counts R; simpl.
  - now exists parent, counts.
  - destruct (find_ok rank c fuel parent x R) as (p1 & root & Fd & R1 & _); [lia|].
    rewrite Fd. simpl. now apply IH.
Qed.

Lemma findLabel_ok (s : string) (labels : list Label) :
  exists found, findLabel (Some s) labels = Ok found.
Proof.
  induction labels as [|l labels IH]; simpl.
  - now exists None.
  - destruct (toLowerCase (address l) =? toLowerCase s); [now exists (Some l) | exact IH].
Qed.

Lemma getNodeType_ok (a : Addr) (labels : list Label) :
  a <> None -> exists ty, getNodeType a labels = Ok ty.
Proof.
  destruct a as [s|]; [intros _ | congruence]. unfold getNodeType.
  destruct (findLabel_ok s labels) as ([l|] & ->); simpl.
  - now exists (tag_type l).
  - destruct (_ || _); [now exists "exchange"|].
    destruct (_ || _); [now exists "contract" | now exists "wallet"].
Qed.

Lemma getNodeType_throws (labels : list Label) : getNodeType None labels = TypeError.
Proof. unfold getNodeType. now destruct labels. Qed.

Lemma buildNode_ok (random : nat -> float) (rank : Addr -> nat) (c fuel : nat)
    theme labels m counts hops (st : NodeState) (a : Addr) :
  c < fuel -> ranked rank c (ns_parent st) -> a <> None ->
  exists st', buildNode random fuel theme labels m counts hops st a = Ok st' /\
              ranked rank c (ns_parent st') /\
              map id (computedNodes st') = map id (computedNodes st) ++ [a].
Proof.
  intros F R N. unfold buildNode.
  destruct (find_ok rank c fuel (ns_parent st) a R) as (p1 & root & Fd & R1 & _); [lia|].
  rewrite Fd. simpl.
  destruct (if (GROUP_THRESHOLD <? _)%nat then _ else _) as [[[colors counter] color] gid].
  destruct (getNodeType_ok a labels N) as (ty & ->). simpl.
  eexists. split; [reflexivity|]. cbn [ns_parent computedNodes].
  split; [assumption|]. now rewrite map_app.
Qed.

Lemma buildNode_throws (random : nat -> float) (rank : Addr -> nat) (c fuel : nat)
    theme labels m counts hops (st : NodeState) :
  c < fuel -> ranked rank c (ns_parent st) ->
  buildNode random fuel theme labels m counts hops st None = TypeError.
Proof.
  intros F R. unfold buildNode.
  destruct (find_ok rank c fuel (ns_parent st) None R) as (p1 & root & Fd & R1 & _); [lia|].
  rewrite Fd. simpl.
  destruct (if (GROUP_THRESHOLD <? _)%nat then _ else _) as [[[colors counter] color] gid].
  now rewrite getNodeType_throws.
Qed.

Lemma nodesFold_ok (random : nat -> float) (rank : Addr -> nat) (c fuel : nat)
    theme labels m counts hops (l : list Addr) :
  c < fuel -> defined l ->
  forall st : NodeState,
    ranked rank c (ns_parent st) ->
    exists st', foldM (buildNode random fuel theme labels m counts hops) l st = Ok st' /\
                map id (computedNodes st') = map id (computedNodes st) ++ l.
Proof.
  intros F. induction l as [|a l IH]; intros W st R; simpl.
  - exists st. now rewrite app_nil_r.
  - destruct (buildNode_ok random rank c fuel theme labels m counts hops st a F R)
      as (st1 & B & R1 & E1); [apply W; now left|].
    rewrite B. simpl.
    destruct (IH (fun x I => W x (or_intror I)) st1 R1) as (st' & Fd & E').
    exists st'. split; [assumption|]. rewrite E', E1, <- app_assoc. reflexivity.
Qed.

Lemma nodesFold_throws (random : nat -> float) (rank : Addr -> nat) (c fuel : nat)
    theme labels m counts hops (l : list Addr) :
  c < fuel -> In None l ->
  forall st : NodeState,
    ranked rank c (ns_parent st) ->
    foldM (buildNode random fuel theme labels m counts hops) l st = TypeError.
Proof.
  intros F. induction l as [|a l IH]; intros I st R; [destruct I|]. simpl.
  destruct a as [s|].
  - destruct (buildNode_ok random rank c fuel theme labels m counts hops st (Some s) F R)
      as (st1 & B & R1 & _); [discriminate|].
    rewrite B. simpl. apply IH; [|assumption].
    destruct I as [E | I]; [discriminate | assumption].
  - now rewrite (buildNode_throws random rank c fuel).
Qed.

Lemma seedBase_cases (vn : JSSet Addr) (base : string) :
  forall (P : Addr -> Prop) st,
    SeedInv P st ->
    seedBase vn st base = TypeError \/
    exists st' P', seedBase vn st base = Ok st' /\ SeedInv P' st'.
Proof.
  unfold seedBase. induction vn as [|a vn IH]; intros P st I; simpl.
  - right. now exists st, P.
  - destruct a as [s|]; [|now left]. simpl.
    destruct (toLowerCase s =? toLowerCase base).
    + apply (IH _ _ (seedNode_inv P st (Some s) I)).
    + now apply (IH P).
Qed.

Lemma seedFold_cases (vn : JSSet Addr) (bases : JSSet string) :
  forall (P : Addr -> Prop) st,
    SeedInv P st ->
    foldM (seedBase vn) bases st = TypeError \/
    exists st' P', foldM (seedBase vn) bases st = Ok st' /\ SeedInv P' st'.
Proof.
  induction bases as [|base bases IH]; intros P st I; simpl.
  - right. now exists st, P.
  - destruct (seedBase_cases vn base P st I) as [-> | (st1 & P1 & -> & I1)]; [now left|].
    simpl. now apply (IH P1).
Qed.

(** The hop labeler throws or returns; it is never cut short. *)
Lemma computeHops_cases (m : Maps) (bases : JSSet string) :
  computeHops m bases = TypeError \/ exists hops, computeHops m bases = Ok hops.
Proof.
  unfold computeHops, seedAll.
  destruct (seedFold_cases (validNodes m) bases _ emptyBfs SeedInv_empty)
    as [-> | (st0 & P & -> & I)]; [now left|].
  right. simpl.
  destruct (bfsLoop_total (adj m) P (bfsFuel (adj m) st0) st0) as (st & -> & _).
  - now apply SeedInv_BfsInv.
  - apply seeded_measure.
  - now exists (computedHopMap st).
Qed.

Lemma preFilteredLinks_valid (m : Maps) (l : Link) :
  In l (preFilteredLinks m) ->
  In (source l) (validNodes m) /\ In (target l) (validNodes m).
Proof.
  unfold preFilteredLinks. intro I. apply in_map_iff in I.
  destruct I as (l0 & <- & I). apply filter_In in I. destruct I as [_ V].
  apply andb_true_iff in V. rewrite !set_has_In in V.
  unfold markBidirectional. now destruct (set_has _ _).
Qed.

Lemma ranked_empty : ranked (fun _ : Addr => 0) 0 [].
Proof. split; [discriminate | auto]. Qed.

(** After the hop labeler, the construction returns when every node is
    defined and throws when some node is [undefined]; when it returns with
    the relationship filter off, the nodes are the node universe. *)
Lemma topology_after_hops (random : nat -> float) (inp : Inputs) (hops : JSMap Addr nat) :
  computeHops (buildMaps (filteredData inp)) (baseAddresses inp) = Ok hops ->
  (defined (validNodes (buildMaps (filteredData inp))) ->
   exists t, topology random inp = Ok t /\
             (showRelatedOnly inp = false ->
              forall a, In a (validNodes (buildMaps (filteredData inp))) ->
                        In a (map id (nodes t)))) /\
  (In None (validNodes (buildMaps (filteredData inp))) ->
   topology random inp = TypeError).
Proof.
  intro Hc. unfold topology. rewrite Hc. simpl.
  set (m := buildMaps (filteredData inp)).
  set (pre := preFilteredLinks m). set (fuel := ufFuel pre).
  destruct (uniteFold_ok fuel pre [] [] (fun _ => 0) 0 ranked_empty)
    as (ns1 & p1 & rank1 & F1 & R1 & I1).
  { unfold fuel, ufFuel. lia. }
  unfold JSSet, JSMap in *. rewrite F1. simpl.
  destruct (isolatedFold_ok rank1 (List.length pre) (validNodes m) ns1 p1 R1)
    as (ns2 & p2 & F2 & R2 & I2).
  unfold JSSet, JSMap in *. rewrite F2.
  destruct (countFold_ok rank1 (List.length pre) fuel ns2 (Nat.lt_succ_diag_r _) p2 [] R2)
    as (p3 & counts & F3 & R3).
  unfold JSSet, JSMap in *. rewrite F3. simpl.
  assert (V2 : forall a, In a ns2 -> In a (validNodes m)).
  { intros a I. apply I2 in I. destruct I as [I | I]; [|assumption].
    destruct (I1 a I) as [[] | (x & Ix & [-> | ->])];
      now destruct (preFilteredLinks_valid m x Ix). }
  split.
  - intro V.
    destruct (nodesFold_ok random rank1 (List.length pre) fuel (theme inp) (sharedLabels inp)
                m counts hops ns2 (Nat.lt_succ_diag_r _) (fun a I => V a (V2 a I))
                {| ns_parent := p3; rootColors := []; colorCounter := 0%float;
                   computedNodes := [] |} R3)
      as (st & F4 & E).
    unfold JSSet, JSMap in *. rewrite F4. simpl. eexists. split; [reflexivity|].
    cbn [nodes]. intros -> a I. simpl in E. rewrite E. apply I2. now right.
  - intro N.
    rewrite (nodesFold_throws random rank1 (List.length pre) fuel (theme inp)
               (sharedLabels inp) m counts hops ns2 (Nat.lt_succ_diag_r _)).
    + reflexivity.
    + apply I2. now right.
    + assumption.
Qed.

Lemma validNodes_defined (fd : list Transaction) :
  forallb wellFormed fd = true -> defined (validNodes (buildMaps fd)).
Proof. intros W a I. apply (isNode_wellFormed fd a W). now apply validNodes_spec. Qed.

Lemma endpoints_are_nodes (fd : list Transaction) (tx : Transaction) :
  In tx fd ->
  In (tx_from tx) (validNodes (buildMaps fd)) /\ In (tx_to tx) (validNodes (buildMaps fd)).
Proof.
  intro I. rewrite !validNodes_spec. unfold isNode. rewrite !existsb_exists.
  split; exists tx; (split; [assumption|]); apply orb_true_iff;
    [left | right]; apply keqb_refl.
Qed.

Lemma validNodes_undefined (fd : list Transaction) :
  forallb wellFormed fd = false -> In None (validNodes (buildMaps fd)).
Proof.
  intro W. assert (E : exists tx, In tx fd /\ wellFormed tx = false).
  { induction fd as [|t fd IH]; [discriminate|]. simpl in W.
    apply andb_false_iff in W. destruct W as [W | W].
    - exists t. split; [now left | assumption].
    - destruct (IH W) as (tx & I & E). exists tx. split; [now right | assumption]. }
  destruct E as (tx & I & E). destruct (endpoints_are_nodes fd tx I) as [If It].
  unfold wellFormed in E. destruct (tx_from tx); [|assumption].
  destruct (tx_to tx); [discriminate | assumption].
Qed.

(** X1.  The construction returns exactly when every record that passes the
    filters carries both endpoints; otherwise it throws a [TypeError]; it is
    never cut short for want of fuel. *)
Theorem construction_throws_iff_malformed (random : nat -> float) (inp : Inputs) :
  match topology random inp with
  | Ok _ => forallb wellFormed (filteredData inp) = true
  | TypeError => forallb wellFormed (filteredData inp) = false
  | OutOfFuel => False
  end.
Proof.
  destruct (forallb wellFormed (filteredData inp)) eqn:W.
  - destruct (computeHops_exact _ (baseAddresses inp) W) as (hops & Hc & _).
    destruct (topology_after_hops random inp hops Hc) as [Hok _].
    destruct (Hok (validNodes_defined _ W)) as (t & -> & _). reflexivity.
  - pose proof (validNodes_undefined _ W) as N.
    destruct (computeHops_cases (buildMaps (filteredData inp)) (baseAddresses inp))
      as [E | (hops & Hc)].
    + unfold topology. rewrite E. reflexivity.
    + destruct (topology_after_hops random inp hops Hc) as [_ Hth].
      now rewrite (Hth N).
Qed.

(** ** C9: the construction on well-formed records *)

Lemma add_link_has (m : JSMap string Link) (tx : Transaction) (key : string) :
  map_has m key = true \/ key = linkKey (tx_from tx) (tx_to tx) ->
  map_has (add_link m tx) key = true.
Proof.
  unfold add_link. set (k := linkKey (tx_from tx) (tx_to tx)).
  set (m1 := if map_has m k then m else map_set m k _).
  assert (H1 : map_has m key = true \/ key = k -> map_has m1 key = true).
  { unfold m1. destruct (map_has m k) eqn:E.
    - intros [? | ->]; assumption.
    - rewrite !map_has_keys, map_set_keys. tauto. }
  intro I. specialize (H1 I).
  destruct (map_get m1 k); [|assumption].
  rewrite map_has_keys, map_set_keys. left. now apply map_has_keys.
Qed.

(** Every transfer of the set has an entry in the link map under its key. *)
Lemma linkMap_has (fd : list Transaction) (tx : Transaction) :
  In tx fd -> map_has (linkMap (buildMaps fd)) (linkKey (tx_from tx) (tx_to tx)) = true.
Proof.
  induction fd as [|t fd IH] using rev_ind; [intros []|].
  rewrite buildMaps_snoc. unfold processTx. cbn [linkMap].
  intro I. apply in_app_iff in I. apply add_link_has.
  destruct I as [I | [<- | []]]; [left; now apply IH | now right].
Qed.

(** C9, as amended.  When every record that passes the filters carries both
    endpoints, the graph construction completes without an error, and no
    such record is skipped: with the relationship filter off both endpoints
    are nodes of the result, and the link map has an entry under the
    record's key. *)
Theorem construction_completes_on_well_formed (random : nat -> float) (inp : Inputs) :
  forallb wellFormed (filteredData inp) = true ->
  exists t,
    topology random inp = Ok t /\
    forall tx, In tx (filteredData inp) ->
      (showRelatedOnly inp = false ->
       In (tx_from tx) (map id (nodes t)) /\ In (tx_to tx) (map id (nodes t))) /\
      map_has (linkMap (buildMaps (filteredData inp)))
              (linkKey (tx_from tx) (tx_to tx)) = true.
Proof.
  intro W.
  destruct (computeHops_exact _ (baseAddresses inp) W) as (hops & Hc & _).
  destruct (topology_after_hops random inp hops Hc) as [Hok _].
  destruct (Hok (validNodes_defined _ W)) as (t & E & N).
  exists t. split; [assumption|].
  intros tx I. split; [|now apply linkMap_has].
  intro R. destruct (endpoints_are_nodes _ tx I). split; now apply N.
Qed.

Lemma construction_completes_on_well_formed_witness :
  exists t,
    topology (fun _ => 0%float) triangleInputs = Ok t /\
    forall tx, In tx (filteredData triangleInputs) ->
      (showRelatedOnly triangleInputs = false ->
       In (tx_from tx) (map id (nodes t)) /\ In (tx_to tx) (map id (nodes t))) /\
      map_has (linkMap (buildMaps (filteredData triangleInputs)))
              (linkKey (tx_from tx) (tx_to tx)) = true.
Proof.
  apply (construction_completes_on_well_formed (fun _ => 0%float) triangleInputs).
  reflexivity.
Defined.

(** C9, as stated, fails: a retained transfer without a sender is not
    skipped (it is entered under [undefined] with a balance, neighbours and
    a link), and the construction then throws. *)
Lemma missing_sender_is_not_skipped :
  filteredData (plainInputs [senderless]) = [senderless] /\
  validNodes (buildMaps [senderless]) = [None; Some "b"] /\
  map_get (balanceMap (buildMaps [senderless])) None = Some 4%float /\
  neighborsOf (adj (buildMaps [senderless])) None = [Some "b"] /\
  map_keys (linkMap (buildMaps [senderless])) = ["undefined-b"] /\
  topology (fun _ => 0%float) (plainInputs [senderless]) = TypeError.
Proof. repeat split. Qed.

(** ** A budget of more than one layer *)

(** The loop of [handleTraceExecution] under a budget of three layers, which
    no configuration of the component has ([hops] is 1 at line 104 and is
    written as 1 at line 360).  Crawling from a over the triangle a-b, a-c,
    b-c: layer 1 discovers b and c; layer 2 queries them while neither is in
    [sessionVisited] yet, so each rediscovers the other and both are queued
    again; layer 3 queries them a second time, and their transfers are
    collected twice.  That a session never repeats an address rests on the
    budget of one layer. *)
Lemma frontier_members_are_rediscovered :
  frontiers (handleTraceExecution providerTriangle inOrder (crawlFromA 3))
  = [["b"; "c"]; ["c"; "b"]; []] /\
  match outcome (handleTraceExecution providerTriangle inOrder (crawlFromA 3)) with
  | Ingested collected =>
      map tx_id collected
      = ["a>b"; "a>c"; "a>b"; "b>c"; "a>c"; "b>c"; "a>c"; "b>c"; "a>b"; "b>c"]
  | _ => False
  end.
Proof. split; reflexivity. Qed.

(** ** C8: the domain of the radius scale *)

(** C8 fails on the code for an empty node set: [Math.min()] is [Infinity]
    and [Math.max()] is [-Infinity], both truthy, so neither fallback
    applies and the domain is [[Infinity, -Infinity]].  The fallbacks do
    apply when the extreme balance is zero. *)
Lemma radius_domain_of_empty_graph :
  mapResult radiusDomain (topology (fun _ => 0%float) (plainInputs []))
  = Ok (infinity, neg_infinity) /\
  mapResult radiusDomain (topology (fun _ => 0%float) (plainInputs [transfer "a" "b" 0]))
  = Ok (0.001%float, 1%float).
Proof. split; reflexivity. Qed.

(** ** Further properties of the construction *)

(** X3.  The links of the result join nodes of the result. *)
Theorem links_join_result_nodes (random : nat -> float) (inp : Inputs) :
  match topology random inp with
  | Ok t => forall l, In l (links t) ->
                      In (source l) (map id (nodes t)) /\ In (target l) (map id (nodes t))
  | _ => True
  end.
Proof.
  unfold topology.
  destruct (computeHops _ _) as [hops| |]; simpl; trivial.
  destruct (foldM (uniteLink _) _ _) as [[nodeSet parent]| |]; simpl; trivial.
  destruct (fold_left addIsolated _ _) as [nodeSet' parent'].
  destruct (foldM (countRoot _) _ _) as [[parent'' counts]| |]; simpl; trivial.
  destruct (foldM (buildNode _ _ _ _ _ _ _) _ _) as [st| |]; simpl; trivial.
  intros l I. apply filter_In in I. destruct I as [_ E].
  apply andb_true_iff in E. now rewrite !set_has_In, !set_from_In in E.
Qed.

(** X4.  The hop labels form a layering: a node at hop [k + 1] has a
    neighbour at hop [k]. *)
Theorem hop_layering (fd : list Transaction) (baseAddresses : JSSet string) :
  forallb wellFormed fd = true ->
  exists hopMap,
    computeHops (buildMaps fd) baseAddresses = Ok hopMap /\
    forall n k, map_get hopMap n = Some (S k) ->
                exists p, uedge fd n p = true /\ map_get hopMap p = Some k.
Proof.
  intro W. destruct (computeHops_exact fd baseAddresses W) as (hopMap & R & F).
  exists hopMap. split; [assumption|]. intros n k G.
  pose proof (F n) as Fn. rewrite G in Fn. destruct Fn as [Rn Mn].
  inversion Rn as [|j p n' Rp E]; subst.
  exists p. split; [apply uedge_sym; now apply adj_spec|].
  pose proof (F p) as Fp. destruct (map_get hopMap p) as [kp|].
  - destruct Fp as [Rp' Mp]. f_equal.
    assert (kp <= k) by now apply Mp.
    assert (S k <= S kp) by (apply Mn; now apply reach_step with (p := p)).
    lia.
  - exfalso. now apply (Fp k).
Qed.

Lemma hop_layering_witness :
  exists hopMap,
    computeHops (buildMaps triangle) ["a"] = Ok hopMap /\
    forall n k, map_get hopMap n = Some (S k) ->
                exists p, uedge triangle n p = true /\ map_get hopMap p = Some k.
Proof. apply (hop_layering triangle ["a"]). reflexivity. Defined.

(** ** Further properties of the crawl *)

(** A crawl over loaded transfers with a missing endpoint ends in the catch
    block and leaves [tracedAddresses] as it was. *)
Example crawl_over_malformed_data_fails :
  handleTraceExecution providerAB inOrder crawlOverMalformed
  = {| outcome := TraceFailed; tracedAfter := ["z"]; frontiers := [] |}.
Proof. reflexivity. Qed.

Lemma traceTx_fresh cfg sv a st tx :
  freshFrontier sv (nextFrontier st) ->
  freshFrontier sv (nextFrontier (traceTx cfg sv a st tx)).
Proof.
  intros [N D]. unfold traceTx. destruct (typeSkipped cfg tx); [now split|].
  destruct (match direction cfg with
            | dir_both => _ | dir_from => _ | dir_to => _ end) as [valid neighbor].
  destruct (valid && truthy_str neighbor); [|now split]. cbn [nextFrontier].
  destruct (set_has sv _) eqn:E; [now split|]. apply set_has_false in E. split.
  - now apply set_add_NoDup.
  - intros x I. apply set_add_In in I. destruct I as [I | ->]; auto.
Qed.

Lemma traceLayer_fresh fetch settle cfg sv frontier :
  freshFrontier sv (nextFrontier (traceLayer fetch settle cfg sv frontier)).
Proof.
  unfold traceLayer.
  assert (F0 : freshFrontier sv (nextFrontier {| nextFrontier := []; layerTransactions := [] |})).
  { split; [constructor | intros a []]. }
  revert F0. generalize {| nextFrontier := []; layerTransactions := [] |} as st.
  induction (batches frontier) as [|b bs IH]; intros st F; simpl; [assumption|].
  apply IH. clear IH. revert st F.
  induction (settle b) as [|a b' IHb]; intros st F; simpl; [assumption|].
  apply IHb. unfold traceAddress.
  destruct (fetch a (network cfg) (rangeOf cfg)) as [txs|]; [|assumption].
  revert st F. induction txs as [|tx txs IHt]; intros st F; simpl; [assumption|].
  apply IHt. now apply traceTx_fresh.
Qed.

Lemma traceLayers_fresh fetch settle cfg n (base : JSSet string) :
  forall st,
    (forall a, In a base -> In a (sessionVisited st)) ->
    (forall F, In F (seenFrontiers st) -> freshFrontier base F) ->
    forall F, In F (seenFrontiers (traceLayers fetch settle cfg n st)) -> freshFrontier base F.
Proof.
  induction n as [|n IH]; intros st B S; simpl; [assumption|].
  destruct (currentFrontier st) as [|a0 fr]; [assumption|].
  apply IH; cbn [sessionVisited seenFrontiers].
  - intros a I. apply addLowered_In. left. now apply B.
  - intros F I. apply in_app_iff in I. destruct I as [I | [<- | []]]; [now apply S|].
    destruct (traceLayer_fresh fetch settle cfg (sessionVisited st) (a0 :: fr)) as [N D].
    split; [assumption|]. intros a Ia Ib. apply (D a Ia). now apply B.
Qed.

(** X2.  What the crawl does deduplicate: no frontier of a session lists an
    address twice, and no frontier holds an address that was traced before
    the call or is one of its targets (in lower case). *)
Theorem frontiers_are_fresh
    (fetchAddressHistory : Provider) (settle : Schedule) (inp : CrawlInput) :
  forall F, In F (frontiers (handleTraceExecution fetchAddressHistory settle inp)) ->
            freshFrontier (initialVisited inp) F.
Proof.
  unfold handleTraceExecution.
  destruct (traceTargets inp) as [|t ts] eqn:T; [intros F []|].
  destruct (knownAddresses (crawl_data inp)) as [known| |]; try (intros F []).
  match goal with
  | |- context [allNewTransactions ?s] => set (st := s)
  end.
  assert (S : forall F, In F (seenFrontiers st) -> freshFrontier (initialVisited inp) F).
  { apply traceLayers_fresh; cbn [sessionVisited seenFrontiers].
    - unfold initialVisited. now rewrite T.
    - intros F []. }
  destruct (allNewTransactions st); exact S.
Qed.

Lemma frontiers_are_fresh_witness :
  freshFrontier (initialVisited (crawlFromA 3)) ["c"; "b"].
Proof.
  apply (frontiers_are_fresh providerTriangle inOrder (crawlFromA 3)).
  simpl. right. now left.
Defined.

(** ** The scenarios of the specification *)

(** Node types: a label wins, then the substrings of the lower-cased id. *)
Example node_types :
  getNodeType (Some "Binance-Hot") [] = Ok "exchange" /\
  getNodeType (Some "GnosisSafe") [] = Ok "contract" /\
  getNodeType (Some "0xabc") [] = Ok "wallet" /\
  getNodeType (Some "0xABC") [{| address := "0xabc"; label := "desk"; tag_type := "otc" |}]
  = Ok "otc".
Proof. repeat split. Qed.

(** The triangle with base a: hops 0, 1, 1; one cluster of size 3, which
    does not exceed the threshold and keeps the default colour. *)
Example triangle_scenario :
  mapResult (fun t => map nodeSummary (nodes t)) (topology (fun _ => 0%float) triangleInputs)
  = Ok [(Some "a", Some 0, 3, 0, Hex "#334155");
        (Some "b", Some 1, 3, 0, Hex "#334155");
        (Some "c", Some 1, 3, 0, Hex "#334155")].
Proof. reflexivity. Qed.

(** The triangle with no base address: no hop is defined, and the
    relationship filter leaves no node. *)
Example unseeded_scenario :
  computeHops (buildMaps triangle) [] = Ok [] /\
  mapResult nodes (topology (fun _ => 0%float) triangleUnseeded) = Ok [].
Proof. split; reflexivity. Qed.

(** Two hops from a: the three transfers are collected, d is the last
    frontier, and a and b are traced while d is not. *)
Example two_hop_scenario :
  handleTraceExecution providerABD inOrder (crawlFromA 2)
  = {| outcome := Ingested [transfer "a" "b" 1; transfer "b" "a" 1; transfer "b" "d" 1];
       tracedAfter := ["a"; "b"];
       frontiers := [["b"]; ["d"]] |}.
Proof. reflexivity. Qed.

(** ** The nodes carry the labels of the hop map *)

Lemma buildNode_labelled random fuel theme labels m counts hops st a :
  Forall (labelled m hops) (computedNodes st) ->
  match buildNode random fuel theme labels m counts hops st a with
  | Ok st' => Forall (labelled m hops) (computedNodes st')
  | _ => True
  end.
Proof.
  intro F. unfold buildNode.
  destruct (find fuel (ns_parent st) a) as [[parent root]| |]; simpl; trivial.
  destruct (if (GROUP_THRESHOLD <? _)%nat then _ else _) as [[[colors counter] color] gid].
  destruct (getNodeType a labels); simpl; trivial.
  apply Forall_app. split; [assumption|]. constructor; [|constructor]. now split.
Qed.

Lemma nodesFold_labelled random fuel theme labels m counts hops (l : list Addr) :
  forall st,
    Forall (labelled m hops) (computedNodes st) ->
    match foldM (buildNode random fuel theme labels m counts hops) l st with
    | Ok st' => Forall (labelled m hops) (computedNodes st')
    | _ => True
    end.
Proof.
  induction l as [|a l IH]; intros st F; simpl; [assumption|].
  pose proof (buildNode_labelled random fuel theme labels m counts hops st a F) as B.
  destruct (buildNode random fuel theme labels m counts hops st a) as [st1| |]; simpl; trivial.
  now apply IH.
Qed.

(** ** The frontiers of layers that are not adjacent *)

Lemma lower_ascii_idem (c : ascii) : lower_ascii (lower_ascii c) = lower_ascii c.
Proof. destruct c as [[] [] [] [] [] [] [] []]; reflexivity. Qed.

Lemma toLowerCase_idem (s : string) : toLowerCase (toLowerCase s) = toLowerCase s.
Proof.
  induction s as [|c s IH]; simpl; [reflexivity|]. now rewrite lower_ascii_idem, IH.
Qed.

Lemma traceTx_lower cfg sv a st tx :
  lowerCased (nextFrontier st) -> lowerCased (nextFrontier (traceTx cfg sv a st tx)).
Proof.
  intro L. unfold traceTx. destruct (typeSkipped cfg tx); [assumption|].
  destruct (match direction cfg with
            | dir_both => _ | dir_from => _ | dir_to => _ end) as [valid neighbor].
  destruct (valid && truthy_str neighbor); [|assumption]. cbn [nextFrontier].
  destruct (set_has sv _); [assumption|].
  intros x I. apply set_add_In in I. destruct I as [I | ->]; [now apply L|].
  apply toLowerCase_idem.
Qed.

Lemma traceLayer_lower fetch settle cfg sv frontier :
  lowerCased (nextFrontier (traceLayer fetch settle cfg sv frontier)).
Proof.
  unfold traceLayer.
  assert (L0 : lowerCased (nextFrontier {| nextFrontier := []; layerTransactions := [] |})).
  { intros a []. }
  revert L0. generalize {| nextFrontier := []; layerTransactions := [] |} as st.
  induction (batches frontier) as [|b bs IH]; intros st L; simpl; [assumption|].
  apply IH. clear IH. revert st L.
  induction (settle b) as [|a b' IHb]; intros st L; simpl; [assumption|].
  apply IHb. unfold traceAddress.
  destruct (fetch a (network cfg) (rangeOf cfg)) as [txs|]; [|assumption].
  revert st L. induction txs as [|tx txs IHt]; intros st L; simpl; [assumption|].
  apply IHt. now apply traceTx_lower.
Qed.

Lemma apart_snoc (earlier : list (list string)) (cur next : list string)
    (sv : JSSet string) :
  apart (earlier ++ [cur]) ->
  (forall F a, In F earlier -> In a F -> In a sv) ->
  (forall a, In a next -> ~ In a sv) ->
  apart ((earlier ++ [cur]) ++ [next]).
Proof.
  intros A V N i j a Le Ii Ij.
  set (seen := earlier ++ [cur]) in *.
  assert (Len : List.length seen = S (List.length earlier)).
  { unfold seen. rewrite length_app. simpl. lia. }
  destruct (Nat.lt_trichotomy j (List.length seen)) as [Lt | [Eq | Gt]].
  - rewrite app_nth1 in Ii, Ij by lia. now apply (A i j a).
  - subst j. rewrite app_nth2, Nat.sub_diag in Ij by lia. simpl in Ij.
    rewrite app_nth1 in Ii by lia. unfold seen in Ii. rewrite app_nth1 in Ii by lia.
    apply (N a Ij). apply (V (nth i earlier [])); [|assumption].
    apply nth_In. lia.
  - rewrite nth_overflow in Ij; [destruct Ij|]. rewrite length_app. simpl. lia.
Qed.

Lemma apart_single (next : list string) : apart [next].
Proof.
  intros i j a Le _ Ij. rewrite nth_overflow in Ij; [destruct Ij | simpl; lia].
Qed.

Lemma traceLayers_inv fetch settle cfg n :
  forall st, CrawlInv st -> CrawlInv (traceLayers fetch settle cfg n st).
Proof.
  induction n as [|n IH]; intros st I; simpl; [assumption|].
  destruct (currentFrontier st) as [|a0 fr] eqn:C; [assumption|].
  apply IH. destruct I as [A L La].
  destruct (traceLayer_fresh fetch settle cfg (sessionVisited st) (a0 :: fr)) as [_ Fr].
  pose proof (traceLayer_lower fetch settle cfg (sessionVisited st) (a0 :: fr)) as Lo.
  set (next := nextFrontier (traceLayer fetch settle cfg (sessionVisited st) (a0 :: fr))) in *.
  constructor; cbn [seenFrontiers currentFrontier sessionVisited].
  - destruct La as [E | (earlier & E & V)]; rewrite E.
    + apply apart_single.
    + apply apart_snoc with (sv := sessionVisited st); try assumption.
      now rewrite <- E.
  - intros F I. apply in_app_iff in I. destruct I as [I | [<- | []]]; [now apply L | assumption].
  - right. exists (seenFrontiers st). split; [reflexivity|].
    intros F a IF Ia. apply addLowered_In.
    destruct La as [E | (earlier & E & V)]; [rewrite E in IF; destruct IF|].
    rewrite E in IF. apply in_app_iff in IF. destruct IF as [IF | [<- | []]].
    + left. now apply (V F).
    + right. rewrite C in Ia. apply in_map_iff. exists a. split; [|assumption].
      apply (L (a0 :: fr)); [|assumption]. rewrite E, C. apply in_app_iff. right. now left.
Qed.

(** X6.  For every crawl, frontiers that are two or more layers apart share
    no address: an address queried in one layer is kept out of the frontiers
    that every later layer produces (the frontier of the layer in which it is
    being queried is the one exception). *)
Theorem distant_frontiers_are_disjoint
    (fetchAddressHistory : Provider) (settle : Schedule) (inp : CrawlInput) :
  apart (frontiers (handleTraceExecution fetchAddressHistory settle inp)).
Proof.
  assert (E : apart []).
  { intros i j a _ Ii. now destruct i. }
  unfold handleTraceExecution.
  destruct (traceTargets inp) as [|t ts]; [exact E|].
  destruct (knownAddresses (crawl_data inp)) as [known| |]; try exact E.
  match goal with
  | |- context [allNewTransactions ?s] => set (st := s)
  end.
  assert (I : CrawlInv st).
  { apply traceLayers_inv. constructor; cbn [seenFrontiers].
    - exact E.
    - intros F [].
    - now left. }
  destruct (allNewTransactions st); exact (crawl_apart st I).
Qed.

(** ** The token list and the filters *)

Lemma insert_sorted_perm (s : string) (l : list string) :
  Permutation (insert_sorted s l) (s :: l).
Proof.
  induction l as [|x l IH]; simpl; [reflexivity|].
  destruct (String.leb s x); [reflexivity|].
  rewrite IH. apply perm_swap.
Qed.

Lemma sort_strings_perm (l : list string) : Permutation (sort_strings l) l.
Proof.
  unfold sort_strings. induction l as [|x l IH]; simpl; [reflexivity|].
  rewrite insert_sorted_perm. now constructor.
Qed.

Lemma insert_sorted_Sorted (s : string) (l : list string) :
  Sorted (fun a b => String.leb a b = true) l ->
  Sorted (fun a b => String.leb a b = true) (insert_sorted s l).
Proof.
  induction l as [|x l IH]; intro S; simpl.
  - repeat constructor.
  - destruct (String.leb s x) eqn:E.
    + constructor; [assumption | now constructor].
    + inversion S as [|? ? S' Hd]; subst. constructor; [now apply IH|].
      destruct l as [|y l]; simpl.
      * constructor. destruct (String.leb_total s x); congruence.
      * destruct (String.leb s y).
        -- constructor. destruct (String.leb_total s x); congruence.
        -- constructor. now inversion Hd.
Qed.

Lemma sort_strings_Sorted (l : list string) :
  Sorted (fun a b => String.leb a b = true) (sort_strings l).
Proof.
  unfold sort_strings. induction l as [|x l IH]; simpl; [constructor|].
  now apply insert_sorted_Sorted.
Qed.

Lemma leb_ltb (a b : string) :
  String.leb a b = true -> a <> b -> String.ltb a b = true.
Proof.
  unfold String.leb, String.ltb. intros L N.
  destruct (String.compare a b) eqn:C; [|reflexivity|discriminate].
  now apply String.compare_eq_iff in C.
Qed.

Lemma Sorted_strict (l : list string) :
  Sorted (fun a b => String.leb a b = true) l -> NoDup l ->
  Sorted (fun a b => String.ltb a b = true) l.
Proof.
  induction l as [|x l IH]; intros S N; [constructor|].
  inversion S as [|? ? S' Hd]; subst. inversion N as [|? ? NI N']; subst.
  constructor; [now apply IH|].
  destruct l as [|y l]; constructor.
  apply leb_ltb; [now inversion Hd|].
  intros ->. apply NI. now left.
Qed.

Lemma collected_tokens_NoDup (l : list Transaction) (acc : JSSet string) :
  NoDup acc ->
  NoDup (fold_left
           (fun tokens t =>
              if truthy_str (tx_token t) then set_add tokens (token_of t) else tokens)
           l acc).
Proof.
  revert acc. induction l as [|t l IH]; intros acc N; simpl; [assumption|].
  apply IH. destruct (truthy_str (tx_token t)); [now apply set_add_NoDup | assumption].
Qed.

Lemma TxType_eqb_eq (a b : TxType) : TxType_eqb a b = true <-> a = b.
Proof. destruct a, b; simpl; split; congruence. Qed.

(** X7.  The token list offered for selection holds exactly the non-empty
    token symbols carried by transfers of the active type, each once, in
    strictly ascending order. *)
Theorem available_tokens_exact_and_ascending (data : list Transaction) (ty : TxType) :
  Sorted (fun a b => String.ltb a b = true) (availableTokens data ty) /\
  forall s, In s (availableTokens data ty) <->
            s <> "" /\ exists t, In t data /\ tx_type t = ty /\ tx_token t = Some s.
Proof.
  split.
  - apply Sorted_strict; [apply sort_strings_Sorted|].
    unfold availableTokens.
    apply (Permutation_NoDup (Permutation_sym (sort_strings_perm _))).
    apply NoDup_filter, collected_tokens_NoDup. constructor.
  - intro s. unfold availableTokens.
    rewrite sort_strings_In, filter_In, collected_tokens, negb_true_iff, String.eqb_neq.
    split.
    + intros ([[] | (t & I & T & E)] & N). split; [assumption|].
      apply filter_In in I. destruct I as [I Ty]. apply TxType_eqb_eq in Ty.
      exists t. repeat split; try assumption.
      unfold token_of, truthy_str in *. destruct (tx_token t); [now subst | discriminate].
    + intros (N & t & I & Ty & Tk). split; [|assumption].
      right. exists t. split; [|split].
      * apply filter_In. split; [assumption | now apply TxType_eqb_eq].
      * unfold truthy_str. rewrite Tk. now rewrite negb_true_iff, String.eqb_neq.
      * unfold token_of. now rewrite Tk.
Qed.

Lemma filter_andb {A : Type} (f g : A -> bool) (l : list A) :
  filter g (filter f l) = filter (fun x => f x && g x) l.
Proof.
  induction l as [|x l IH]; simpl; [reflexivity|].
  destruct (f x); simpl; [|assumption]. destruct (g x); now rewrite IH.
Qed.

Lemma set_from_nonempty {K : Type} `{EqKey K} (l : list K) :
  l <> [] -> set_from l <> [].
Proof.
  destruct l as [|x l]; [congruence|]. intros _ E.
  unfold set_from in E. simpl in E.
  assert (G : forall (r : list K) (s : JSSet K), s <> [] -> fold_left set_add r s <> []).
  { induction r as [|y r IH]; intros s N; simpl; [assumption|].
    apply IH. unfold set_add. destruct (set_has s y); [assumption|].
    now destruct s. }
  apply (G l (set_add [] x)); [|assumption]. discriminate.
Qed.

Lemma preTokenData_closed (inp : Inputs) :
  preTokenData inp
  = filter (fun t =>
              TxType_eqb (tx_type t) (activeType inp) &&
              match dateRange_start inp with
              | Some start => date_geb (tx_timestamp t) start
              | None => true
              end &&
              match dateRange_end inp with
              | Some e => date_leb (tx_timestamp t) (endOfDay (tzOffset inp) e)
              | None => true
              end &&
              (if PrimFloat.ltb 0%float (dustThreshold inp)
               then PrimFloat.leb (dustThreshold inp) (tx_value t) else true))
           (data inp).
Proof.
  unfold preTokenData.
  destruct (PrimFloat.ltb 0 (dustThreshold inp));
    destruct (dateRange_end inp); destruct (dateRange_start inp);
    rewrite ?filter_andb; apply filter_ext; intro t;
    rewrite ?andb_true_r, ?andb_assoc; reflexivity.
Qed.

(** X8.  The four filter stages amount to one pass over the table: a transfer
    is retained exactly when it is of the active type, lies in the date range
    (up to the end of the end day), reaches the dust threshold when one is
    set, and, when the active type has tokens at all, carries a token that is
    selected (any token when none is selected); retained transfers keep their
    order. *)
Theorem filters_in_one_pass (inp : Inputs) :
  filteredData inp = filter (retained inp) (data inp).
Proof.
  unfold filteredData, tokenFilter. rewrite preTokenData_closed.
  destruct (availableTokens (data inp) (activeType inp)) as [|tok toks] eqn:A.
  - simpl. apply filter_ext. intro t. unfold retained. rewrite A.
    now rewrite andb_true_r.
  - cbn [List.length Nat.ltb Nat.leb]. rewrite filter_andb.
    apply filter_ext_in. intros t I. unfold retained. rewrite A.
    destruct (selectedTokens inp) as [|s ss] eqn:S; [|reflexivity].
    cbn [List.length Nat.ltb Nat.leb]. rewrite andb_true_r.
    destruct (TxType_eqb (tx_type t) (activeType inp)) eqn:Ty; [|reflexivity].
    destruct (truthy_str (tx_token t)) eqn:T; [|reflexivity].
    assert (M : set_has (set_from (tok :: toks)) (token_of t) = true).
    { apply set_has_In, set_from_In. rewrite <- A.
      now apply availableTokens_complete. }
    now rewrite M.
Qed.

Lemma tokenFilter_fallback (available : list string) (selected : JSSet string)
    (fd : list Transaction) :
  tokenFilter available selected fd
  = tokenFilter available (if (0 <? List.length selected)%nat then selected
                           else set_from available) fd.
Proof.
  unfold tokenFilter. destruct available as [|a av]; [reflexivity|].
  cbn [List.length Nat.ltb Nat.leb].
  destruct selected as [|s ss]; cbn [List.length Nat.ltb Nat.leb]; [|reflexivity].
  destruct (set_from (a :: av)) as [|x xs] eqn:E; [|reflexivity].
  now apply set_from_nonempty in E.
Qed.

(** X9.  Whatever [toggleAllTokens] does to the selection, the graph is then
    built from the transfers of every available token: clearing the
    selection and selecting all tokens filter alike. *)
Theorem toggle_all_shows_every_token (inp : Inputs) :
  filteredData
    (withSelectedTokens inp
       (toggleAllTokens (availableTokens (data inp) (activeType inp)) (selectedTokens inp)))
  = filteredData (withSelectedTokens inp []).
Proof.
  unfold filteredData, toggleAllTokens.
  change (preTokenData (withSelectedTokens inp ?s)) with (preTokenData inp).
  cbn [withSelectedTokens data activeType selectedTokens].
  destruct (List.length (selectedTokens inp)
            =? List.length (availableTokens (data inp) (activeType inp)))%nat;
    [reflexivity|].
  rewrite (tokenFilter_fallback _ []). cbn [List.length Nat.ltb Nat.leb].
  reflexivity.
Qed.

(** ** Selections with the same members *)

Lemma tokenFilter_members (available : list string) (s s' : JSSet string)
    (fd : list Transaction) :
  (forall x, In x s <-> In x s') ->
  tokenFilter available s fd = tokenFilter available s' fd.
Proof.
  intro M. unfold tokenFilter.
  destruct (0 <? List.length available)%nat; [|reflexivity].
  assert (E : (0 <? List.length s)%nat = (0 <? List.length s')%nat).
  { destruct s as [|x s], s' as [|y s']; try reflexivity.
    - destruct (proj2 (M y)). now left.
    - destruct (proj1 (M x)). now left. }
  rewrite <- E. destruct (0 <? List.length s)%nat; [|reflexivity].
  apply filter_ext. intro t. f_equal.
  destruct (set_has s (token_of t)) eqn:H1.
  - symmetry. apply set_has_In, M. now apply set_has_In.
  - symmetry. apply set_has_false. rewrite <- M. now apply set_has_false.
Qed.

Lemma set_delete_In {K : Type} `{EqKeyOk K} (s : JSSet K) (k x : K) :
  In x (set_delete s k) <-> In x s /\ x <> k.
Proof.
  unfold set_delete. rewrite filter_In, negb_true_iff. split.
  - intros [I E]. split; [assumption | now apply keqb_false].
  - intros [I N]. split; [assumption | now apply keqb_neq].
Qed.

Lemma toggleToken_In (s : JSSet string) (token x : string) :
  In x (toggleToken s token)
  <-> (In x s /\ x <> token) \/ (x = token /\ ~ In token s).
Proof.
  unfold toggleToken. destruct (set_has (set_from s) token) eqn:E.
  - apply set_has_In in E. rewrite set_from_In in E.
    rewrite set_delete_In, set_from_In. tauto.
  - apply set_has_false in E. rewrite set_from_In in E.
    rewrite set_add_In, set_from_In.
    destruct (String.string_dec x token) as [-> | N]; tauto.
Qed.

(** X10.  Toggling a token twice gives back the graph's transfers: the
    selection has the same members as before, and the filters depend on its
    members only. *)
Theorem toggle_token_twice (inp : Inputs) (token : string) :
  filteredData
    (withSelectedTokens inp (toggleToken (toggleToken (selectedTokens inp) token) token))
  = filteredData inp.
Proof.
  unfold filteredData.
  change (preTokenData (withSelectedTokens inp ?s)) with (preTokenData inp).
  cbn [withSelectedTokens data activeType selectedTokens].
  apply tokenFilter_members. intro x. rewrite !toggleToken_In.
  destruct (String.string_dec x token) as [-> | N]; [|tauto].
  destruct (in_dec String.string_dec token (selectedTokens inp)); tauto.
Qed.

(** ** Links *)

Section MapFacts.
Context {K V : Type} `{EqKeyOk K}.

Lemma map_set_keys_gen (m : JSMap K V) (k : K) (v : V) :
  map_keys (map_set m k v) = if map_has m k then map_keys m else map_keys m ++ [k].
Proof.
  unfold map_has. induction m as [|[k' v'] m IH]; simpl; [reflexivity|].
  destruct (keqb k k') eqn:E; simpl; [reflexivity|].
  rewrite IH. now destruct (map_get m k).
Qed.

Lemma map_set_NoDup (m : JSMap K V) (k : K) (v : V) :
  NoDup (map_keys m) -> NoDup (map_keys (map_set m k v)).
Proof.
  intro N. rewrite map_set_keys_gen. destruct (map_has m k) eqn:E; [assumption|].
  assert (I : ~ In k (map_keys m)).
  { rewrite <- map_has_keys. congruence. }
  apply NoDup_rev in N. rewrite <- (rev_involutive (map_keys m ++ [k])).
  apply NoDup_rev. rewrite rev_app_distr. simpl. constructor; [|assumption].
  now rewrite <- in_rev.
Qed.

Lemma map_In_get (m : JSMap K V) (k : K) (v : V) :
  NoDup (map_keys m) -> In (k, v) m -> map_get m k = Some v.
Proof.
  induction m as [|[k' v'] m IH]; simpl; [intros _ []|].
  intros N I. inversion N as [|? ? NI N']; subst.
  destruct I as [E | I].
  - inversion E; subst. now rewrite keqb_refl.
  - rewrite keqb_neq; [now apply IH|].
    intros ->. apply NI. apply in_map_iff. now exists (k', v).
Qed.

Lemma map_values_get (m : JSMap K V) (v : V) :
  NoDup (map_keys m) ->
  In v (map_values m) <-> exists k, map_get m k = Some v.
Proof.
  intro N. unfold map_values. rewrite in_map_iff. split.
  - intros ([k v'] & E & I). simpl in E. subst v'. exists k. now apply map_In_get.
  - intros (k & G). exists (k, v). split; [reflexivity | now apply map_get_In].
Qed.
End MapFacts.

Lemma withKey_snoc (key : string) (fd : list Transaction) (tx : Transaction) :
  withKey key (fd ++ [tx])
  = withKey key fd ++ (if keyOf tx =? key then [tx] else []).
Proof. unfold withKey. rewrite filter_app. reflexivity. Qed.

Lemma add_link_inv (fd : list Transaction) (lm : JSMap string Link) (tx : Transaction) :
  LinkInv fd lm -> LinkInv (fd ++ [tx]) (add_link lm tx).
Proof.
  intros I key. rewrite withKey_snoc. unfold add_link. fold (keyOf tx).
  pose proof (I (keyOf tx)) as I0. pose proof (I key) as Ik. unfold map_has.
  destruct (String.string_dec key (keyOf tx)) as [-> | N].
  - rewrite String.eqb_refl.
    destruct (map_get lm (keyOf tx)) as [l|] eqn:G.
    + rewrite G, map_get_set_same. unfold linkKeyOf in *. cbn [source target isBidirectional count].
      destruct I0 as (E & B & C & tx0 & rest & W & S & T).
      repeat split; try assumption.
      * rewrite length_app, C. reflexivity.
      * exists tx0, (rest ++ [tx]). rewrite W. now repeat split.
    + rewrite map_get_set_same, map_get_set_same. unfold linkKeyOf.
      cbn [source target isBidirectional count]. rewrite I0.
      repeat split. exists tx, []. now repeat split.
  - assert (E : (keyOf tx =? key) = false) by (apply String.eqb_neq; congruence).
    rewrite E, app_nil_r.
    destruct (map_get lm (keyOf tx)) as [l|] eqn:G.
    + rewrite G, map_get_set_other by assumption. exact Ik.
    + rewrite map_get_set_same, !map_get_set_other by assumption. exact Ik.
Qed.

Lemma add_link_NoDup (lm : JSMap string Link) (tx : Transaction) :
  NoDup (map_keys lm) -> NoDup (map_keys (add_link lm tx)).
Proof.
  intro N. unfold add_link.
  set (m1 := if map_has lm _ then lm else _).
  assert (N1 : NoDup (map_keys m1)).
  { unfold m1. destruct (map_has lm _); [assumption | now apply map_set_NoDup]. }
  destruct (map_get m1 _); [now apply map_set_NoDup | assumption].
Qed.

Lemma linkMap_inv (fd : list Transaction) :
  LinkInv fd (linkMap (buildMaps fd)) /\ NoDup (map_keys (linkMap (buildMaps fd))).
Proof.
  induction fd as [|tx fd [I N]] using rev_ind.
  - split; [|constructor]. intro key. reflexivity.
  - rewrite buildMaps_snoc. unfold processTx. cbn [linkMap].
    split; [now apply add_link_inv | now apply add_link_NoDup].
Qed.

Lemma withKey_In (key : string) (fd : list Transaction) (tx : Transaction) :
  In tx (withKey key fd) <-> In tx fd /\ keyOf tx = key.
Proof. unfold withKey. now rewrite filter_In, String.eqb_eq. Qed.

(** The links before the relationship filter are the values of the link
    map, each with its mark. *)
Lemma preFilteredLinks_all (fd : list Transaction) :
  preFilteredLinks (buildMaps fd)
  = map (markBidirectional
           (set_from (map linkKeyOf (map_values (linkMap (buildMaps fd))))))
        (map_values (linkMap (buildMaps fd))).
Proof.
  unfold preFilteredLinks.
  assert (E : filter (fun l => set_has (validNodes (buildMaps fd)) (source l)
                               && set_has (validNodes (buildMaps fd)) (target l))
                     (map_values (linkMap (buildMaps fd)))
              = map_values (linkMap (buildMaps fd))).
  { apply forallb_filter_id. apply forallb_forall. intros l I.
    destruct (linkMap_inv fd) as [Inv N].
    apply (map_values_get _ _ N) in I. destruct I as (k & G).
    pose proof (Inv k) as Ik. rewrite G in Ik.
    destruct Ik as (_ & _ & _ & tx & rest & W & -> & ->).
    assert (It : In tx fd).
    { apply (withKey_In k). rewrite W. now left. }
    destruct (endpoints_are_nodes fd tx It) as [F T].
    apply andb_true_iff. now rewrite !set_has_In. }
  rewrite E. reflexivity.
Qed.

Lemma markBidirectional_same (keys : JSSet string) (l : Link) :
  source (markBidirectional keys l) = source l /\
  target (markBidirectional keys l) = target l /\
  count (markBidirectional keys l) = count l /\
  link_value (markBidirectional keys l) = link_value l.
Proof. unfold markBidirectional. destruct (set_has _ _); repeat split. Qed.

Lemma linkKeyOf_mark (keys : JSSet string) (l : Link) :
  linkKeyOf (markBidirectional keys l) = linkKeyOf l.
Proof.
  unfold linkKeyOf.
  destruct (markBidirectional_same keys l) as (-> & -> & _). reflexivity.
Qed.

Lemma map_linkKeyOf_mark (keys : JSSet string) (ls : list Link) :
  map linkKeyOf (map (markBidirectional keys) ls) = map linkKeyOf ls.
Proof. rewrite map_map. apply map_ext. intro l. apply linkKeyOf_mark. Qed.

Lemma linkMap_keys_values (fd : list Transaction) :
  map linkKeyOf (map_values (linkMap (buildMaps fd))) = map_keys (linkMap (buildMaps fd)).
Proof.
  destruct (linkMap_inv fd) as [Inv N].
  unfold map_values, map_keys. rewrite map_map. apply map_ext_in.
  intros [k l] I. simpl. apply (map_In_get _ _ _ N) in I.
  pose proof (Inv k) as Ik. rewrite I in Ik. tauto.
Qed.

(** X11.  Links aggregate the retained transfers by their from-to key: no
    two links have the same key, every transfer is under a link, and a link
    carries the endpoints of the first transfer with its key and counts the
    transfers with its key. *)
Theorem links_aggregate_transfers (fd : list Transaction) :
  NoDup (map linkKeyOf (preFilteredLinks (buildMaps fd))) /\
  (forall tx, In tx fd ->
     exists l, In l (preFilteredLinks (buildMaps fd)) /\ linkKeyOf l = keyOf tx) /\
  (forall l, In l (preFilteredLinks (buildMaps fd)) ->
     count l = List.length (withKey (linkKeyOf l) fd) /\
     exists tx rest, withKey (linkKeyOf l) fd = tx :: rest /\
                     source l = tx_from tx /\ target l = tx_to tx).
Proof.
  rewrite preFilteredLinks_all. destruct (linkMap_inv fd) as [Inv N].
  split; [|split].
  - now rewrite map_linkKeyOf_mark, linkMap_keys_values.
  - intros tx I. pose proof (Inv (keyOf tx)) as Ik.
    destruct (map_get (linkMap (buildMaps fd)) (keyOf tx)) as [l|] eqn:G.
    + eexists. split.
      * apply in_map. apply (map_values_get _ _ N). exists (keyOf tx). exact G.
      * rewrite linkKeyOf_mark. tauto.
    + assert (I' : In tx (withKey (keyOf tx) fd)) by now apply withKey_In.
      rewrite Ik in I'. destruct I'.
  - intros l I. apply in_map_iff in I. destruct I as (l0 & <- & I).
    apply (map_values_get _ _ N) in I. destruct I as (k & G).
    pose proof (Inv k) as Ik. rewrite G in Ik.
    destruct Ik as (E & _ & C & tx & rest & W & S & T).
    rewrite linkKeyOf_mark, E.
    destruct (markBidirectional_same
                (set_from (map linkKeyOf (map_values (linkMap (buildMaps fd))))) l0)
      as (-> & -> & -> & _).
    split; [assumption|]. now exists tx, rest.
Qed.

(** X12.  A link is marked bidirectional exactly when some retained
    transfer has the key of the reverse direction. *)
Theorem bidirectional_iff_reverse_transfer (fd : list Transaction) (l : Link) :
  In l (preFilteredLinks (buildMaps fd)) ->
  (isBidirectional l = true
   <-> exists tx, In tx fd /\ keyOf tx = linkKey (target l) (source l)).
Proof.
  rewrite preFilteredLinks_all. destruct (linkMap_inv fd) as [Inv N].
  intro I. apply in_map_iff in I. destruct I as (l0 & <- & I).
  apply (map_values_get _ _ N) in I. destruct I as (k & G).
  pose proof (Inv k) as Ik. rewrite G in Ik. destruct Ik as (_ & B & _).
  rewrite linkMap_keys_values.
  destruct (markBidirectional_same (set_from (map_keys (linkMap (buildMaps fd)))) l0)
    as (-> & -> & _).
  set (rk := linkKey (target l0) (source l0)).
  assert (M : set_has (set_from (map_keys (linkMap (buildMaps fd)))) rk = true
              <-> exists tx, In tx fd /\ keyOf tx = rk).
  { rewrite set_has_In, set_from_In, <- map_get_keys.
    pose proof (Inv rk) as Ir. split.
    - intro NN. destruct (map_get (linkMap (buildMaps fd)) rk); [|congruence].
      destruct Ir as (_ & _ & _ & tx & rest & W & _).
      exists tx. apply (withKey_In rk). rewrite W. now left.
    - intros (tx & It & E) G0. rewrite G0 in Ir.
      assert (I' : In tx (withKey rk fd)) by now apply withKey_In.
      rewrite Ir in I'. destruct I'. }
  rewrite <- M. unfold markBidirectional. fold rk.
  destruct (set_has _ rk); cbn [isBidirectional]; [tauto|].
  rewrite B. tauto.
Qed.

Lemma bidirectional_iff_reverse_transfer_witness :
  isBidirectional {| source := Some "a"; target := Some "b"; link_value := 1%float;
                     count := 1; isBidirectional := true |} = true
  <-> exists tx, In tx [transfer "a" "b" 1; transfer "b" "a" 2] /\
                 keyOf tx = linkKey (Some "b") (Some "a").
Proof.
  apply (bidirectional_iff_reverse_transfer
           [transfer "a" "b" 1; transfer "b" "a" 2]
           {| source := Some "a"; target := Some "b"; link_value := 1%float;
              count := 1; isBidirectional := true |}).
  vm_compute. left. reflexivity.
Defined.
(** ** The parts of the result *)

Lemma topology_parts (random : nat -> float) (inp : Inputs) :
  match topology random inp with
  | Ok t =>
      exists hops all,
        computeHops (buildMaps (filteredData inp)) (baseAddresses inp) = Ok hops /\
        Forall (labelled (buildMaps (filteredData inp)) hops) all /\
        nodes t = (if showRelatedOnly inp
                   then filter (isRelated (buildMaps (filteredData inp)) hops) all
                   else all) /\
        links t = filter (fun l => set_has (set_from (map id (nodes t))) (source l)
                                   && set_has (set_from (map id (nodes t))) (target l))
                         (preFilteredLinks (buildMaps (filteredData inp))) /\
        minBal t = num_or (Math_min (map balance (nodes t))) 0.001%float /\
        maxBal t = num_or (Math_max (map balance (nodes t))) 1%float
  | _ => True
  end.
Proof.
  unfold topology.
  destruct (computeHops _ _) as [hops| |]; simpl; trivial.
  destruct (foldM (uniteLink _) _ _) as [[nodeSet parent]| |]; simpl; trivial.
  destruct (fold_left addIsolated _ _) as [nodeSet' parent'].
  destruct (foldM (countRoot _) _ _) as [[parent'' counts]| |]; simpl; trivial.
  match goal with
  | |- context [foldM ?f ?l ?s] =>
      pose proof (nodesFold_labelled random (ufFuel (preFilteredLinks
                    (buildMaps (filteredData inp)))) (theme inp) (sharedLabels inp)
                    (buildMaps (filteredData inp)) counts hops l s (Forall_nil _)) as N;
      destruct (foldM f l s) as [st| |]
  end; simpl; trivial.
  exists hops, (computedNodes st). repeat split; assumption.
Qed.

Lemma computeHops_no_base (m : Maps) : computeHops m [] = Ok [].
Proof.
  unfold computeHops, seedAll. simpl.
  destruct (bfsFuel (adj m) emptyBfs); reflexivity.
Qed.

(** X13.  Without base addresses no node gets a hop label, so the
    relationship filter, when it is on, removes every node and every link and
    leaves the radius scale the domain of the empty graph. *)
Theorem no_base_nothing_related (random : nat -> float) (inp : Inputs) :
  baseAddresses inp = [] ->
  forallb wellFormed (filteredData inp) = true ->
  exists t,
    topology random inp = Ok t /\
    (forall n, In n (nodes t) -> hop n = None) /\
    (showRelatedOnly inp = true ->
     nodes t = [] /\ links t = [] /\ minBal t = infinity /\ maxBal t = neg_infinity).
Proof.
  intros B W.
  destruct (computeHops_exact _ (baseAddresses inp) W) as (hops & Hc & _).
  destruct (topology_after_hops random inp hops Hc) as [Hok _].
  destruct (Hok (validNodes_defined _ W)) as (t & E & _).
  exists t. split; [assumption|].
  pose proof (topology_parts random inp) as P. rewrite E in P.
  destruct P as (hops' & all & Hc' & L & En & El & Emin & Emax).
  rewrite B, computeHops_no_base in Hc'. inversion Hc'. subst hops'.
  rewrite Forall_forall in L.
  assert (N : forall n, In n all -> hop n = None).
  { intros n I. now destruct (L n I). }
  split.
  - intros n I. apply N. rewrite En in I.
    destruct (showRelatedOnly inp); [now apply filter_In in I | assumption].
  - intro R. rewrite R in En.
    assert (E0 : nodes t = []).
    { rewrite En. clear En. induction all as [|n all IH]; [reflexivity|]. simpl.
      unfold isRelated at 1. rewrite (N n) by now left.
      apply IH; intros; [apply L | apply N]; now right. }
    rewrite Emin, Emax, El, E0. repeat split.
    generalize (preFilteredLinks (buildMaps (filteredData inp))).
    intro ls. induction ls as [|l ls IH]; [reflexivity | exact IH].
Qed.

Lemma no_base_nothing_related_witness :
  exists t,
    topology (fun _ => 0%float) triangleUnseeded = Ok t /\
    (forall n, In n (nodes t) -> hop n = None) /\
    (showRelatedOnly triangleUnseeded = true ->
     nodes t = [] /\ links t = [] /\ minBal t = infinity /\ maxBal t = neg_infinity).
Proof.
  apply (no_base_nothing_related (fun _ => 0%float) triangleUnseeded); reflexivity.
Defined.

(** ** The cluster finder computes the connected components *)

Section ClimbFacts.
Context {K : Type} `{EqKeyOk K}.

Lemma climbs_fun (parent : JSMap K K) (i r r' : K) :
  climbs parent i r -> climbs parent i r' -> r = r'.
Proof.
  intro C. revert r'. induction C as [i N | i R | i p r G D C IH]; intros r' C'.
  - inversion C'; subst; congruence.
  - inversion C' as [| |? p' ? G' D' C'']; subst; congruence.
  - inversion C' as [? N | ? R | ? p' ? G' D' C'']; subst; try congruence.
    apply IH. congruence.
Qed.

Lemma climbs_set_self (parent : JSMap K K) (a : K) :
  map_get parent a = None ->
  forall x y, climbs (map_set parent a a) x y <-> climbs parent x y.
Proof.
  intros Na x y. split.
  - induction 1 as [i N | i R | i p r G D C IH].
    + destruct (key_eq_dec i a) as [-> | E].
      * now rewrite map_get_set_same in N.
      * rewrite map_get_set_other in N by assumption. now apply climbs_new.
    + destruct (key_eq_dec i a) as [-> | E].
      * now apply climbs_new.
      * rewrite map_get_set_other in R by assumption. now apply climbs_root.
    + destruct (key_eq_dec i a) as [-> | E].
      * rewrite map_get_set_same in G. congruence.
      * rewrite map_get_set_other in G by assumption. now apply climbs_up with (p := p).
  - induction 1 as [i N | i R | i p r G D C IH].
    + destruct (key_eq_dec i a) as [-> | E].
      * apply climbs_root. apply map_get_set_same.
      * apply climbs_new. now rewrite map_get_set_other.
    + apply climbs_root. rewrite map_get_set_other; [assumption | congruence].
    + apply climbs_up with (p := p); try assumption.
      rewrite map_get_set_other; [assumption | congruence].
Qed.

Lemma closed_set_self (parent : JSMap K K) (a : K) :
  closed parent -> closed (map_set parent a a).
Proof.
  intros C i q G. destruct (key_eq_dec i a) as [-> | E].
  - rewrite map_get_set_same in G. inversion G. subst q.
    rewrite map_get_set_same. discriminate.
  - rewrite map_get_set_other in G by assumption.
    destruct (key_eq_dec q a) as [-> | E'].
    + rewrite map_get_set_same. discriminate.
    + rewrite map_get_set_other by assumption. now apply (C i).
Qed.

(** What [find] returns and what it leaves behind. *)
Lemma find_spec (rank : K -> nat) (c fuel : nat) :
  forall (parent : JSMap K K) (i : K),
    ranked rank c parent -> closed parent -> c - rank i < fuel ->
    exists parent' root,
      find fuel parent i = Ok (parent', root) /\
      ranked rank c parent' /\ closed parent' /\
      map_get parent' root = Some root /\
      climbs parent i root /\
      (forall j p, map_get parent j = Some p -> map_get parent' j = Some p) /\
      (forall k, map_get parent' k <> None -> map_get parent k <> None \/ k = i) /\
      (forall x y, climbs parent' x y <-> climbs parent x y).
Proof.
  induction fuel as [|fuel IH]; intros parent i R Cl F; [lia|].
  simpl. unfold map_has.
  destruct (map_get parent i) as [p|] eqn:G.
  - rewrite G. destruct (keqb p i) eqn:E.
    + apply keqb_eq in E. subst p. exists parent, i.
      split; [reflexivity|]. do 3 (split; [assumption|]).
      split; [now apply climbs_root|]. split; [auto|]. split; [auto | tauto].
    + apply keqb_false in E. destruct R as [Rl Rb].
      pose proof (Rl i p G E) as Lt. pose proof (Rb p) as Bp.
      destruct (IH parent p (conj Rl Rb) Cl) as (parent' & root & Fd & R' & C' & Rt & Cp & K' & N' & S');
        [lia|].
      exists parent', root. do 4 (split; [assumption|]).
      split; [now apply climbs_up with (p := p)|]. split; [assumption|].
      split; [|assumption].
      intros k Nk. destruct (N' k Nk) as [Ok | ->]; [now left|].
      left. now apply (Cl i).
  - rewrite map_get_set_same, keqb_refl.
    exists (map_set parent i i), i. split; [reflexivity|].
    split; [now apply ranked_set_self|]. split; [now apply closed_set_self|].
    split; [apply map_get_set_same|]. split; [now apply climbs_new|].
    split; [|split].
    + intros j p Gj. rewrite map_get_set_other; [assumption | congruence].
    + intros k Nk. destruct (key_eq_dec k i) as [-> | D]; [now right|].
      left. now rewrite map_get_set_other in Nk.
    + now apply climbs_set_self.
Qed.

(** Every address has a root. *)
Lemma climbs_total (rank : K -> nat) (c : nat) (parent : JSMap K K) (i : K) :
  ranked rank c parent -> closed parent -> exists r, climbs parent i r.
Proof.
  intros R Cl.
  destruct (find_spec rank c (S c) parent i R Cl) as (p' & r & _ & _ & _ & _ & C & _); [lia|].
  now exists r.
Qed.

Lemma sameRoot_roots (parent : JSMap K K) (x y rx ry : K) :
  climbs parent x rx -> climbs parent y ry -> (sameRoot parent x y <-> rx = ry).
Proof.
  intros Cx Cy. split.
  - intros (r & C1 & C2).
    rewrite (climbs_fun parent x rx r Cx C1). now rewrite (climbs_fun parent y ry r Cy C2).
  - intros ->. now exists ry.
Qed.

(** Hanging the root [rootI] under the root [rootJ] sends the addresses of
    [rootI] to [rootJ] and leaves the others. *)
Lemma climbs_link (parent : JSMap K K) (rootI rootJ : K) :
  map_get parent rootI = Some rootI -> map_get parent rootJ = Some rootJ ->
  rootI <> rootJ ->
  forall x r',
    climbs (map_set parent rootI rootJ) x r'
    <-> exists r, climbs parent x r /\ r' = if keqb r rootI then rootJ else r.
Proof.
  intros GI GJ D x r'. split.
  - induction 1 as [i N | i R | i p r G Dp C IH].
    + destruct (key_eq_dec i rootI) as [-> | E].
      * now rewrite map_get_set_same in N.
      * rewrite map_get_set_other in N by assumption.
        exists i. split; [now apply climbs_new | now rewrite keqb_neq].
    + destruct (key_eq_dec i rootI) as [-> | E].
      * rewrite map_get_set_same in R. congruence.
      * rewrite map_get_set_other in R by assumption.
        exists i. split; [now apply climbs_root | now rewrite keqb_neq].
    + destruct IH as (r0 & C0 & ->).
      destruct (key_eq_dec i rootI) as [-> | E].
      * rewrite map_get_set_same in G. inversion G. subst p.
        exists rootI. split; [now apply climbs_root|]. rewrite keqb_refl.
        rewrite (climbs_fun parent rootJ r0 rootJ C0 (climbs_root parent rootJ GJ)).
        now rewrite (keqb_neq rootJ rootI) by congruence.
      * rewrite map_get_set_other in G by assumption.
        exists r0. split; [now apply climbs_up with (p := p) | reflexivity].
  - intros (r & C & ->). induction C as [i N | i R | i p r G Dp C IH].
    + assert (E : i <> rootI) by congruence.
      rewrite (keqb_neq i rootI) by assumption.
      apply climbs_new. now rewrite map_get_set_other.
    + destruct (key_eq_dec i rootI) as [-> | E].
      * rewrite keqb_refl. apply climbs_up with (p := rootJ).
        -- apply map_get_set_same.
        -- congruence.
        -- apply climbs_root. rewrite map_get_set_other; [assumption | congruence].
      * rewrite (keqb_neq i rootI) by assumption.
        apply climbs_root. now rewrite map_get_set_other.
    + assert (E : i <> rootI) by congruence.
      apply climbs_up with (p := p); try assumption.
      now rewrite map_get_set_other.
Qed.

(** [union] joins the clusters of its two arguments and no others. *)
Lemma union_spec (rank : K -> nat) (c fuel : nat) (parent : JSMap K K) (i j : K) :
  ranked rank c parent -> closed parent -> c < fuel ->
  exists parent' rank',
    union fuel parent i j = Ok parent' /\
    ranked rank' (S c) parent' /\ closed parent' /\
    (forall k, map_get parent' k <> None -> map_get parent k <> None \/ k = i \/ k = j) /\
    (forall x y,
       sameRoot parent' x y
       <-> sameRoot parent x y \/
           (sameRoot parent x i /\ sameRoot parent j y) \/
           (sameRoot parent x j /\ sameRoot parent i y)).
Proof.
  intros R Cl F. unfold union.
  destruct (find_spec rank c fuel parent i R Cl)
    as (p1 & rootI & F1 & R1 & C1 & T1 & Ci & K1 & N1 & S1); [lia|].
  rewrite F1. simpl.
  destruct (find_spec rank c fuel p1 j R1 C1)
    as (p2 & rootJ & F2 & R2 & C2 & T2 & Cj & K2 & N2 & S2); [lia|].
  rewrite F2. simpl.
  assert (S : forall x y, climbs p2 x y <-> climbs parent x y).
  { intros x y. now rewrite S2, S1. }
  assert (Cj' : climbs parent j rootJ) by now apply S1.
  assert (N : forall k, map_get p2 k <> None -> map_get parent k <> None \/ k = i \/ k = j).
  { intros k Nk. destruct (N2 k Nk) as [N' | ->]; [|tauto].
    destruct (N1 k N') as [? | ->]; tauto. }
  assert (Tot : forall x, exists r, climbs parent x r).
  { intro x. now apply (climbs_total rank c). }
  destruct (keqb rootI rootJ) eqn:E.
  - apply keqb_eq in E. subst rootJ.
    exists p2, rank. split; [reflexivity|].
    split; [apply ranked_weaken with (c := c); [lia | assumption]|].
    do 2 (split; [assumption|]).
    intros x y. destruct (Tot x) as (rx & Cx). destruct (Tot y) as (ry & Cy).
    assert (E2 : sameRoot p2 x y <-> rx = ry).
    { apply sameRoot_roots; now apply S. }
    rewrite E2, (sameRoot_roots parent x y rx ry Cx Cy),
      (sameRoot_roots parent x i rx rootI Cx Ci), (sameRoot_roots parent j y rootI ry Cj' Cy),
      (sameRoot_roots parent x j rx rootI Cx Cj'), (sameRoot_roots parent i y rootI ry Ci Cy).
    intuition congruence.
  - apply keqb_false in E.
    exists (map_set p2 rootI rootJ), (raise rank rootI rootJ).
    split; [reflexivity|].
    split; [now apply ranked_link; auto|].
    assert (GI : map_get p2 rootI = Some rootI) by now apply K2.
    split; [|split].
    + intros a q G. destruct (key_eq_dec a rootI) as [-> | Da].
      * rewrite map_get_set_same in G. inversion G. subst q.
        rewrite map_get_set_other by congruence. congruence.
      * rewrite map_get_set_other in G by assumption.
        destruct (key_eq_dec q rootI) as [-> | Dq].
        -- rewrite map_get_set_same. discriminate.
        -- rewrite map_get_set_other by assumption. now apply (C2 a).
    + intros k Nk. apply N. destruct (key_eq_dec k rootI) as [-> | Dk]; [congruence|].
      now rewrite map_get_set_other in Nk.
    + intros x y. destruct (Tot x) as (rx & Cx). destruct (Tot y) as (ry & Cy).
      rewrite (sameRoot_roots parent x y rx ry Cx Cy),
        (sameRoot_roots parent x i rx rootI Cx Ci), (sameRoot_roots parent j y rootJ ry Cj' Cy),
        (sameRoot_roots parent x j rx rootJ Cx Cj'), (sameRoot_roots parent i y rootI ry Ci Cy).
      set (f := fun r => if keqb r rootI then rootJ else r).
      assert (Lx : climbs (map_set p2 rootI rootJ) x (f rx)).
      { apply climbs_link; try assumption. exists rx. split; [now apply S | reflexivity]. }
      assert (Ly : climbs (map_set p2 rootI rootJ) y (f ry)).
      { apply climbs_link; try assumption. exists ry. split; [now apply S | reflexivity]. }
      rewrite (sameRoot_roots _ x y (f rx) (f ry) Lx Ly). unfold f.
      destruct (key_eq_dec rx rootI) as [-> | Dx]; destruct (key_eq_dec ry rootI) as [-> | Dy];
        rewrite ?keqb_refl, ?(keqb_neq rx rootI), ?(keqb_neq ry rootI) by assumption;
        intuition congruence.
Qed.
End ClimbFacts.
Lemma linked_sym (ls : list Link) (a b : Addr) : linked ls a b -> linked ls b a.
Proof. intros (l & I & E). exists l. tauto. Qed.

Lemma connected_trans (ls : list Link) (a b c : Addr) :
  connected ls a b -> connected ls b c -> connected ls a c.
Proof.
  intros Cab Cbc. induction Cbc as [|b x y Cbx IH L]; [assumption|].
  apply connected_step with (b := x); [now apply IH | assumption].
Qed.

Lemma connected_one (ls : list Link) (a b : Addr) : linked ls a b -> connected ls a b.
Proof. intro L. apply connected_step with (b := a); [constructor | assumption]. Qed.

Lemma connected_sym (ls : list Link) (a b : Addr) : connected ls a b -> connected ls b a.
Proof.
  induction 1 as [|a x y Cax IH L]; [constructor|].
  apply connected_trans with (b := x); [|assumption].
  now apply connected_one, linked_sym.
Qed.

Lemma linked_snoc (ls : list Link) (l : Link) (a b : Addr) :
  linked (ls ++ [l]) a b
  <-> linked ls a b \/ (a = source l /\ b = target l) \/ (a = target l /\ b = source l).
Proof.
  split.
  - intros (x & I & E). apply in_app_iff in I. destruct I as [I | [<- | []]].
    + left. now exists x.
    + right. intuition congruence.
  - intros [(x & I & E) | E].
    + exists x. split; [apply in_app_iff; now left | assumption].
    + exists l. split; [apply in_app_iff; right; now left|]. intuition congruence.
Qed.

Lemma connected_weaken (ls : list Link) (l : Link) (a b : Addr) :
  connected ls a b -> connected (ls ++ [l]) a b.
Proof.
  induction 1 as [|a x y Cax IH L]; [constructor|].
  apply connected_step with (b := x); [assumption|]. apply linked_snoc. now left.
Qed.

(** One more link joins the components of its two ends and no others. *)
Lemma connected_snoc (ls : list Link) (l : Link) (x y : Addr) :
  connected (ls ++ [l]) x y
  <-> connected ls x y \/
      (connected ls x (source l) /\ connected ls (target l) y) \/
      (connected ls x (target l) /\ connected ls (source l) y).
Proof.
  split.
  - induction 1 as [|a b c Cab IH L]; [left; constructor|].
    apply linked_snoc in L. destruct L as [L | [[-> ->] | [-> ->]]].
    + destruct IH as [C | [[C1 C2] | [C1 C2]]].
      * left. now apply connected_step with (b := b).
      * right. left. split; [assumption | now apply connected_step with (b := b)].
      * right. right. split; [assumption | now apply connected_step with (b := b)].
    + destruct IH as [C | [[C1 C2] | [C1 C2]]].
      * right. left. split; [assumption | constructor].
      * right. left. split; [assumption | constructor].
      * left. assumption.
    + destruct IH as [C | [[C1 C2] | [C1 C2]]].
      * right. right. split; [assumption | constructor].
      * left. assumption.
      * right. right. split; [assumption | constructor].
  - assert (L : linked (ls ++ [l]) (source l) (target l)).
    { apply linked_snoc. tauto. }
    intros [C | [[C1 C2] | [C1 C2]]].
    + now apply connected_weaken.
    + apply connected_trans with (b := source l); [now apply connected_weaken|].
      apply connected_trans with (b := target l); [now apply connected_one|].
      now apply connected_weaken.
    + apply connected_trans with (b := target l); [now apply connected_weaken|].
      apply connected_trans with (b := source l);
        [now apply connected_one, linked_sym|].
      now apply connected_weaken.
Qed.

Lemma connected_ends (ls : list Link) (a b : Addr) :
  connected ls a b ->
  a = b \/ exists l, In l ls /\ (b = source l \/ b = target l).
Proof.
  induction 1 as [|a x y Cax IH (l & I & E)]; [now left|].
  right. exists l. split; [assumption|]. intuition congruence.
Qed.

Lemma UFInv_empty : UFInv (fun _ => 0) 0 [] [] [].
Proof.
  constructor.
  - apply ranked_empty.
  - intros i q G. discriminate.
  - intros k N. now contradiction N.
  - intros x y. split.
    + intros (r & Cx & Cy).
      inversion Cx; subst; try discriminate. inversion Cy; subst; try discriminate.
      constructor.
    + intro C. destruct (connected_ends [] x y C) as [-> | (l & [] & _)].
      exists y. split; now apply climbs_new.
Qed.

(** Uniting the links one by one keeps the roots in step with the chains of
    links. *)
Lemma uniteFold_spec (fuel : nat) (l : list Link) :
  forall (done : list Link) (nodeSet : JSSet Addr) (parent : JSMap Addr Addr)
         (rank : Addr -> nat) (c : nat),
    UFInv rank c done nodeSet parent -> NoDup nodeSet ->
    c + List.length l <= fuel ->
    exists nodeSet' parent' rank',
      foldM (uniteLink fuel) l (nodeSet, parent) = Ok (nodeSet', parent') /\
      UFInv rank' (c + List.length l) (done ++ l) nodeSet' parent' /\
      NoDup nodeSet' /\
      (forall a, In a nodeSet' <->
                 In a nodeSet \/ exists x, In x l /\ (a = source x \/ a = target x)).
Proof.
  induction l as [|x l IH]; intros done nodeSet parent rank c I N F; simpl.
  - exists nodeSet, parent, rank. rewrite Nat.add_0_r, app_nil_r.
    split; [reflexivity|]. do 2 (split; [assumption|]). intro a. split; [tauto|].
    intros [? | (? & [] & _)]. assumption.
  - simpl in F. destruct I as [R Cl Ks Cn].
    destruct (union_spec rank c fuel parent (source x) (target x) R Cl)
      as (p1 & rank1 & U & R1 & C1 & K1 & S1); [lia|].
    unfold JSMap in *. rewrite U. simpl.
    set (ns1 := set_add (set_add nodeSet (source x)) (target x)).
    destruct (IH (done ++ [x]) ns1 p1 rank1 (S c)) as (ns' & p' & rank' & Fd & I' & N' & M');
      [| |lia|].
    + constructor; try assumption.
      * intros k Nk. unfold ns1. rewrite !set_add_In.
        destruct (K1 k Nk) as [Nk' | [-> | ->]]; [|tauto|tauto].
        left. left. now apply Ks.
      * intros a b. rewrite S1, connected_snoc, !Cn. tauto.
    + unfold ns1. now apply set_add_NoDup, set_add_NoDup.
    + exists ns', p', rank'. replace (c + S (List.length l)) with (S c + List.length l) by lia.
      split; [assumption|]. split; [now rewrite <- app_assoc in I'|].
      split; [assumption|]. intro a. rewrite M'. unfold ns1. rewrite !set_add_In.
      split.
      * intros [[[Ia | ->] | ->] | (y & Iy & E)]; [now left | | |];
          right; [exists x | exists x | exists y]; simpl; tauto.
      * intros [Ia | (y & [<- | Iy] & E)]; [tauto | tauto |].
        right. now exists y.
Qed.

Lemma isolatedFold_spec (rank : Addr -> nat) (c : nat) (done : list Link) (l : list Addr) :
  forall (nodeSet : JSSet Addr) (parent : JSMap Addr Addr),
    UFInv rank c done nodeSet parent -> NoDup nodeSet ->
    exists nodeSet' parent',
      fold_left addIsolated l (nodeSet, parent) = (nodeSet', parent') /\
      UFInv rank c done nodeSet' parent' /\
      NoDup nodeSet' /\
      (forall a, In a nodeSet' <-> In a nodeSet \/ In a l).
Proof.
  induction l as [|x l IH]; intros nodeSet parent I N; simpl.
  - exists nodeSet, parent. split; [reflexivity|]. do 2 (split; [assumption|]).
    intro a. tauto.
  - destruct (set_has nodeSet x) eqn:E.
    + destruct (IH nodeSet parent I N) as (ns' & p' & Fd & I' & N' & M').
      exists ns', p'. do 3 (split; [assumption|]). intro a. rewrite M'.
      apply set_has_In in E. intuition congruence.
    + destruct I as [R Cl Ks Cn].
      assert (G : map_get parent x = None).
      { destruct (map_get parent x) eqn:G; [|reflexivity].
        apply set_has_false in E. exfalso. apply E, Ks. congruence. }
      destruct (IH (set_add nodeSet x) (map_set parent x x)) as (ns' & p' & Fd & I' & N' & M').
      * constructor.
        -- now apply ranked_set_self.
        -- now apply closed_set_self.
        -- intros k Nk. apply set_add_In.
           destruct (key_eq_dec k x) as [-> | D]; [now right|].
           left. apply Ks. now rewrite map_get_set_other in Nk.
        -- intros a b. rewrite <- Cn. unfold sameRoot.
           split; intros (r & Ca & Cb); exists r;
             split; now apply (climbs_set_self parent x G).
      * now apply set_add_NoDup.
      * exists ns', p'. do 3 (split; [assumption|]). intro a.
        rewrite M', set_add_In. intuition congruence.
Qed.
Lemma rootOf_climbs (rank : Addr -> nat) (c fuel : nat) (parent : JSMap Addr Addr)
    (a : Addr) :
  ranked rank c parent -> closed parent -> c < fuel ->
  climbs parent a (rootOf fuel parent a).
Proof.
  intros R Cl F. unfold rootOf.
  destruct (find_spec rank c fuel parent a R Cl) as (p' & r & -> & _ & _ & _ & C & _);
    [lia | assumption].
Qed.

Lemma countOf_set (counts : JSMap Addr nat) (r r' : Addr) (n : nat) :
  countOf (map_set counts r n) r' = if keqb r r' then n else countOf counts r'.
Proof.
  unfold countOf. destruct (key_eq_dec r r') as [-> | D].
  - now rewrite map_get_set_same, keqb_refl.
  - rewrite map_get_set_other by congruence. now rewrite keqb_neq.
Qed.

(** The counting pass leaves the roots alone and counts, under every root,
    the addresses that climb to it. *)
Lemma countFold_spec (rank : Addr -> nat) (c fuel : nat) (p0 : JSMap Addr Addr)
    (root : Addr -> Addr) (l : list Addr) :
  c < fuel -> (forall a, climbs p0 a (root a)) ->
  forall (parent : JSMap Addr Addr) (counts : JSMap Addr nat),
    ranked rank c parent -> closed parent ->
    (forall x y, climbs parent x y <-> climbs p0 x y) ->
    exists parent' counts',
      foldM (countRoot fuel) l (parent, counts) = Ok (parent', counts') /\
      ranked rank c parent' /\ closed parent' /\
      (forall x y, climbs parent' x y <-> climbs p0 x y) /\
      (forall r, countOf counts' r
                 = countOf counts r + List.length (filter (fun a => keqb (root a) r) l)).
Proof.
  intros F Rt. induction l as [|x l IH]; intros parent counts R Cl S; simpl.
  - exists parent, counts. split; [reflexivity|]. do 3 (split; [assumption|]).
    intro r. lia.
  - destruct (find_spec rank c fuel parent x R Cl)
      as (p1 & r1 & Fd & R1 & C1 & _ & Cx & _ & _ & S1); [lia|].
    unfold JSMap in *. rewrite Fd. simpl.
    assert (E : r1 = root x).
    { apply (climbs_fun p0 x); [now apply S | apply Rt]. }
    subst r1.
    destruct (IH p1 (map_set counts (root x) (countOf counts (root x) + 1)) R1 C1)
      as (p' & counts' & Fd' & R' & C' & S' & N').
    { intros a b. now rewrite S1. }
    exists p', counts'. fold (countOf counts (root x)).
    split; [assumption|]. do 3 (split; [assumption|]).
    intro r. rewrite N', countOf_set.
    change (ostr_eqb (root x) r) with (keqb (root x) r).
    destruct (keqb (root x) r) eqn:E; simpl; [|reflexivity].
    apply keqb_eq in E. subst r. lia.
Qed.

Lemma cluster_self (root : Addr -> Addr) (nodeSet : JSSet Addr) (a : Addr) :
  In a nodeSet -> 0 < List.length (cluster root nodeSet a).
Proof.
  intro I. assert (I' : In a (cluster root nodeSet a)).
  { apply filter_In. split; [assumption | apply keqb_refl]. }
  destruct (cluster root nodeSet a); [destruct I' | simpl; lia].
Qed.

Lemma clustered_grow (theme : Theme) (root : Addr -> Addr) (nodeSet : JSSet Addr)
    (colors : JSMap Addr Color) (r : Addr) (col : Color) (n : AddressNode) :
  map_has colors r = false ->
  clustered theme root nodeSet colors n ->
  clustered theme root nodeSet (map_set colors r col) n.
Proof.
  intros Hn [S [Sm | (B & G & M & Cc)]]; (split; [assumption|]); [now left|].
  right. do 2 (split; [assumption|]). split; [|assumption].
  rewrite map_get_set_other; [assumption|].
  intros E. rewrite E in M. unfold map_has in Hn. now rewrite M in Hn.
Qed.

(** One node: its cluster size is the count under its root, and a large
    cluster's colour is the one kept for the root. *)
Lemma buildNode_cluster (random : nat -> float) (rank : Addr -> nat) (c fuel : nat)
    theme labels m counts hops (p0 : JSMap Addr Addr) (root : Addr -> Addr)
    (nodeSet : JSSet Addr) (st : NodeState) (a : Addr) :
  c < fuel -> (forall a, climbs p0 a (root a)) ->
  (forall a, In a nodeSet ->
             countOf counts (root a) = List.length (cluster root nodeSet a)) ->
  In a nodeSet ->
  ranked rank c (ns_parent st) -> closed (ns_parent st) ->
  (forall x y, climbs (ns_parent st) x y <-> climbs p0 x y) ->
  (forall r col, map_get (rootColors st) r = Some col -> exists t, col = Sinebow t) ->
  Forall (clustered theme root nodeSet (rootColors st)) (computedNodes st) ->
  match buildNode random fuel theme labels m counts hops st a with
  | Ok st' =>
      ranked rank c (ns_parent st') /\ closed (ns_parent st') /\
      (forall x y, climbs (ns_parent st') x y <-> climbs p0 x y) /\
      (forall r col, map_get (rootColors st') r = Some col -> exists t, col = Sinebow t) /\
      Forall (clustered theme root nodeSet (rootColors st')) (computedNodes st') /\
      map id (computedNodes st') = map id (computedNodes st) ++ [a]
  | _ => True
  end.
Proof.
  intros F Rt Cn Ia R Cl S Sb Fa. unfold buildNode.
  destruct (find_spec rank c fuel (ns_parent st) a R Cl)
    as (p1 & r1 & Fd & R1 & C1 & _ & Cx & _ & _ & S1); [lia|].
  unfold JSMap in *. rewrite Fd. simpl.
  assert (E : r1 = root a).
  { apply (climbs_fun p0 a); [now apply S | apply Rt]. }
  subst r1.
  pose proof (Cn a Ia) as Ca. pose proof (cluster_self root nodeSet a Ia) as Pos.
  unfold countOf in Ca.
  destruct (map_get counts (root a)) as [[|k]|] eqn:G; try lia.
  rewrite Ca.
  set (size := List.length (cluster root nodeSet a)) in *.
  destruct (GROUP_THRESHOLD <? size)%nat eqn:Big.
  - apply Nat.ltb_lt in Big.
    destruct (map_has (rootColors st) (root a)) eqn:Has.
    + unfold map_has in Has.
      destruct (map_get (rootColors st) (root a)) as [col|] eqn:Gc; [|discriminate].
      destruct (getNodeType a labels); simpl; trivial.
      do 3 (split; [first [assumption | intros x y; now rewrite S1]|]).
      split; [assumption|]. split; [|now rewrite map_app].
      apply Forall_app. split; [assumption|]. constructor; [|constructor].
      split; [reflexivity|]. right. cbn [groupSize groupId id groupColor].
      repeat split; try assumption. now apply (Sb (root a)).
    + rewrite map_get_set_same.
      destruct (getNodeType a labels); simpl; trivial.
      do 3 (split; [first [assumption | intros x y; now rewrite S1]|]).
      split; [|split; [|now rewrite map_app]].
      * intros r col Gr. destruct (key_eq_dec r (root a)) as [-> | D].
        -- rewrite map_get_set_same in Gr. inversion Gr. eauto.
        -- rewrite map_get_set_other in Gr by assumption. now apply (Sb r).
      * apply Forall_app. split.
        -- eapply Forall_impl; [|exact Fa]. intros n Hn. now apply clustered_grow.
        -- constructor; [|constructor].
           split; [reflexivity|]. right. cbn [groupSize groupId id groupColor].
           repeat split; try assumption; [apply map_get_set_same | eauto].
  - apply Nat.ltb_ge in Big.
    destruct (getNodeType a labels); simpl; trivial.
    do 3 (split; [first [assumption | intros x y; now rewrite S1]|]).
    split; [assumption|]. split; [|now rewrite map_app].
    apply Forall_app. split; [assumption|]. constructor; [|constructor].
    split; [reflexivity|]. left. cbn [groupSize groupId id groupColor]. auto.
Qed.

Lemma nodesFold_cluster (random : nat -> float) (rank : Addr -> nat) (c fuel : nat)
    theme labels m counts hops (p0 : JSMap Addr Addr) (root : Addr -> Addr)
    (nodeSet : JSSet Addr) (l : list Addr) :
  c < fuel -> (forall a, climbs p0 a (root a)) ->
  (forall a, In a nodeSet ->
             countOf counts (root a) = List.length (cluster root nodeSet a)) ->
  (forall a, In a l -> In a nodeSet) ->
  forall st : NodeState,
    ranked rank c (ns_parent st) -> closed (ns_parent st) ->
    (forall x y, climbs (ns_parent st) x y <-> climbs p0 x y) ->
    (forall r col, map_get (rootColors st) r = Some col -> exists t, col = Sinebow t) ->
    Forall (clustered theme root nodeSet (rootColors st)) (computedNodes st) ->
    match foldM (buildNode random fuel theme labels m counts hops) l st with
    | Ok st' =>
        Forall (clustered theme root nodeSet (rootColors st')) (computedNodes st') /\
        map id (computedNodes st') = map id (computedNodes st) ++ l
    | _ => True
    end.
Proof.
  intros F Rt Cn. induction l as [|a l IH]; intros Il st R Cl S Sb Fa; simpl.
  - split; [assumption | now rewrite app_nil_r].
  - pose proof (buildNode_cluster random rank c fuel theme labels m counts hops p0 root
                  nodeSet st a F Rt Cn (Il a (or_introl eq_refl)) R Cl S Sb Fa) as B.
    destruct (buildNode random fuel theme labels m counts hops st a) as [st1| |];
      simpl; trivial.
    destruct B as (R1 & C1 & S1 & Sb1 & Fa1 & E1).
    pose proof (IH (fun x I => Il x (or_intror I)) st1 R1 C1 S1 Sb1 Fa1) as N.
    destruct (foldM _ l st1) as [st'| |]; trivial.
    destruct N as [Fa' E']. split; [assumption|].
    rewrite E', E1, <- app_assoc. reflexivity.
Qed.
(** The clusters of a result: the nodes before the relationship filter, a
    root for every address, and the colours kept for the roots. *)
Lemma topology_clusters (random : nat -> float) (inp : Inputs) :
  match topology random inp with
  | Ok t =>
      exists (hops : JSMap Addr nat) (all : list AddressNode) (root : Addr -> Addr)
             (colors : JSMap Addr Color),
        computeHops (buildMaps (filteredData inp)) (baseAddresses inp) = Ok hops /\
        nodes t = (if showRelatedOnly inp
                   then filter (isRelated (buildMaps (filteredData inp)) hops) all
                   else all) /\
        (forall n, In n (nodes t) -> In n all) /\
        NoDup (map id all) /\
        (forall a, In a (map id all)
                   <-> In a (validNodes (buildMaps (filteredData inp)))) /\
        (forall x y, root x = root y
                     <-> connected (preFilteredLinks (buildMaps (filteredData inp))) x y) /\
        Forall (clustered (theme inp) root (map id all) colors) all
  | _ => True
  end.
Proof.
  unfold topology.
  destruct (computeHops _ _) as [hops| |]; simpl; trivial.
  set (m := buildMaps (filteredData inp)).
  set (pre := preFilteredLinks m). set (fuel := ufFuel pre).
  destruct (uniteFold_spec fuel pre [] [] [] (fun _ => 0) 0 UFInv_empty (NoDup_nil _))
    as (ns1 & p1 & rank1 & F1 & I1 & N1 & M1).
  { unfold fuel, ufFuel. lia. }
  unfold JSSet, JSMap in *. rewrite F1. simpl.
  destruct (isolatedFold_spec rank1 (List.length pre) pre (validNodes m) ns1 p1 I1 N1)
    as (ns2 & p2 & F2 & I2 & N2 & M2).
  unfold JSSet, JSMap in *. rewrite F2.
  destruct I2 as [R2 C2 K2 Cn2].
  assert (Fl : List.length pre < fuel) by (unfold fuel, ufFuel; lia).
  set (root := rootOf fuel p2).
  assert (Rt : forall a, climbs p2 a (root a)).
  { intro a. now apply (rootOf_climbs rank1 (List.length pre)). }
  destruct (countFold_spec rank1 (List.length pre) fuel p2 root ns2 Fl Rt p2 [] R2 C2)
    as (p3 & counts & F3 & R3 & C3 & S3 & Cnt); [tauto|].
  unfold JSSet, JSMap in *. rewrite F3. simpl.
  assert (V2 : forall a, In a ns2 <-> In a (validNodes m)).
  { intro a. rewrite M2, M1. split; [|tauto].
    intros [[[] | (x & Ix & [-> | ->])] | I]; try assumption;
      now destruct (preFilteredLinks_valid m x Ix). }
  assert (Hc : forall a, In a ns2 ->
                         countOf counts (root a) = List.length (cluster root ns2 a)).
  { intros a _. now rewrite Cnt. }
  match goal with
  | |- context [foldM ?f ns2 ?s] =>
      pose proof (nodesFold_cluster random rank1 (List.length pre) fuel (theme inp)
                    (sharedLabels inp) m counts hops p2 root ns2 ns2 Fl Rt Hc
                    (fun a I => I) s R3 C3 S3) as N;
      destruct (foldM f ns2 s) as [st| |]
  end; simpl; trivial.
  destruct N as [Fa E]; [discriminate | constructor|].
  simpl in E. exists hops, (computedNodes st), root, (rootColors st).
  rewrite E. do 2 (split; [reflexivity|]).
  split; [|split; [assumption|split; [assumption|split]]].
  - intros n I. destruct (showRelatedOnly inp); [now apply filter_In in I | assumption].
  - intros x y. rewrite <- Cn2. split.
    + intro Exy. exists (root x). split; [apply Rt | rewrite Exy; apply Rt].
    + intros (r & Cx & Cy).
      rewrite (climbs_fun p2 x (root x) r (Rt x) Cx).
      now rewrite (climbs_fun p2 y (root y) r (Rt y) Cy).
  - assumption.
Qed.
Lemma cluster_same_root (root : Addr -> Addr) (nodeSet : JSSet Addr) (a b : Addr) :
  root a = root b -> cluster root nodeSet a = cluster root nodeSet b.
Proof. intro E. unfold cluster. now rewrite E. Qed.

(** X14.  The group size of a node is the size of its connected component:
    it counts the addresses that a chain of links (before the relationship
    filter) joins to the node, the node included. *)
Theorem group_size_counts_component (random : nat -> float) (inp : Inputs) :
  match topology random inp with
  | Ok t =>
      forall n, In n (nodes t) ->
        exists component,
          NoDup component /\
          (forall a, In a component
                     <-> connected (preFilteredLinks (buildMaps (filteredData inp))) (id n) a) /\
          groupSize n = List.length component
  | _ => True
  end.
Proof.
  pose proof (topology_clusters random inp) as P.
  destruct (topology random inp) as [t| |]; trivial.
  destruct P as (hops & all & root & colors & _ & _ & Sub & N & V & Cn & Fa).
  intros n I. apply Sub in I. rewrite Forall_forall in Fa.
  destruct (Fa n I) as [Sz _].
  exists (cluster root (map id all) (id n)). split; [|split; [|assumption]].
  - now apply NoDup_filter.
  - intro a. unfold cluster. rewrite filter_In.
    change (ostr_eqb (root a) (root (id n))) with (keqb (root a) (root (id n))).
    rewrite keqb_eq, Cn. split.
    + intros [_ C]. now apply connected_sym.
    + intro C. split; [|now apply connected_sym].
      destruct (connected_ends _ _ _ C) as [<- | (l & Il & E)].
      * now apply in_map.
      * apply V. destruct (preFilteredLinks_valid _ l Il). now destruct E as [-> | ->].
Qed.

(** X15.  A cluster of more than three addresses gets group id 1 and a
    colour of the sinebow scale; a smaller one gets group id 0 and the
    default colour of the theme.  Nodes joined by a chain of links agree on
    group size, group id and colour. *)
Theorem clusters_share_attributes (random : nat -> float) (inp : Inputs) :
  match topology random inp with
  | Ok t =>
      (forall n, In n (nodes t) ->
         (groupSize n <= GROUP_THRESHOLD /\ groupId n = 0 /\
          groupColor n = defaultColor (theme inp)) \/
         (GROUP_THRESHOLD < groupSize n /\ groupId n = 1 /\
          exists c, groupColor n = Sinebow c)) /\
      (forall n1 n2, In n1 (nodes t) -> In n2 (nodes t) ->
         connected (preFilteredLinks (buildMaps (filteredData inp))) (id n1) (id n2) ->
         groupSize n1 = groupSize n2 /\ groupId n1 = groupId n2 /\
         groupColor n1 = groupColor n2)
  | _ => True
  end.
Proof.
  pose proof (topology_clusters random inp) as P.
  destruct (topology random inp) as [t| |]; trivial.
  destruct P as (hops & all & root & colors & _ & _ & Sub & N & V & Cn & Fa).
  rewrite Forall_forall in Fa. split.
  - intros n I. destruct (Fa n (Sub n I)) as [_ [Sm | (B & G & _ & C)]]; tauto.
  - intros n1 n2 I1 I2 C. apply Cn in C.
    destruct (Fa n1 (Sub n1 I1)) as [S1 A1]. destruct (Fa n2 (Sub n2 I2)) as [S2 A2].
    assert (E : groupSize n1 = groupSize n2).
    { rewrite S1, S2. now apply f_equal, cluster_same_root. }
    split; [assumption|].
    destruct A1 as [(L1 & G1 & C1) | (L1 & G1 & M1 & _)];
      destruct A2 as [(L2 & G2 & C2) | (L2 & G2 & M2 & _)]; try lia.
    + split; congruence.
    + split; [congruence|]. rewrite C in M1. congruence.
Qed.

Lemma NoDup_map_filter {A B : Type} (g : A -> B) (f : A -> bool) (l : list A) :
  NoDup (map g l) -> NoDup (map g (filter f l)).
Proof.
  induction l as [|x l IH]; simpl; intro N; [constructor|].
  inversion N as [|? ? NI N']; subst.
  destruct (f x); simpl; [|now apply IH].
  constructor; [|now apply IH].
  intro I. apply NI. apply in_map_iff in I. destruct I as (y & E & I).
  apply filter_In in I. apply in_map_iff. exists y. tauto.
Qed.

(** A construction that returns was given transfers with both endpoints. *)
Lemma topology_ok_wellFormed (random : nat -> float) (inp : Inputs) (t : Topology) :
  topology random inp = Ok t -> forallb wellFormed (filteredData inp) = true.
Proof.
  intro E. destruct (forallb wellFormed (filteredData inp)) eqn:W; [reflexivity|].
  pose proof (validNodes_undefined _ W) as N.
  destruct (computeHops_cases (buildMaps (filteredData inp)) (baseAddresses inp))
    as [Ec | (hops & Hc)].
  - unfold topology in E. rewrite Ec in E. discriminate.
  - destruct (topology_after_hops random inp hops Hc) as [_ Hth].
    rewrite (Hth N) in E. discriminate.
Qed.

(** X16.  No two nodes of a result have the same id; every node is an
    endpoint, present as a string, of a retained transfer; and with the
    relationship filter off every such endpoint is a node. *)
Theorem nodes_are_the_endpoints (random : nat -> float) (inp : Inputs) :
  match topology random inp with
  | Ok t =>
      NoDup (map id (nodes t)) /\
      (forall n, In n (nodes t) ->
                 id n <> None /\ isNode (filteredData inp) (id n) = true) /\
      (showRelatedOnly inp = false ->
       forall a, isNode (filteredData inp) a = true -> In a (map id (nodes t)))
  | _ => True
  end.
Proof.
  pose proof (topology_clusters random inp) as P.
  destruct (topology random inp) as [t| |] eqn:E; trivial.
  destruct P as (hops & all & root & colors & _ & En & Sub & N & V & _).
  pose proof (topology_ok_wellFormed random inp t E) as W.
  split; [|split].
  - rewrite En. destruct (showRelatedOnly inp); [now apply NoDup_map_filter | assumption].
  - intros n I. apply Sub in I.
    assert (Iv : In (id n) (validNodes (buildMaps (filteredData inp)))).
    { apply V. now apply in_map. }
    split; [now apply (validNodes_defined _ W) | now apply validNodes_spec].
  - intros R a Ia. rewrite En, R. apply V. now apply validNodes_spec.
Qed.

(** ** Trace candidates *)

#[export] Instance nat_EqKeyOk : EqKeyOk nat.
Proof. intros a b. apply Nat.eqb_eq. Qed.

Lemma filterM_pure {A : Type} (p : A -> result bool) (f : A -> bool) (l : list A) :
  (forall x, In x l -> p x = Ok (f x)) -> filterM p l = Ok (filter f l).
Proof.
  induction l as [|x l IH]; intro P; simpl; [reflexivity|].
  rewrite (P x) by now left. simpl.
  rewrite IH by (intros y I; apply P; now right). simpl.
  now destruct (f x).
Qed.

Lemma insert_by_hop_level (h : nat) (n : AddressNode) (l : list AddressNode) :
  filter (atHop h) (insert_by_hop n l)
  = if atHop h n then n :: filter (atHop h) l else filter (atHop h) l.
Proof.
  induction l as [|x l IH]; simpl; [reflexivity|].
  destruct (hopOrZero n <? hopOrZero x)%nat eqn:L; simpl; [|reflexivity].
  rewrite IH. apply Nat.ltb_lt in L. unfold atHop.
  destruct (hopOrZero x =? h)%nat eqn:Ex; [|reflexivity].
  apply Nat.eqb_eq in Ex.
  assert (E : (hopOrZero n =? h)%nat = false) by (apply Nat.eqb_neq; lia).
  now rewrite E.
Qed.

Lemma sort_by_hop_level (h : nat) (l : list AddressNode) :
  filter (atHop h) (sort_by_hop_desc l) = filter (atHop h) l.
Proof.
  unfold sort_by_hop_desc. induction l as [|n l IH]; simpl; [reflexivity|].
  now rewrite insert_by_hop_level, IH.
Qed.

Lemma insert_by_hop_In (n x : AddressNode) (l : list AddressNode) :
  In x (insert_by_hop n l) <-> x = n \/ In x l.
Proof.
  induction l as [|y l IH]; simpl; [intuition|].
  destruct (hopOrZero n <? hopOrZero y)%nat; simpl; [rewrite IH|]; intuition.
Qed.

Lemma sort_by_hop_In (x : AddressNode) (l : list AddressNode) :
  In x (sort_by_hop_desc l) <-> In x l.
Proof.
  unfold sort_by_hop_desc. induction l as [|n l IH]; simpl; [tauto|].
  rewrite insert_by_hop_In, IH. intuition.
Qed.

Lemma insert_by_hop_sorted (n : AddressNode) (l : list AddressNode) :
  StronglySorted (fun a b => hopOrZero b <= hopOrZero a) l ->
  StronglySorted (fun a b => hopOrZero b <= hopOrZero a) (insert_by_hop n l).
Proof.
  induction l as [|x l IH]; intro S; simpl.
  - repeat constructor.
  - inversion S as [|? ? S' Fx]; subst.
    destruct (hopOrZero n <? hopOrZero x)%nat eqn:L.
    + apply Nat.ltb_lt in L. constructor; [now apply IH|].
      apply Forall_forall. intros y I. apply insert_by_hop_In in I.
      destruct I as [-> | I]; [lia|]. rewrite Forall_forall in Fx. now apply Fx.
    + apply Nat.ltb_ge in L. constructor; [assumption|].
      constructor; [assumption|].
      eapply Forall_impl; [|exact Fx]. simpl. intros y Ly. lia.
Qed.

Lemma sort_by_hop_sorted (l : list AddressNode) :
  StronglySorted (fun a b => hopOrZero b <= hopOrZero a) (sort_by_hop_desc l).
Proof.
  unfold sort_by_hop_desc. induction l as [|n l IH]; simpl; [constructor|].
  now apply insert_by_hop_sorted.
Qed.

Lemma candidateList_pure (nodes : list AddressNode) (bases traced : JSSet string) :
  forallb hasId nodes = true ->
  candidateList nodes bases traced
  = Ok (sort_by_hop_desc
          (filter (untraced traced) (filter (inPool bases) nodes))).
Proof.
  intro W. rewrite forallb_forall in W. unfold candidateList.
  rewrite (filterM_pure _ (inPool bases)).
  - simpl. rewrite (filterM_pure _ (untraced traced)); [reflexivity|].
    intros n I. apply filter_In in I. destruct I as [I _].
    specialize (W n I). unfold hasId, untraced in *. now destruct (id n).
  - intros n I. specialize (W n I). unfold hasId, inPool in *.
    destruct (hop n); [reflexivity|]. now destruct (id n).
Qed.

(** X17.  On nodes that all have an id, the candidate list is computed
    without an error: it holds exactly the nodes that have a hop or a base
    address as lower-cased id and whose lower-cased id is not traced yet,
    farthest hop first, and within one hop in the order of the nodes. *)
Theorem candidates_farthest_first (nodes : list AddressNode)
    (baseAddresses tracedAddresses : JSSet string) :
  forallb hasId nodes = true ->
  exists l,
    candidateList nodes baseAddresses tracedAddresses = Ok l /\
    (forall n, In n l <-> In n nodes /\ inPool baseAddresses n = true /\
                          untraced tracedAddresses n = true) /\
    StronglySorted (fun a b => hopOrZero b <= hopOrZero a) l /\
    (forall h, filter (atHop h) l
               = filter (atHop h)
                   (filter (fun n => inPool baseAddresses n && untraced tracedAddresses n)
                           nodes)).
Proof.
  intro W. rewrite candidateList_pure by assumption. eexists. split; [reflexivity|].
  split; [|split].
  - intro n. rewrite sort_by_hop_In, !filter_In. tauto.
  - apply sort_by_hop_sorted.
  - intro h. rewrite sort_by_hop_level. f_equal. apply filter_andb.
Qed.

Lemma candidates_farthest_first_witness :
  exists l,
    candidateList [node "A" (Some 0); node "b" (Some 1); node "c" None; node "d" (Some 1)]
                  [] ["a"] = Ok l /\
    (forall n, In n l <->
               In n [node "A" (Some 0); node "b" (Some 1); node "c" None; node "d" (Some 1)]
               /\ inPool [] n = true /\ untraced ["a"] n = true) /\
    StronglySorted (fun a b => hopOrZero b <= hopOrZero a) l /\
    (forall h, filter (atHop h) l
               = filter (atHop h)
                   (filter (fun n => inPool [] n && untraced ["a"] n)
                           [node "A" (Some 0); node "b" (Some 1); node "c" None;
                            node "d" (Some 1)])).
Proof.
  apply (candidates_farthest_first
           [node "A" (Some 0); node "b" (Some 1); node "c" None; node "d" (Some 1)]
           [] ["a"]).
  reflexivity.
Defined.

Lemma lowered_base_matches (bases : JSSet string) (s : string) :
  set_has bases (toLowerCase s) = true -> matchesBase bases (Some s) = true.
Proof.
  intro H. apply set_has_In in H. unfold matchesBase. apply existsb_exists.
  exists (toLowerCase s). split; [assumption|].
  rewrite toLowerCase_idem. apply String.eqb_refl.
Qed.

(** X18.  On the nodes of a graph the candidate list never throws, and the
    base-address clause of its pool adds nothing: a node whose lower-cased id
    is a base address has hop 0, so the candidates are exactly the nodes that
    have a hop and are not traced yet. *)
Theorem graph_candidates_have_hops (random : nat -> float) (inp : Inputs)
    (tracedAddresses : JSSet string) :
  match topology random inp with
  | Ok t =>
      exists l,
        candidateList (nodes t) (baseAddresses inp) tracedAddresses = Ok l /\
        forall n, In n l <-> In n (nodes t) /\ hop n <> None /\
                             untraced tracedAddresses n = true
  | _ => True
  end.
Proof.
  pose proof (topology_clusters random inp) as P.
  pose proof (topology_parts random inp) as Q.
  destruct (topology random inp) as [t| |] eqn:E; trivial.
  destruct P as (hops & all & root & colors & Hc & En & Sub & N & V & _).
  destruct Q as (hops' & all' & Hc' & L & En' & _).
  rewrite Hc in Hc'. inversion Hc'. subst hops'. clear Hc'.
  pose proof (topology_ok_wellFormed random inp t E) as W.
  destruct (computeHops_exact _ (baseAddresses inp) W) as (hops2 & Hc2 & Ex).
  rewrite Hc in Hc2. inversion Hc2. subst hops2. clear Hc2.
  assert (Lb : forall n, In n (nodes t) ->
                         labelled (buildMaps (filteredData inp)) hops n).
  { rewrite Forall_forall in L. intros n I. apply L. rewrite En' in I.
    destruct (showRelatedOnly inp); [now apply filter_In in I | assumption]. }
  assert (Iv : forall n, In n (nodes t) ->
                         In (id n) (validNodes (buildMaps (filteredData inp)))).
  { intros n I. apply V. now apply in_map, Sub. }
  assert (Id : forallb hasId (nodes t) = true).
  { apply forallb_forall. intros n I. unfold hasId.
    pose proof (validNodes_defined _ W (id n) (Iv n I)). now destruct (id n). }
  rewrite candidateList_pure by assumption. eexists. split; [reflexivity|].
  intro n. rewrite sort_by_hop_In, !filter_In. split.
  2: { intros (I & H & U). split; [split|]; try assumption.
       unfold inPool. now destruct (hop n). }
  intros ((I & Po) & U). split; [assumption|]. split; [|assumption].
  unfold inPool in Po. destruct (hop n) as [h|] eqn:Hn; [discriminate|].
  destruct (id n) as [s|] eqn:Idn; [|discriminate].
  destruct (Lb n I) as [Hh _]. rewrite Hn, Idn in Hh.
  pose proof (Ex (Some s)) as Es. rewrite <- Hh in Es.
  exfalso. apply (Es 0). apply reach_seed. unfold baseNode.
  apply andb_true_iff. split; [|now apply lowered_base_matches].
  apply validNodes_spec. rewrite <- Idn. now apply Iv.
Qed.
Lemma groupPush_inv (l : list AddressNode) (groups : JSMap nat (list AddressNode))
    (n : AddressNode) :
  GroupInv l groups -> GroupInv (l ++ [n]) (groupPush groups n).
Proof.
  intros I h. rewrite filter_app. simpl. unfold groupPush, map_has.
  pose proof (I (hopOrZero n)) as I0. pose proof (I h) as Ih.
  destruct (Nat.eq_dec h (hopOrZero n)) as [-> | D].
  - unfold atHop at 2 4. rewrite Nat.eqb_refl.
    destruct (map_get groups (hopOrZero n)) as [g|] eqn:G.
    + rewrite G, map_get_set_same. destruct I0 as [-> _].
      split; [reflexivity|]. now destruct (filter _ l).
    + rewrite map_get_set_same, map_get_set_same, I0. split; [reflexivity | discriminate].
  - assert (E : atHop h n = false) by (apply Nat.eqb_neq; congruence).
    rewrite E, app_nil_r.
    destruct (map_get groups (hopOrZero n)) as [g|] eqn:G.
    + rewrite G, map_get_set_other by assumption. exact Ih.
    + rewrite map_get_set_same, !map_get_set_other by assumption. exact Ih.
Qed.

Lemma groupPush_NoDup (groups : JSMap nat (list AddressNode)) (n : AddressNode) :
  NoDup (map_keys groups) -> NoDup (map_keys (groupPush groups n)).
Proof.
  intro N. unfold groupPush.
  set (m1 := if map_has groups _ then groups else _).
  assert (N1 : NoDup (map_keys m1)).
  { unfold m1. destruct (map_has groups _); [assumption | now apply map_set_NoDup]. }
  destruct (map_get m1 _); [now apply map_set_NoDup | assumption].
Qed.

Lemma groups_inv (l : list AddressNode) :
  GroupInv l (fold_left groupPush l []) /\ NoDup (map_keys (fold_left groupPush l [])).
Proof.
  induction l as [|n l [I N]] using rev_ind.
  - split; [|constructor]. intro h. reflexivity.
  - rewrite fold_left_app. simpl.
    split; [now apply groupPush_inv | now apply groupPush_NoDup].
Qed.

Lemma insert_nat_perm (n : nat) (l : list nat) : Permutation (insert_nat n l) (n :: l).
Proof.
  induction l as [|x l IH]; simpl; [reflexivity|].
  destruct (n <=? x)%nat; [reflexivity|]. rewrite IH. apply perm_swap.
Qed.

Lemma sort_nat_perm (l : list nat) : Permutation (sort_nat l) l.
Proof.
  unfold sort_nat. induction l as [|x l IH]; simpl; [reflexivity|].
  rewrite insert_nat_perm. now constructor.
Qed.

Lemma insert_nat_sorted (n : nat) (l : list nat) :
  ~ In n l -> Sorted lt l -> Sorted lt (insert_nat n l).
Proof.
  induction l as [|x l IH]; intros NI S; simpl.
  - repeat constructor.
  - assert (D : n <> x) by (intros ->; apply NI; now left).
    destruct (n <=? x)%nat eqn:E.
    + apply Nat.leb_le in E. constructor; [assumption|]. constructor. lia.
    + apply Nat.leb_gt in E. inversion S as [|? ? S' Hd]; subst.
      constructor; [apply IH; [intro; apply NI; now right | assumption]|].
      destruct l as [|y l]; simpl; [now constructor|].
      destruct (n <=? y)%nat; constructor; [assumption | now inversion Hd].
Qed.

Lemma sort_nat_sorted (l : list nat) : NoDup l -> Sorted lt (sort_nat l).
Proof.
  unfold sort_nat. induction l as [|x l IH]; intro N; simpl; [constructor|].
  inversion N as [|? ? NI N']; subst. apply insert_nat_sorted; [|now apply IH].
  intro I. apply NI. now apply (Permutation_in _ (sort_nat_perm l)).
Qed.

(** X19.  The candidate groups come in strictly ascending hop order; a group
    holds exactly the candidates of its hop, in their order, and is never
    empty; every candidate is in the group of its hop. *)
Theorem groups_partition_candidates (l : list AddressNode) :
  Sorted lt (map group_hop (groupedCandidates l)) /\
  (forall g, In g (groupedCandidates l) ->
             group_nodes g = filter (atHop (group_hop g)) l /\ group_nodes g <> []) /\
  (forall n, In n l ->
             exists g, In g (groupedCandidates l) /\ group_hop g = hopOrZero n /\
                       In n (group_nodes g)).
Proof.
  destruct (groups_inv l) as [I N]. unfold groupedCandidates.
  set (groups := fold_left groupPush l []) in *.
  split; [|split].
  - rewrite map_map. simpl. rewrite map_id. now apply sort_nat_sorted.
  - intros g Ig. apply in_map_iff in Ig. destruct Ig as (h & <- & Ih). simpl.
    apply (Permutation_in _ (sort_nat_perm _)) in Ih.
    apply map_get_keys in Ih. pose proof (I h) as Hh.
    destruct (map_get groups h) as [g|]; [|congruence].
    destruct Hh as [-> Ne]. now split.
  - intros n In_. pose proof (I (hopOrZero n)) as Hh.
    assert (Im : In n (filter (atHop (hopOrZero n)) l)).
    { apply filter_In. split; [assumption | apply Nat.eqb_refl]. }
    destruct (map_get groups (hopOrZero n)) as [g|] eqn:G.
    + destruct Hh as [-> _]. eexists. split; [|split].
      * apply in_map_iff. exists (hopOrZero n). split; [reflexivity|].
        apply (Permutation_in _ (Permutation_sym (sort_nat_perm _))).
        apply map_get_keys. congruence.
      * reflexivity.
      * simpl. now rewrite G.
    + rewrite Hh in Im. destruct Im.
Qed.

Lemma maxUntracedHop_spec (traced : JSSet string) (l : list AddressNode) :
  forall (done : list AddressNode) (maxHop : option nat),
    forallb hasId l = true ->
    isMaxUntracedHop done traced maxHop ->
    exists maxHop',
      foldM (fun maxHop n =>
               match hop n with
               | None => Ok maxHop
               | Some h =>
                   if match maxHop with Some m => (m <? h)%nat | None => true end
                   then
                     lowered <- lowerOrThrow (id n) ;;
                     Ok (if negb (set_has traced lowered) then Some h else maxHop)
                   else Ok maxHop
               end) l maxHop = Ok maxHop' /\
      isMaxUntracedHop (done ++ l) traced maxHop'.
Proof.
  induction l as [|n l IH]; intros done maxHop W M; simpl.
  - exists maxHop. now rewrite app_nil_r.
  - simpl in W. apply andb_true_iff in W. destruct W as [Wn W].
    replace (done ++ n :: l) with ((done ++ [n]) ++ l) by now rewrite <- app_assoc.
    assert (Keep : (hop n = None \/ untraced traced n = false \/
                    exists h m, hop n = Some h /\ maxHop = Some m /\ h <= m) ->
                   isMaxUntracedHop (done ++ [n]) traced maxHop).
    { intro C. destruct maxHop as [m|]; simpl in *.
      - destruct M as [(n0 & I0 & H0 & U0) Mx]. split.
        + exists n0. split; [apply in_app_iff; now left | now split].
        + intros x h I Hx Ux. apply in_app_iff in I. destruct I as [I | [<- | []]].
          * now apply (Mx x).
          * destruct C as [C | [C | (h' & m' & Hh & Em & Le)]]; congruence.
      - intros x I Hx. apply in_app_iff in I. destruct I as [I | [<- | []]].
        + now apply M.
        + destruct C as [C | [C | (h' & m' & _ & Em & _)]]; congruence. }
    unfold hasId in Wn. destruct (id n) as [s|] eqn:Idn; [|discriminate].
    destruct (hop n) as [h|] eqn:Hn; [|apply IH; auto].
    destruct (match maxHop with Some m => (m <? h)%nat | None => true end) eqn:Gt.
    + simpl. destruct (negb (set_has traced (toLowerCase s))) eqn:U.
      * apply IH; [assumption|]. simpl. split.
        -- exists n. split; [apply in_app_iff; right; now left|].
           split; [assumption|]. unfold untraced. now rewrite Idn.
        -- intros x k I Hx Ux. apply in_app_iff in I. destruct I as [I | [<- | []]].
           ++ destruct maxHop as [m|]; simpl in M.
              ** apply Nat.ltb_lt in Gt. destruct M as [_ Mx].
                 pose proof (Mx x k I Hx Ux). lia.
              ** pose proof (M x I). rewrite Hx in H. rewrite H in Ux; [discriminate|].
                 discriminate.
           ++ rewrite Hn in Hx. inversion Hx. lia.
      * apply IH; [assumption|]. apply Keep. right. left.
        unfold untraced. now rewrite Idn.
    + apply IH; [assumption|]. apply Keep. right. right.
      destruct maxHop as [m|]; [|discriminate]. apply Nat.ltb_ge in Gt.
      now exists h, m.
Qed.

Lemma targetsFold_spec (traced : JSSet string) (m : nat) (l : list AddressNode) :
  forall targets : JSSet Addr,
    forallb hasId l = true -> NoDup targets ->
    exists targets',
      foldM (fun targets n =>
               if match hop n with Some h => (h =? m)%nat | None => false end
               then
                 lowered <- lowerOrThrow (id n) ;;
                 Ok (if negb (set_has traced lowered)
                     then set_add targets (id n) else targets)
               else Ok targets) l targets = Ok targets' /\
      NoDup targets' /\
      (forall a, In a targets' <->
                 In a targets \/
                 exists n, In n l /\ id n = a /\ hop n = Some m /\ untraced traced n = true).
Proof.
  induction l as [|n l IH]; intros targets W N; simpl.
  - exists targets. do 2 (split; [first [reflexivity | assumption]|]).
    intro a. split; [tauto | intros [? | (? & [] & _)]; assumption].
  - simpl in W. apply andb_true_iff in W. destruct W as [Wn W].
    unfold hasId in Wn. destruct (id n) as [s|] eqn:Idn; [|discriminate].
    assert (Skip : (hop n <> Some m \/ untraced traced n = false) ->
                   exists targets',
                     foldM (fun targets n =>
                              if match hop n with Some h => (h =? m)%nat | None => false end
                              then
                                lowered <- lowerOrThrow (id n) ;;
                                Ok (if negb (set_has traced lowered)
                                    then set_add targets (id n) else targets)
                              else Ok targets) l targets = Ok targets' /\
                     NoDup targets' /\
                     (forall a, In a targets' <->
                        In a targets \/
                        exists x, (n = x \/ In x l) /\ id x = a /\ hop x = Some m /\
                                  untraced traced x = true)).
    { intro C. destruct (IH targets W N) as (t' & F & N' & M').
      exists t'. do 2 (split; [assumption|]). intro a. rewrite M'. split.
      - intros [I | (x & I & E)]; [now left|]. right. exists x. tauto.
      - intros [I | (x & [<- | I] & Ex & Hx & Ux)]; [now left | |].
        + destruct C; congruence.
        + right. now exists x. }
    destruct (match hop n with Some h => (h =? m)%nat | None => false end) eqn:H.
    + assert (Hn : hop n = Some m).
      { destruct (hop n); [|discriminate]. apply Nat.eqb_eq in H. now subst. }
      simpl. destruct (negb (set_has traced (toLowerCase s))) eqn:U.
      * destruct (IH (set_add targets (Some s)) W (set_add_NoDup _ _ N)) as (t' & F & N' & M').
        exists t'. do 2 (split; [assumption|]). intro a. rewrite M', set_add_In. split.
        -- intros [[I | ->] | (x & I & E)]; [now left | |].
           ++ right. exists n. split; [now left|]. unfold untraced. now rewrite Idn.
           ++ right. exists x. tauto.
        -- intros [I | (x & [<- | I] & Ex & Hx & Ux)]; [tauto | |].
           ++ left. right. congruence.
           ++ right. now exists x.
      * apply Skip. right. unfold untraced. now rewrite Idn.
    + apply Skip. left. intro Hn. rewrite Hn, Nat.eqb_refl in H. discriminate.
Qed.

(** X20.  When the trace dialog opens on nodes that all have an id, the
    targets it selects are the ids of the untraced nodes at the largest hop
    that an untraced node has, each once; they are empty exactly when no
    node with a hop is left untraced. *)
Theorem auto_selection_is_outermost_layer (nodes : list AddressNode)
    (tracedAddresses : JSSet string) :
  forallb hasId nodes = true ->
  exists maxHop targets,
    autoSelect nodes tracedAddresses = Ok targets /\
    isMaxUntracedHop nodes tracedAddresses maxHop /\
    NoDup targets /\
    (forall a, In a targets <->
               exists n, In n nodes /\ id n = a /\ hop n = maxHop /\ hop n <> None /\
                         untraced tracedAddresses n = true).
Proof.
  intro W. unfold autoSelect, maxUntracedHop.
  destruct (maxUntracedHop_spec tracedAddresses nodes [] None W) as (maxHop & F & M).
  { intros n []. }
  simpl in M. rewrite F. simpl. exists maxHop.
  destruct maxHop as [m|].
  - destruct (targetsFold_spec tracedAddresses m nodes [] W (NoDup_nil _))
      as (targets & Ft & N & Mt).
    exists targets. do 3 (split; [assumption|]). intro a. rewrite Mt. split.
    + intros [[] | (n & I & E & H & U)]. exists n. repeat split; try assumption.
      congruence.
    + intros (n & I & E & H & _ & U). right. now exists n.
  - exists []. split; [reflexivity|]. split; [assumption|]. split; [constructor|].
    intro a. split; [intros [] | intros (n & _ & _ & H & Hn & _); congruence].
Qed.

Lemma auto_selection_is_outermost_layer_witness :
  exists maxHop targets,
    autoSelect [node "a" (Some 0); node "b" (Some 1); node "c" (Some 2); node "d" (Some 1)]
               ["c"] = Ok targets /\
    isMaxUntracedHop
      [node "a" (Some 0); node "b" (Some 1); node "c" (Some 2); node "d" (Some 1)]
      ["c"] maxHop /\
    NoDup targets /\
    (forall a, In a targets <->
               exists n,
                 In n [node "a" (Some 0); node "b" (Some 1); node "c" (Some 2);
                       node "d" (Some 1)] /\
                 id n = a /\ hop n = maxHop /\ hop n <> None /\ untraced ["c"] n = true).
Proof.
  apply (auto_selection_is_outermost_layer
           [node "a" (Some 0); node "b" (Some 1); node "c" (Some 2); node "d" (Some 1)]
           ["c"]).
  reflexivity.
Defined.

(** ** The crawl, layer by layer *)

Lemma traceTx_closed cfg sv a st tx :
  traceTx cfg sv a st tx
  = match counterparty cfg a tx with
    | Some neighborLower =>
        {| layerTransactions := layerTransactions st ++ [tx];
           nextFrontier :=
             if set_has sv neighborLower then nextFrontier st
             else set_add (nextFrontier st) neighborLower |}
    | None => st
    end.
Proof.
  unfold traceTx, counterparty. destruct (typeSkipped cfg tx); [reflexivity|].
  destruct (direction cfg);
    destruct (toLowerCase (orEmpty (tx_from tx)) =? toLowerCase a);
    destruct (toLowerCase (orEmpty (tx_to tx)) =? toLowerCase a);
    cbn [orb andb truthy_str];
    try reflexivity;
    try (destruct (tx_to tx) as [s|]; cbn [truthy_str orEmpty]; [|reflexivity];
         destruct (s =? ""); reflexivity);
    try (destruct (tx_from tx) as [s|]; cbn [truthy_str orEmpty]; [|reflexivity];
         destruct (s =? ""); reflexivity).
Qed.

Lemma fold_traceTx_closed cfg sv a (txs : list Transaction) :
  forall st,
    layerTransactions (fold_left (traceTx cfg sv a) txs st)
    = layerTransactions st
      ++ filter (fun tx => match counterparty cfg a tx with Some _ => true | None => false end)
                txs /\
    (forall x, In x (nextFrontier (fold_left (traceTx cfg sv a) txs st))
               <-> In x (nextFrontier st) \/
                   (~ In x sv /\ exists tx, In tx txs /\ counterparty cfg a tx = Some x)).
Proof.
  induction txs as [|tx txs IH]; intro st; simpl.
  - split; [now rewrite app_nil_r|]. intro x. split; [tauto|].
    intros [I | (_ & tx & [] & _)]. assumption.
  - destruct (IH (traceTx cfg sv a st tx)) as [E M]. rewrite E. clear E.
    rewrite traceTx_closed in *.
    destruct (counterparty cfg a tx) as [nb|] eqn:C.
    + cbn [layerTransactions nextFrontier] in *. split; [now rewrite <- app_assoc|].
      intro x. rewrite M. clear M. destruct (set_has sv nb) eqn:V.
      * apply set_has_In in V. split.
        -- intros [I | (N & t & I & Ct)]; [now left|]. right. split; [assumption|].
           exists t. tauto.
        -- intros [I | (N & t & [<- | I] & Ct)]; [now left | |].
           ++ rewrite C in Ct. inversion Ct. subst. contradiction.
           ++ right. split; [assumption|]. now exists t.
      * apply set_has_false in V. rewrite set_add_In. split.
        -- intros [[I | ->] | (N & t & I & Ct)]; [now left | |].
           ++ right. split; [assumption|]. exists tx. tauto.
           ++ right. split; [assumption|]. exists t. tauto.
        -- intros [I | (N & t & [<- | I] & Ct)]; [tauto | |].
           ++ rewrite C in Ct. inversion Ct. tauto.
           ++ right. split; [assumption|]. now exists t.
    + split; [reflexivity|]. intro x. rewrite M. split.
      * intros [I | (N & t & I & Ct)]; [now left|]. right. split; [assumption|].
        exists t. tauto.
      * intros [I | (N & t & [<- | I] & Ct)]; [now left | congruence |].
        right. split; [assumption|]. now exists t.
Qed.

Lemma traceAddress_closed fetch cfg sv st a :
  layerTransactions (traceAddress fetch cfg sv st a)
  = layerTransactions st ++ collectedFrom fetch cfg a /\
  (forall x, In x (nextFrontier (traceAddress fetch cfg sv st a))
             <-> In x (nextFrontier st) \/ (~ In x sv /\ discovered fetch cfg [a] x)).
Proof.
  destruct (fold_traceTx_closed cfg sv a (history fetch cfg a) st) as [E M].
  assert (T : traceAddress fetch cfg sv st a
              = fold_left (traceTx cfg sv a) (history fetch cfg a) st).
  { unfold traceAddress, history. now destruct (fetch a (network cfg) (rangeOf cfg)). }
  rewrite T. split; [exact E|].
  intro x. rewrite M. unfold discovered. split.
  - intros [I | (N & tx & I & C)]; [now left|]. right. split; [assumption|].
    exists a, tx. split; [now left | now split].
  - intros [I | (N & a' & tx & [<- | []] & I & C)]; [now left|].
    right. split; [assumption|]. now exists tx.
Qed.

Lemma fold_traceAddress_closed fetch cfg sv (order : list string) :
  forall st,
    layerTransactions (fold_left (traceAddress fetch cfg sv) order st)
    = layerTransactions st ++ flat_map (collectedFrom fetch cfg) order /\
    (forall x, In x (nextFrontier (fold_left (traceAddress fetch cfg sv) order st))
               <-> In x (nextFrontier st) \/ (~ In x sv /\ discovered fetch cfg order x)).
Proof.
  induction order as [|a order IH]; intro st; simpl.
  - split; [now rewrite app_nil_r|]. intro x. split; [tauto|].
    intros [I | (_ & a & tx & [] & _)]. assumption.
  - destruct (IH (traceAddress fetch cfg sv st a)) as [E M].
    destruct (traceAddress_closed fetch cfg sv st a) as [Ea Ma].
    rewrite E, Ea. split; [now rewrite <- app_assoc|].
    intro x. rewrite M, Ma. unfold discovered. split.
    + intros [[I | (N & a' & tx & [<- | []] & I & C)] | (N & a' & tx & Ia & I & C)];
        [now left | |]; right; (split; [assumption|]).
      * exists a, tx. split; [now left | now split].
      * exists a', tx. split; [now right | now split].
    + intros [I | (N & a' & tx & [<- | Ia] & I & C)]; [tauto | |].
      * left. right. split; [assumption|]. exists a, tx. split; [now left | now split].
      * right. split; [assumption|]. now exists a', tx.
Qed.

Lemma fold_batches (fetch : Provider) (settle : Schedule) cfg sv (bs : list (list string)) :
  forall st,
    fold_left (fun st batch => fold_left (traceAddress fetch cfg sv) (settle batch) st) bs st
    = fold_left (traceAddress fetch cfg sv) (flat_map settle bs) st.
Proof.
  induction bs as [|b bs IH]; intro st; simpl; [reflexivity|].
  now rewrite IH, fold_left_app.
Qed.

(** A layer in closed form: the transfers collected from the frontier
    addresses in the order their fetches settle, and as next frontier the
    counterparties the session has not visited. *)
Lemma traceLayer_closed fetch (settle : Schedule) cfg sv frontier :
  layerTransactions (traceLayer fetch settle cfg sv frontier)
  = flat_map (collectedFrom fetch cfg) (flat_map settle (batches frontier)) /\
  (forall x, In x (nextFrontier (traceLayer fetch settle cfg sv frontier))
             <-> ~ In x sv /\ discovered fetch cfg (flat_map settle (batches frontier)) x).
Proof.
  unfold traceLayer. rewrite fold_batches.
  destruct (fold_traceAddress_closed fetch cfg sv (flat_map settle (batches frontier))
              {| nextFrontier := []; layerTransactions := [] |}) as [E M].
  split; [exact E|]. intro x. rewrite M. simpl. tauto.
Qed.

Lemma batchesFrom_concat (fuel : nat) :
  forall frontier, List.length frontier <= fuel -> List.concat (batchesFrom fuel frontier) = frontier.
Proof.
  induction fuel as [|fuel IH]; intros frontier L.
  - destruct frontier; [reflexivity | simpl in L; lia].
  - destruct frontier as [|a fr]; [reflexivity|].
    cbn [batchesFrom List.concat]. rewrite IH.
    + apply firstn_skipn.
    + rewrite length_skipn. simpl in *. unfold BATCH_SIZE. lia.
Qed.

Lemma batchesFrom_sizes (fuel : nat) :
  forall frontier b, In b (batchesFrom fuel frontier) ->
                     0 < List.length b <= BATCH_SIZE.
Proof.
  induction fuel as [|fuel IH]; intros frontier b I.
  - destruct frontier; destruct I.
  - destruct frontier as [|a fr]; [destruct I|].
    cbn [batchesFrom] in I. destruct I as [<- | I]; [|now apply (IH _ _ I)].
    rewrite length_firstn. cbn [List.length]. unfold BATCH_SIZE. lia.
Qed.

(** X21.  The batches of a layer cut the frontier into consecutive slices:
    put end to end they give the frontier back, none is empty and none has
    more than five addresses. *)
Theorem batches_cut_the_frontier (frontier : list string) :
  List.concat (batches frontier) = frontier /\
  forall b, In b (batches frontier) -> 0 < List.length b <= BATCH_SIZE.
Proof.
  split.
  - now apply batchesFrom_concat.
  - apply batchesFrom_sizes.
Qed.

Lemma settled_batches_perm (settle : Schedule) (frontier : list string) :
  (forall batch, Permutation batch (settle batch)) ->
  Permutation (flat_map settle (batches frontier)) frontier.
Proof.
  intro P. rewrite <- (batchesFrom_concat (List.length frontier) frontier (le_n _)) at 2.
  fold (batches frontier). induction (batches frontier) as [|b bs IH]; simpl; [constructor|].
  apply Permutation_app; [apply Permutation_sym, P | exact IH].
Qed.

Lemma discovered_perm fetch cfg (o1 o2 : list string) (x : string) :
  Permutation o1 o2 -> discovered fetch cfg o1 x -> discovered fetch cfg o2 x.
Proof.
  intros P (a & tx & I & H & C). exists a, tx. split; [|tauto].
  now apply (Permutation_in _ P).
Qed.

Lemma set_has_members (s1 s2 : JSSet string) (x : string) :
  sameMembers s1 s2 -> set_has s1 x = set_has s2 x.
Proof.
  intro M. destruct (set_has s2 x) eqn:E.
  - apply set_has_In, M. now apply set_has_In.
  - apply set_has_false. rewrite (M x). now apply set_has_false.
Qed.

(** Two runs of a layer that differ in the order of the frontier and in the
    settle order collect the same transfers and find the same frontier. *)
Lemma traceLayer_sim fetch (settle1 settle2 : Schedule) cfg sv1 sv2 f1 f2 :
  (forall batch, Permutation batch (settle1 batch)) ->
  (forall batch, Permutation batch (settle2 batch)) ->
  sameMembers sv1 sv2 -> Permutation f1 f2 ->
  Permutation (layerTransactions (traceLayer fetch settle1 cfg sv1 f1))
              (layerTransactions (traceLayer fetch settle2 cfg sv2 f2)) /\
  Permutation (nextFrontier (traceLayer fetch settle1 cfg sv1 f1))
              (nextFrontier (traceLayer fetch settle2 cfg sv2 f2)).
Proof.
  intros P1 P2 M Pf.
  destruct (traceLayer_closed fetch settle1 cfg sv1 f1) as [E1 M1].
  destruct (traceLayer_closed fetch settle2 cfg sv2 f2) as [E2 M2].
  assert (Po : Permutation (flat_map settle1 (batches f1)) (flat_map settle2 (batches f2))).
  { rewrite (settled_batches_perm settle1 f1 P1), (settled_batches_perm settle2 f2 P2).
    exact Pf. }
  split.
  - rewrite E1, E2. now apply Permutation_flat_map.
  - apply NoDup_Permutation.
    + apply traceLayer_fresh.
    + apply traceLayer_fresh.
    + intro x. rewrite M1, M2, (M x). split; intros [N D]; (split; [assumption|]).
      * now apply (discovered_perm fetch cfg _ _ x Po).
      * now apply (discovered_perm fetch cfg _ _ x (Permutation_sym Po)).
Qed.

Lemma addLowered_members (s1 s2 : JSSet string) (l1 l2 : list string) :
  sameMembers s1 s2 -> Permutation l1 l2 ->
  sameMembers (addLowered s1 l1) (addLowered s2 l2).
Proof.
  intros M P x. rewrite !addLowered_In, (M x). split; intros [I | I]; try tauto; right.
  - now apply (Permutation_in _ (Permutation_map toLowerCase P)).
  - now apply (Permutation_in _ (Permutation_sym (Permutation_map toLowerCase P))).
Qed.

Lemma Forall2_snoc {A B : Type} (R : A -> B -> Prop) (l1 : list A) (l2 : list B) a b :
  Forall2 R l1 l2 -> R a b -> Forall2 R (l1 ++ [a]) (l2 ++ [b]).
Proof. intros F H. apply Forall2_app; [assumption | now constructor]. Qed.

Lemma traceLayers_sim fetch (settle1 settle2 : Schedule) cfg (n : nat) :
  (forall batch, Permutation batch (settle1 batch)) ->
  (forall batch, Permutation batch (settle2 batch)) ->
  forall s1 s2, CrawlSim s1 s2 ->
                CrawlSim (traceLayers fetch settle1 cfg n s1) (traceLayers fetch settle2 cfg n s2).
Proof.
  intros P1 P2. induction n as [|n IH]; intros s1 s2 S; simpl; [assumption|].
  destruct S as [Sv Sf Sn Ss].
  destruct (currentFrontier s1) as [|a1 f1] eqn:C1.
  - apply Permutation_nil in Sf. rewrite Sf. constructor; try assumption.
    rewrite C1, Sf. constructor.
  - destruct (currentFrontier s2) as [|a2 f2] eqn:C2.
    + apply Permutation_sym, Permutation_nil in Sf. discriminate.
    + destruct (traceLayer_sim fetch settle1 settle2 cfg (sessionVisited s1)
                  (sessionVisited s2) (a1 :: f1) (a2 :: f2) P1 P2 Sv Sf) as [Pl Pn].
      apply IH. constructor; cbn [sessionVisited currentFrontier allNewTransactions
                                   seenFrontiers].
      * now apply addLowered_members.
      * assumption.
      * now apply Permutation_app.
      * now apply Forall2_snoc.
Qed.
Lemma CrawlSim_refl (st : CrawlState) : CrawlSim st st.
Proof.
  constructor; try reflexivity.
  - intro x. tauto.
  - induction (seenFrontiers st); constructor; [reflexivity | assumption].
Qed.

(** X22.  The order in which the concurrent fetches of a batch settle does
    not matter to a crawl: two runs under any two settle orders end in the
    same way, ingest the same transfers up to their order, leave the same
    addresses traced, and pass through the same frontiers up to the order
    inside a frontier. *)
Theorem settle_order_is_immaterial
    (fetchAddressHistory : Provider) (settle1 settle2 : Schedule) (inp : CrawlInput) :
  (forall batch, Permutation batch (settle1 batch)) ->
  (forall batch, Permutation batch (settle2 batch)) ->
  sameOutcome (outcome (handleTraceExecution fetchAddressHistory settle1 inp))
              (outcome (handleTraceExecution fetchAddressHistory settle2 inp)) /\
  sameMembers (tracedAfter (handleTraceExecution fetchAddressHistory settle1 inp))
              (tracedAfter (handleTraceExecution fetchAddressHistory settle2 inp)) /\
  Forall2 (@Permutation string)
          (frontiers (handleTraceExecution fetchAddressHistory settle1 inp))
          (frontiers (handleTraceExecution fetchAddressHistory settle2 inp)).
Proof.
  intros P1 P2. unfold handleTraceExecution.
  destruct (traceTargets inp) as [|t ts] eqn:T.
  { cbn [outcome tracedAfter frontiers]. repeat split; try constructor; tauto. }
  destruct (knownAddresses (crawl_data inp)) as [known| |];
    try (cbn [outcome tracedAfter frontiers]; repeat split; try constructor; tauto).
  pose proof (traceLayers_sim fetchAddressHistory settle1 settle2 (traceConfig inp)
                (hops (traceConfig inp)) P1 P2 _ _
                (CrawlSim_refl
                   {| sessionVisited :=
                        addLowered (set_from (map toLowerCase (tracedAddresses inp))) (t :: ts);
                      currentFrontier := t :: ts;
                      allNewTransactions := [];
                      seenFrontiers := [] |})) as S.
  destruct S as [Sv Sf Sn Ss].
  destruct (allNewTransactions (traceLayers fetchAddressHistory settle1 _ _ _))
    as [|x1 new1] eqn:N1;
    destruct (allNewTransactions (traceLayers fetchAddressHistory settle2 _ _ _))
      as [|x2 new2] eqn:N2; cbn [outcome tracedAfter frontiers sameOutcome].
  - split; [exact I|]. split; [intro x; tauto | assumption].
  - apply Permutation_nil in Sn. discriminate.
  - apply Permutation_sym, Permutation_nil in Sn. discriminate.
  - split; [assumption|]. split; [|assumption].
    intro x. rewrite !fold_set_add_In, (Sv x). tauto.
Qed.

Lemma lastFirst_perm (batch : list string) : Permutation batch (lastFirst batch).
Proof. apply Permutation_rev. Qed.

Lemma settle_order_is_immaterial_witness :
  sameOutcome (outcome (handleTraceExecution providerTriangle inOrder (crawlFromA 2)))
              (outcome (handleTraceExecution providerTriangle lastFirst (crawlFromA 2))) /\
  sameMembers (tracedAfter (handleTraceExecution providerTriangle inOrder (crawlFromA 2)))
              (tracedAfter (handleTraceExecution providerTriangle lastFirst (crawlFromA 2))) /\
  Forall2 (@Permutation string)
          (frontiers (handleTraceExecution providerTriangle inOrder (crawlFromA 2)))
          (frontiers (handleTraceExecution providerTriangle lastFirst (crawlFromA 2))).
Proof.
  apply (settle_order_is_immaterial providerTriangle inOrder lastFirst (crawlFromA 2)).
  - intro batch. reflexivity.
  - exact lastFirst_perm.
Defined.

Lemma settled_In (settle : Schedule) (frontier : list string) (a : string) :
  (forall batch, Permutation batch (settle batch)) ->
  In a (flat_map settle (batches frontier)) <-> In a frontier.
Proof.
  intro P. split; apply Permutation_in;
    [|apply Permutation_sym]; now apply settled_batches_perm.
Qed.

Lemma traceLayers_queried fetch (settle : Schedule) cfg targets (n : nat) :
  (forall batch, Permutation batch (settle batch)) ->
  forall st Q,
    QueriedInv fetch cfg targets st Q ->
    exists Q', QueriedInv fetch cfg targets (traceLayers fetch settle cfg n st) Q'.
Proof.
  intro P. induction n as [|n IH]; intros st Q I; simpl; [now exists Q|].
  destruct (currentFrontier st) as [|a0 fr] eqn:C; [now exists Q|].
  destruct I as [M L].
  apply (IH _ (Q ++ a0 :: fr)). split; cbn [allNewTransactions seenFrontiers currentFrontier].
  - intro tx. rewrite in_app_iff, (M tx).
    destruct (traceLayer_closed fetch settle cfg (sessionVisited st) (a0 :: fr)) as [E _].
    rewrite E, in_flat_map. split.
    + intros [(a & Ia & It) | (a & Ia & It)]; exists a; (split; [|assumption]);
        apply in_app_iff; [now left | right]. now apply (settled_In settle _ a P).
    + intros (a & Ia & It). apply in_app_iff in Ia. destruct Ia as [Ia | Ia].
      * left. now exists a.
      * right. exists a. split; [|assumption]. now apply (settled_In settle _ a P).
  - right. destruct L as [(S & Q0 & T) | (earlier & S & Q0)].
    + exists []. rewrite S, Q0, <- T, C. split; [reflexivity|]. simpl.
      now rewrite app_nil_r.
    + exists (earlier ++ [a0 :: fr]). rewrite S, Q0, C. split; [reflexivity|].
      rewrite concat_app. simpl. now rewrite app_nil_r, <- app_assoc.
Qed.

(** X23.  What a crawl ingests is what it collects from the addresses it
    queries: a transfer is handed over exactly when the provider returned it
    in the history of a target or of a frontier address other than the last
    frontier's, and it is of an enabled type and has the queried address, in
    lower case, on the side the direction asks for, with a non-empty
    counterparty. *)
Theorem ingested_is_collected_from_queried
    (fetchAddressHistory : Provider) (settle : Schedule) (inp : CrawlInput) :
  (forall batch, Permutation batch (settle batch)) ->
  forall tx,
    In tx (ingested (handleTraceExecution fetchAddressHistory settle inp))
    <-> exists a,
          In a (queried inp (handleTraceExecution fetchAddressHistory settle inp)) /\
          In tx (history fetchAddressHistory (traceConfig inp) a) /\
          counterparty (traceConfig inp) a tx <> None.
Proof.
  intros P tx.
  assert (Empty : In tx [] <-> exists a, In a (@nil string) /\
                    In tx (history fetchAddressHistory (traceConfig inp) a) /\
                    counterparty (traceConfig inp) a tx <> None).
  { split; [intros [] | intros (a & [] & _)]. }
  unfold handleTraceExecution, ingested, queried.
  destruct (traceTargets inp) as [|t ts] eqn:T; [exact Empty|].
  destruct (knownAddresses (crawl_data inp)) as [known| |]; try exact Empty.
  destruct (traceLayers_queried fetchAddressHistory settle (traceConfig inp) (t :: ts)
              (hops (traceConfig inp)) P
              {| sessionVisited :=
                   addLowered (set_from (map toLowerCase (tracedAddresses inp))) (t :: ts);
                 currentFrontier := t :: ts;
                 allNewTransactions := [];
                 seenFrontiers := [] |} []) as (Q & M & L).
  { split; [|left; auto]. intro x. split; [intros [] | intros (a & [] & _)]. }
  match goal with
  | |- context [allNewTransactions ?s] => set (st := s) in *
  end.
  assert (Col : forall a, In tx (collectedFrom fetchAddressHistory (traceConfig inp) a)
                          <-> In tx (history fetchAddressHistory (traceConfig inp) a) /\
                              counterparty (traceConfig inp) a tx <> None).
  { intro a. unfold collectedFrom. rewrite filter_In.
    destruct (counterparty (traceConfig inp) a tx); split; intros [? ?]; split;
      congruence. }
  assert (G : In tx (allNewTransactions st)
              <-> exists a,
                    In a match seenFrontiers st with
                         | [] => []
                         | _ :: _ => (t :: ts) ++ List.concat (removelast (seenFrontiers st))
                         end /\
                    In tx (history fetchAddressHistory (traceConfig inp) a) /\
                    counterparty (traceConfig inp) a tx <> None).
  { rewrite (M tx). destruct L as [(S & Q0 & _) | (earlier & S & Q0)].
    - rewrite S, Q0. split; intros (a & [] & _).
    - rewrite S, removelast_last, Q0.
      destruct (earlier ++ [currentFrontier st]) eqn:E;
        [now destruct earlier|].
      split; intros (a & Ia & It); exists a; (split; [assumption|]); now apply Col. }
  destruct (allNewTransactions st) as [|x new] eqn:N;
    cbn [outcome frontiers]; exact G.
Qed.

Lemma ingested_is_collected_from_queried_witness :
  In (transfer "b" "d" 1)
     (ingested (handleTraceExecution providerABD inOrder (crawlFromA 2)))
  <-> exists a,
        In a (queried (crawlFromA 2) (handleTraceExecution providerABD inOrder (crawlFromA 2))) /\
        In (transfer "b" "d" 1) (history providerABD (traceConfig (crawlFromA 2)) a) /\
        counterparty (traceConfig (crawlFromA 2)) a (transfer "b" "d" 1) <> None.
Proof.
  apply (ingested_is_collected_from_queried providerABD inOrder (crawlFromA 2)).
  intro batch. reflexivity.
Defined.

Lemma traceLayers_count fetch (settle : Schedule) cfg (n : nat) :
  forall st,
    (forall F, In F (removelast (seenFrontiers st)) -> F <> []) ->
    (seenFrontiers st = [] \/ last (seenFrontiers st) [] = currentFrontier st) ->
    List.length (seenFrontiers (traceLayers fetch settle cfg n st))
    <= List.length (seenFrontiers st) + n /\
    (forall F, In F (removelast (seenFrontiers (traceLayers fetch settle cfg n st))) ->
               F <> []) /\
    (seenFrontiers (traceLayers fetch settle cfg n st) = [] \/
     last (seenFrontiers (traceLayers fetch settle cfg n st)) []
     = currentFrontier (traceLayers fetch settle cfg n st)) /\
    (List.length (seenFrontiers (traceLayers fetch settle cfg n st))
     < List.length (seenFrontiers st) + n ->
     currentFrontier (traceLayers fetch settle cfg n st) = []).
Proof.
  induction n as [|n IH]; intros st Ne La; simpl.
  - split; [lia|]. split; [assumption|]. split; [assumption | lia].
  - destruct (currentFrontier st) as [|a0 fr] eqn:C.
    + split; [lia|]. split; [assumption|]. split; [now rewrite C | auto].
    + set (next := nextFrontier (traceLayer fetch settle cfg (sessionVisited st) (a0 :: fr))).
      match goal with
      | |- context [traceLayers fetch settle cfg n ?s] =>
          destruct (IH s) as (Le & Ne' & La' & Early)
      end; cbn [seenFrontiers currentFrontier] in *.
      * rewrite removelast_last. intros F I.
        destruct La as [E | E].
        -- rewrite E in I. destruct I.
        -- destruct (seenFrontiers st) as [|F0 seen] eqn:S; [destruct I|].
           destruct (exists_last (l := F0 :: seen)) as (init & z & Ez); [discriminate|].
           rewrite Ez in *. rewrite last_last in E. subst z.
           rewrite removelast_last in Ne.
           apply in_app_iff in I. destruct I as [I | [<- | []]]; [now apply Ne | discriminate].
      * right. apply last_last.
      * rewrite length_app in *. simpl in *. split; [lia|]. split; [assumption|].
        split; [assumption|]. intro Lt. apply Early. lia.
Qed.

(** X24.  A crawl runs at most [hops] layers, and it stops earlier only on
    an empty frontier: every frontier but the last has an address, and when
    fewer than [hops] layers ran, the last frontier is empty (or no layer
    ran at all). *)
Theorem crawl_stops_on_empty_frontier
    (fetchAddressHistory : Provider) (settle : Schedule) (inp : CrawlInput) :
  List.length (frontiers (handleTraceExecution fetchAddressHistory settle inp))
  <= hops (traceConfig inp) /\
  (forall F, In F (removelast (frontiers (handleTraceExecution fetchAddressHistory settle inp)))
             -> F <> []) /\
  (List.length (frontiers (handleTraceExecution fetchAddressHistory settle inp))
   < hops (traceConfig inp) ->
   last (frontiers (handleTraceExecution fetchAddressHistory settle inp)) [] = []).
Proof.
  unfold handleTraceExecution.
  destruct (traceTargets inp) as [|t ts] eqn:T;
    [cbn [frontiers]; simpl; repeat split; [lia | tauto]|].
  destruct (knownAddresses (crawl_data inp)) as [known| |];
    try (cbn [frontiers]; simpl; repeat split; [lia | tauto]).
  destruct (traceLayers_count fetchAddressHistory settle (traceConfig inp)
              (hops (traceConfig inp))
              {| sessionVisited :=
                   addLowered (set_from (map toLowerCase (tracedAddresses inp))) (t :: ts);
                 currentFrontier := t :: ts;
                 allNewTransactions := [];
                 seenFrontiers := [] |}) as (Le & Ne & La & Early);
    cbn [seenFrontiers currentFrontier]; [intros F [] | now left |].
  cbn [seenFrontiers currentFrontier List.length] in *.
  match goal with
  | |- context [allNewTransactions ?s] => set (st := s) in *
  end.
  assert (G : List.length (seenFrontiers st) < hops (traceConfig inp) ->
              last (seenFrontiers st) [] = []).
  { intro Lt. destruct La as [E | E]; [now rewrite E|]. rewrite E. now apply Early. }
  destruct (allNewTransactions st); cbn [frontiers]; auto.
Qed.

(** ** Labels: the badge and the details panel *)

Lemma findLabel_find (s : string) (labels : list Label) :
  findLabel (Some s) labels = Ok (List.find (matchesLabel s) labels).
Proof.
  induction labels as [|l labels IH]; simpl; [reflexivity|].
  unfold matchesLabel at 1. destruct (toLowerCase (address l) =? toLowerCase s); auto.
Qed.

Lemma find_none_all {A : Type} (f : A -> bool) (l : list A) :
  (forall x, In x l -> f x = false) -> List.find f l = None.
Proof.
  induction l as [|x l IH]; intro N; simpl; [reflexivity|].
  rewrite (N x) by now left. apply IH. intros y I. apply N. now right.
Qed.

Lemma labelMap_last (labels : list Label) (k : string) :
  map_get (labelMap labels) k
  = option_map label (List.find (fun l => toLowerCase (address l) =? k) (rev labels)).
Proof.
  unfold labelMap. induction labels as [|l labels IH] using rev_ind; [reflexivity|].
  rewrite fold_left_app, rev_app_distr. simpl.
  destruct (toLowerCase (address l) =? k) eqn:E.
  - apply String.eqb_eq in E. subst k. apply map_get_set_same.
  - apply String.eqb_neq in E. rewrite map_get_set_other by congruence. exact IH.
Qed.

(** X25.  A node has a label badge exactly when a stored label matches its
    id up to letter case; the badge shows the text of the last matching
    label, whereas the details panel and the node type use the first. *)
Theorem badge_shows_last_label (sharedLabels : list Label) (n : AddressNode) (s : string) :
  id n = Some s ->
  existingLabel sharedLabels (Some n) = Ok (List.find (matchesLabel s) sharedLabels) /\
  badgeOf sharedLabels (id n)
  = Ok (option_map label (List.find (matchesLabel s) (rev sharedLabels))) /\
  (forall l, List.find (matchesLabel s) sharedLabels = Some l ->
             getNodeType (id n) sharedLabels = Ok (tag_type l)) /\
  (List.find (matchesLabel s) (rev sharedLabels) = None
   <-> List.find (matchesLabel s) sharedLabels = None).
Proof.
  intro E. unfold existingLabel, badgeOf, getNodeType. rewrite E, findLabel_find.
  split; [reflexivity|]. split; [|split].
  - simpl. now rewrite labelMap_last.
  - intros l F. rewrite F. reflexivity.
  - split; intro N; apply find_none_all; intros l I;
      [rewrite in_rev in I | rewrite <- in_rev in I];
      exact (find_none _ _ N l I).
Qed.

Lemma badge_shows_last_label_witness :
  existingLabel sampleLabels (Some (node "0xAb" None))
  = Ok (List.find (matchesLabel "0xAb") sampleLabels) /\
  badgeOf sampleLabels (id (node "0xAb" None))
  = Ok (option_map label (List.find (matchesLabel "0xAb") (rev sampleLabels))) /\
  (forall l, List.find (matchesLabel "0xAb") sampleLabels = Some l ->
             getNodeType (id (node "0xAb" None)) sampleLabels = Ok (tag_type l)) /\
  (List.find (matchesLabel "0xAb") (rev sampleLabels) = None
   <-> List.find (matchesLabel "0xAb") sampleLabels = None).
Proof.
  apply (badge_shows_last_label sampleLabels (node "0xAb" None) "0xAb").
  reflexivity.
Defined.

(** ** Adding data *)

Lemma filter_types_perm (l : list Transaction) :
  Permutation (filter (fun t => TxType_eqb (tx_type t) native) l
               ++ filter (fun t => TxType_eqb (tx_type t) erc20) l) l.
Proof.
  induction l as [|t l IH]; simpl; [constructor|].
  destruct (tx_type t); simpl.
  - now constructor.
  - apply Permutation_sym, Permutation_cons_app, Permutation_sym. exact IH.
Qed.

Lemma filter_empty_length {A : Type} (f : A -> bool) (l : list A) :
  (0 <? List.length (filter f l))%nat = false -> filter f l = [].
Proof. destruct (filter f l); [reflexivity | discriminate]. Qed.

(** X26.  [handleAddData] puts the new transfers in front of the table and
    sends each of them to the backend once, under its own type: at most one
    call per type, none with an empty batch, the native batch first. *)
Theorem added_data_is_synced_once (prev newTxns : list Transaction) :
  fst (handleAddData prev newTxns) = newTxns ++ prev /\
  Permutation (flat_map fst (snd (handleAddData prev newTxns))) newTxns /\
  (forall txs ty, In (txs, ty) (snd (handleAddData prev newTxns)) ->
                  txs <> [] /\ forall tx, In tx txs -> tx_type tx = ty) /\
  StronglySorted (fun a b => snd a = native /\ snd b = erc20)
                 (snd (handleAddData prev newTxns)).
Proof.
  unfold handleAddData. cbn [fst snd]. split; [reflexivity|].
  destruct newTxns as [|t0 rest].
  { cbn. split; [apply perm_nil|]. split; [intros ? ? []|apply SSorted_nil]. }
  change (0 <? List.length (t0 :: rest))%nat with true. cbv iota.
  set (new := t0 :: rest).
  set (natives := filter (fun t => TxType_eqb (tx_type t) native) new).
  set (erc20s := filter (fun t => TxType_eqb (tx_type t) erc20) new).
  pose proof (filter_types_perm new) as P. fold natives erc20s in P.
  assert (Tn : forall tx, In tx natives -> tx_type tx = native).
  { intros tx I. apply filter_In in I. now apply TxType_eqb_eq. }
  assert (Te : forall tx, In tx erc20s -> tx_type tx = erc20).
  { intros tx I. apply filter_In in I. now apply TxType_eqb_eq. }
  destruct (0 <? List.length natives)%nat eqn:Ln;
    destruct (0 <? List.length erc20s)%nat eqn:Le; cbn [app flat_map fst].
  - split; [now rewrite app_nil_r|]. split.
    + intros txs ty [E | [E | []]]; inversion E; subst; split; auto;
        intros ->; discriminate.
    + repeat constructor.
  - split; [|split].
    + rewrite app_nil_r. unfold erc20s in Le. apply filter_empty_length in Le.
      fold erc20s in Le. now rewrite Le, app_nil_r in P.
    + intros txs ty [E | []]. inversion E; subst. split; auto. intros ->; discriminate.
    + repeat constructor.
  - split; [|split].
    + rewrite app_nil_r. unfold natives in Ln. apply filter_empty_length in Ln.
      fold natives in Ln. now rewrite Ln in P.
    + intros txs ty [E | []]. inversion E; subst. split; auto. intros ->; discriminate.
    + repeat constructor.
  - unfold natives in Ln. apply filter_empty_length in Ln. fold natives in Ln.
    unfold erc20s in Le. apply filter_empty_length in Le. fold erc20s in Le.
    rewrite Ln, Le in P. apply Permutation_nil in P. discriminate.
Qed.

(** ** The sync endpoint *)

Section SyncFacts.
Context {T : Type}.

Lemma chunksFrom_concat (fuel : nat) :
  forall transactions : list T,
    List.length transactions <= fuel ->
    List.concat (chunksFrom fuel transactions) = transactions.
Proof.
  induction fuel as [|fuel IH]; intros txs L.
  - destruct txs; [reflexivity | simpl in L; lia].
  - destruct txs as [|a rest]; [reflexivity|].
    cbn [chunksFrom List.concat]. rewrite IH.
    + apply firstn_skipn.
    + rewrite length_skipn. simpl in *. unfold chunkSize. lia.
Qed.

Lemma chunksFrom_sizes (fuel : nat) :
  forall (transactions : list T) chunk,
    In chunk (chunksFrom fuel transactions) ->
    0 < List.length chunk <= chunkSize.
Proof.
  induction fuel as [|fuel IH]; intros txs chunk I.
  - destruct txs; destruct I.
  - destruct txs as [|a rest]; [destruct I|].
    cbn [chunksFrom] in I. destruct I as [<- | I]; [|now apply (IH _ _ I)].
    rewrite length_firstn. cbn [List.length]. unfold chunkSize. lia.
Qed.

Lemma map_add_seq (a b w : nat) : map (fun k => a + k) (seq b w) = seq (a + b) w.
Proof.
  revert b. induction w as [|w IH]; intro b; simpl; [reflexivity|].
  rewrite IH. now rewrite Nat.add_succ_r.
Qed.

Lemma rowPlaceholders_seq (type : TxType) (idx : nat) :
  rowPlaceholders type idx = seq (idx * rowWidth type + 1) (rowWidth type).
Proof. destruct type; unfold rowPlaceholders, rowWidth; apply map_add_seq. Qed.

Lemma placeholders_concat (type : TxType) (n : nat) :
  List.concat (map (rowPlaceholders type) (seq 0 n)) = seq 1 (n * rowWidth type).
Proof.
  induction n as [|n IH]; [reflexivity|].
  rewrite seq_S, map_app, concat_app, IH. cbn [map List.concat plus].
  rewrite app_nil_r, rowPlaceholders_seq.
  replace (S n * rowWidth type) with (n * rowWidth type + rowWidth type) by lia.
  rewrite seq_app. f_equal. f_equal. lia.
Qed.

Lemma rowValues_length (type : TxType) (t : T) :
  List.length (rowValues type t) = rowWidth type.
Proof. now destruct type. Qed.

Lemma bound_length (type : TxType) (chunk : list T) :
  List.length (flat_map (rowValues type) chunk) = List.length chunk * rowWidth type.
Proof.
  induction chunk as [|t chunk IH]; [reflexivity|].
  cbn [flat_map]. rewrite length_app, rowValues_length, IH. simpl. lia.
Qed.

Lemma firstn_length_app {A : Type} (l1 l2 : list A) :
  firstn (List.length l1) (l1 ++ l2) = l1.
Proof. induction l1 as [|x l1 IH]; simpl; [now destruct l2 | now rewrite IH]. Qed.

Lemma skipn_length_app {A : Type} (n : nat) (l1 l2 : list A) :
  skipn (List.length l1 + n) (l1 ++ l2) = skipn n l2.
Proof. induction l1 as [|x l1 IH]; simpl; [reflexivity | exact IH]. Qed.

Lemma runCommands_spec (query : @DbCommand T -> bool) (cmds : list DbCommand) :
  (forallb query cmds = true /\ runCommands query cmds = (cmds, true)) \/
  (exists accepted refused rest,
     cmds = accepted ++ refused :: rest /\
     forallb query accepted = true /\ query refused = false /\
     runCommands query cmds = (accepted ++ [refused], false)).
Proof.
  induction cmds as [|c cmds IH]; [now left|]. simpl.
  destruct (query c) eqn:Q.
  - destruct IH as [[A R] | (acc & refused & rest & E & A & F & R)]; rewrite R.
    + left. now split.
    + right. exists (c :: acc), refused, rest. simpl. rewrite Q, E. auto.
  - right. exists [], c, cmds. auto.
Qed.

End SyncFacts.

(** X27.  Every [INSERT] of the sync endpoint is well formed: its
    placeholders, read row by row, are [$1], [$2], ... up to the number of
    bound values, one row of ten (native) or eleven (token) placeholders for
    every transfer of the chunk, and the values of the [k]-th row are the
    fields of the [k]-th transfer.  The chunks are consecutive slices of at
    most 500 transfers that together give the request's transfers. *)
Theorem inserts_bind_every_field {T : Type} (type : TxType) (transactions : list T) :
  List.concat (chunks transactions) = transactions /\
  forall chunk, In chunk (chunks transactions) ->
    0 < List.length chunk <= chunkSize /\
    List.concat (placeholders (insertOf type chunk))
    = seq 1 (List.length (bound (insertOf type chunk))) /\
    List.length (placeholders (insertOf type chunk)) = List.length chunk /\
    forall k t, nth_error chunk k = Some t ->
      nth_error (placeholders (insertOf type chunk)) k
      = Some (seq (k * rowWidth type + 1) (rowWidth type)) /\
      firstn (rowWidth type) (skipn (k * rowWidth type) (bound (insertOf type chunk)))
      = rowValues type t.
Proof.
  split; [now apply chunksFrom_concat|].
  intros chunk I. split; [now apply (chunksFrom_sizes _ _ _ I)|].
  unfold insertOf. cbn [placeholders bound].
  split; [now rewrite placeholders_concat, bound_length|].
  split; [now rewrite length_map, length_seq|].
  intros k t Hk. split.
  - assert (Lk : k < List.length chunk).
    { apply nth_error_Some. congruence. }
    rewrite nth_error_map, nth_error_seq.
    destruct (Nat.ltb_spec k (List.length chunk)); [|lia].
    simpl. now rewrite rowPlaceholders_seq.
  - clear I. revert k Hk. induction chunk as [|x chunk IH]; intros k Hk.
    + now destruct k.
    + destruct k as [|k]; cbn [flat_map].
      * inversion Hk. subst x. simpl skipn.
        rewrite <- (rowValues_length type t) at 1. apply firstn_length_app.
      * replace (S k * rowWidth type)
          with (List.length (rowValues type x) + k * rowWidth type)
          by (rewrite rowValues_length; lia).
        rewrite skipn_length_app. now apply IH.
Qed.

(** X28.  The sync endpoint is all or nothing.  An empty request touches
    nothing and answers with a zero count.  Otherwise the commands are
    [BEGIN], one [INSERT] per chunk in order, and [COMMIT]: when the
    database accepts them all the answer is a success; as soon as it
    refuses one, no further command of the request is sent, [ROLLBACK]
    follows, and the answer is a status 500 (no answer at all when the
    [ROLLBACK] is refused too). *)
Theorem sync_commits_or_rolls_back {T : Type}
    (query : @DbCommand T -> bool) (transactions : list T) (type : TxType) :
  (transactions = [] -> syncHandler query transactions type = ([], CountZero)) /\
  (transactions <> [] ->
   (forallb query (syncCommands transactions type) = true /\
    syncHandler query transactions type = (syncCommands transactions type, Success)) \/
   (exists accepted refused rest,
      syncCommands transactions type = accepted ++ refused :: rest /\
      forallb query accepted = true /\ query refused = false /\
      syncHandler query transactions type
      = (accepted ++ [refused; Rollback],
         if query Rollback then Status500 else NoAnswer))).
Proof.
  split; [now intros ->|]. intro N.
  destruct transactions as [|t0 rest0]; [contradiction|].
  unfold syncHandler. fold (syncCommands (t0 :: rest0) type).
  destruct (runCommands_spec query (syncCommands (t0 :: rest0) type))
    as [[A R] | (acc & refused & rest & E & A & F & R)]; rewrite R.
  - left. now split.
  - right. exists acc, refused, rest. rewrite <- app_assoc. auto.
Qed.

Lemma sync_commits_or_rolls_back_witness :
  (forallb refusesLongRows (syncCommands [1; 2] native) = true /\
   syncHandler refusesLongRows [1; 2] native = (syncCommands [1; 2] native, Success)) \/
  (exists accepted refused rest,
     syncCommands [1; 2] native = accepted ++ refused :: rest /\
     forallb refusesLongRows accepted = true /\ refusesLongRows refused = false /\
     syncHandler refusesLongRows [1; 2] native
     = (accepted ++ [refused; Rollback],
        if refusesLongRows Rollback then Status500 else NoAnswer)).
Proof.
  apply (sync_commits_or_rolls_back refusesLongRows [1; 2] native).
  discriminate.
Defined.

(** ** Shortened addresses *)

Lemma length_append (a b : string) :
  String.length (a ++ b) = String.length a + String.length b.
Proof. induction a as [|c a IH]; simpl; [reflexivity | now rewrite IH]. Qed.

Lemma length_substring (n m : nat) (s : string) :
  n + m <= String.length s -> String.length (substring n m s) = m.
Proof.
  revert n m. induction s as [|c s IH]; intros n m L; simpl in *.
  - destruct n, m; simpl; lia.
  - destruct n as [|n].
    + destruct m as [|m]; [reflexivity|]. simpl. rewrite IH; lia.
    + apply IH. lia.
Qed.

Lemma substring_prefix (a b : string) : substring 0 (String.length a) (a ++ b) = a.
Proof.
  induction a as [|c a IH]; simpl; [now destruct b | now rewrite IH].
Qed.

Lemma substring_suffix (a b : string) :
  substring (String.length a) (String.length b) (a ++ b) = b.
Proof.
  induction a as [|c a IH]; simpl; [|exact IH].
  induction b as [|c b IHb]; simpl; [reflexivity | now rewrite IHb].
Qed.

Lemma string_app_assoc (a b c : string) : (a ++ b ++ c = (a ++ b) ++ c)%string.
Proof. induction a as [|x a IH]; simpl; [reflexivity | now rewrite IH]. Qed.

(** X29.  A shortened address has at most eleven characters, and shortening
    is stable: shortening what has been shortened changes nothing. *)
Theorem truncate_is_short_and_stable (str : option string) :
  String.length (truncate str) <= 11 /\
  truncate (Some (truncate str)) = truncate str.
Proof.
  unfold truncate at 1 3 4. cbn [orEmpty].
  set (s := orEmpty str).
  destruct (String.length s <=? 10)%nat eqn:L.
  - apply Nat.leb_le in L. split; [lia|].
    unfold truncate. cbn [orEmpty]. fold s. apply Nat.leb_le in L. now rewrite L.
  - apply Nat.leb_gt in L.
    set (x := substring 0 4 s). set (y := substring (String.length s - 4) 4 s).
    assert (Lx : String.length x = 4) by (apply length_substring; lia).
    assert (Ly : String.length y = 4) by (apply length_substring; lia).
    assert (Lr : String.length (x ++ "..." ++ y) = 11).
    { rewrite !length_append, Lx, Ly. reflexivity. }
    split; [lia|].
    assert (E1 : substring 0 4 (x ++ "..." ++ y) = x).
    { rewrite <- Lx at 1. apply substring_prefix. }
    assert (E2 : substring 7 4 (x ++ "..." ++ y) = y).
    { rewrite string_app_assoc.
      replace 7 with (String.length (x ++ "...")) by (rewrite length_append, Lx; reflexivity).
      rewrite <- Ly at 1. apply substring_suffix. }
    unfold truncate. cbn [orEmpty]. rewrite Lr. cbn [Nat.leb Nat.sub].
    now rewrite E1, E2.
Qed.

(** ** What has been queried is not offered again *)

Lemma traceLayers_traced fetch (settle : Schedule) cfg targets (n : nat) :
  forall st Q,
    TracedInv targets st Q ->
    exists Q', TracedInv targets (traceLayers fetch settle cfg n st) Q'.
Proof.
  induction n as [|n IH]; intros st Q I; simpl; [now exists Q|].
  destruct (currentFrontier st) as [|a0 fr] eqn:C; [now exists Q|].
  destruct I as [V L].
  apply (IH _ (Q ++ a0 :: fr)). split; cbn [sessionVisited seenFrontiers currentFrontier].
  - intros a [I | I]; apply addLowered_In.
    + left. apply V. now left.
    + apply in_app_iff in I. destruct I as [I | I].
      * left. apply V. now right.
      * right. now apply in_map.
  - right. destruct L as [(S & Q0 & T) | (earlier & S & Q0)].
    + exists []. rewrite S, Q0, <- T, C. split; [reflexivity|]. simpl.
      now rewrite app_nil_r.
    + exists (earlier ++ [a0 :: fr]). rewrite S, Q0, C. split; [reflexivity|].
      rewrite concat_app. simpl. now rewrite app_nil_r, <- app_assoc.
Qed.

Lemma traceLayers_new_grows fetch (settle : Schedule) cfg (n : nat) :
  forall st, exists more,
    allNewTransactions (traceLayers fetch settle cfg n st) = allNewTransactions st ++ more.
Proof.
  induction n as [|n IH]; intro st; simpl; [exists []; now rewrite app_nil_r|].
  destruct (currentFrontier st) as [|a0 fr]; [exists []; now rewrite app_nil_r|].
  match goal with
  | |- context [traceLayers fetch settle cfg n ?s] => destruct (IH s) as (more & E)
  end.
  rewrite E. cbn [allNewTransactions]. rewrite <- app_assoc. eauto.
Qed.

(** A layer that collects nothing finds nothing. *)
Lemma traceLayer_nothing fetch (settle : Schedule) cfg sv frontier :
  layerTransactions (traceLayer fetch settle cfg sv frontier) = [] ->
  nextFrontier (traceLayer fetch settle cfg sv frontier) = [].
Proof.
  destruct (traceLayer_closed fetch settle cfg sv frontier) as [E M]. intro N.
  destruct (nextFrontier (traceLayer fetch settle cfg sv frontier)) as [|x next];
    [reflexivity|].
  destruct (proj1 (M x) (or_introl eq_refl)) as (_ & a & tx & Ia & It & C).
  assert (I : In tx (layerTransactions (traceLayer fetch settle cfg sv frontier))).
  { rewrite E. apply in_flat_map. exists a. split; [assumption|].
    unfold collectedFrom. apply filter_In. split; [assumption | now rewrite C]. }
  rewrite N in I. destruct I.
Qed.

Lemma traceLayers_nothing fetch (settle : Schedule) cfg (n : nat) (st : CrawlState) :
  allNewTransactions (traceLayers fetch settle cfg n st) = [] ->
  seenFrontiers (traceLayers fetch settle cfg n st) = seenFrontiers st \/
  seenFrontiers (traceLayers fetch settle cfg n st) = seenFrontiers st ++ [[]].
Proof.
  destruct n as [|n]; simpl; [now left|].
  destruct (currentFrontier st) as [|a0 fr]; [now left|].
  intro N. right.
  match goal with
  | |- context [traceLayers fetch settle cfg n ?s] =>
      destruct (traceLayers_new_grows fetch settle cfg n s) as (more & E)
  end.
  rewrite N in E. cbn [allNewTransactions] in E. symmetry in E.
  apply app_eq_nil in E. destruct E as [E _]. apply app_eq_nil in E. destruct E as [_ E].
  apply traceLayer_nothing in E. rewrite E.
  destruct n; [reflexivity|]. reflexivity.
Qed.

Lemma queried_are_traced (fetchAddressHistory : Provider) (settle : Schedule)
    (inp : CrawlInput) (a : string) :
  In a (queried inp (handleTraceExecution fetchAddressHistory settle inp)) ->
  In (toLowerCase a) (tracedAfter (handleTraceExecution fetchAddressHistory settle inp)).
Proof.
  unfold handleTraceExecution, queried.
  destruct (traceTargets inp) as [|t ts] eqn:T; [intros []|].
  destruct (knownAddresses (crawl_data inp)) as [known| |]; try (intros []).
  destruct (traceLayers_traced fetchAddressHistory settle (traceConfig inp) (t :: ts)
              (hops (traceConfig inp))
              {| sessionVisited :=
                   addLowered (set_from (map toLowerCase (tracedAddresses inp))) (t :: ts);
                 currentFrontier := t :: ts;
                 allNewTransactions := [];
                 seenFrontiers := [] |} []) as (Q & V & L).
  { split; [|left; auto]. intros x [I | []]. cbn [sessionVisited].
    apply addLowered_In. right. now apply in_map. }
  match goal with
  | |- context [allNewTransactions ?s] => set (st := s) in *
  end.
  assert (G : In a match seenFrontiers st with
                   | [] => []
                   | _ :: _ => (t :: ts) ++ List.concat (removelast (seenFrontiers st))
                   end -> In a (t :: ts) \/ In a Q).
  { destruct L as [(S & Q0 & _) | (earlier & S & Q0)].
    - rewrite S. intros [].
    - rewrite S, removelast_last, Q0.
      destruct (earlier ++ [currentFrontier st]) eqn:E; [intros [] | now right]. }
  destruct (allNewTransactions st) as [|x new] eqn:N; cbn [frontiers tracedAfter]; intro I.
  - apply addLowered_In. right. apply in_map.
    destruct (traceLayers_nothing _ _ _ _ _ N) as [S | S];
      fold st in S; rewrite S in I; cbn in I; [destruct I|].
    now rewrite app_nil_r in I.
  - apply fold_set_add_In. right. apply V. now apply G.
Qed.

(** X30.  An address that a crawl has queried is traced afterwards, so the
    candidate list computed after the crawl offers no node whose id equals,
    up to letter case, a target or a queried frontier address. *)
Theorem queried_addresses_leave_the_candidates
    (fetchAddressHistory : Provider) (settle : Schedule) (inp : CrawlInput)
    (nodes : list AddressNode) (baseAddresses : JSSet string) :
  forallb hasId nodes = true ->
  exists l,
    candidateList nodes baseAddresses
                  (tracedAfter (handleTraceExecution fetchAddressHistory settle inp)) = Ok l /\
    forall n s a,
      In a (queried inp (handleTraceExecution fetchAddressHistory settle inp)) ->
      id n = Some s -> toLowerCase s = toLowerCase a -> ~ In n l.
Proof.
  intro W. rewrite candidateList_pure by assumption. eexists. split; [reflexivity|].
  intros n s a Q E Lo I. apply sort_by_hop_In, filter_In in I. destruct I as [_ U].
  unfold untraced in U. rewrite E, Lo in U.
  apply queried_are_traced in Q. apply set_has_In in Q. now rewrite Q in U.
Qed.

Lemma queried_addresses_leave_the_candidates_witness :
  exists l,
    candidateList [node "A" (Some 0); node "b" (Some 1)] []
                  (tracedAfter (handleTraceExecution providerAB inOrder (crawlFromA 1))) = Ok l /\
    forall n s a,
      In a (queried (crawlFromA 1) (handleTraceExecution providerAB inOrder (crawlFromA 1))) ->
      id n = Some s -> toLowerCase s = toLowerCase a -> ~ In n l.
Proof.
  apply (queried_addresses_leave_the_candidates providerAB inOrder (crawlFromA 1)
           [node "A" (Some 0); node "b" (Some 1)] []).
  reflexivity.
Defined.

(** ** C7: the frontiers of a session *)




(** ** X5: the nodes carry their distances *)

(** X5.  Whenever the construction returns, every node of the result carries
    its distance to the base addresses: a node with hop [k] has a path of
    [k] undirected edges of the retained transfers to a base node and no
    shorter one; a node without a hop has no path to a base node, and is
    returned only while the relationship filter is off; and the balance of a
    node is the sum accumulated over the retained transfers that name its
    id. *)
Theorem nodes_carry_shortest_distances (random : nat -> float) (inp : Inputs) :
  match topology random inp with
  | Ok t =>
      forall n, In n (nodes t) ->
        match hop n with
        | Some k =>
            (exists b, baseNode (filteredData inp) (baseAddresses inp) b = true /\
                       upath (filteredData inp) k (id n) b) /\
            (forall j b, baseNode (filteredData inp) (baseAddresses inp) b = true ->
                         upath (filteredData inp) j (id n) b -> k <= j)
        | None =>
            showRelatedOnly inp = false /\
            forall j b, baseNode (filteredData inp) (baseAddresses inp) b = true ->
                        ~ upath (filteredData inp) j (id n) b
        end /\
        balance n = num_or_zero (balanceOf (filteredData inp) (id n))
  | _ => True
  end.
Proof.
  pose proof (topology_parts random inp) as Q.
  destruct (topology random inp) as [t| |] eqn:E; trivial.
  destruct Q as (hops & all & Hc & L & En & _).
  pose proof (topology_ok_wellFormed random inp t E) as W.
  destruct (computeHops_exact _ (baseAddresses inp) W) as (hops2 & Hc2 & Ex).
  rewrite Hc in Hc2. inversion Hc2. subst hops2. clear Hc2.
  rewrite Forall_forall in L.
  intros n I.
  assert (Ia : In n all).
  { rewrite En in I. destruct (showRelatedOnly inp); [now apply filter_In in I | assumption]. }
  destruct (L n Ia) as [Hh Hb]. split; [|now rewrite Hb, balance_spec].
  pose proof (Ex (id n)) as F. rewrite <- Hh in F.
  destruct (hop n) as [k|] eqn:Hn.
  - destruct F as [R1 M]. split.
    + now apply reach_upath in R1.
    + intros j b B U. apply M. apply reach_upath. now exists b.
  - split.
    + destruct (showRelatedOnly inp); [|reflexivity].
      rewrite En in I. apply filter_In in I. destruct I as [_ Rl].
      unfold isRelated in Rl. now rewrite Hn in Rl.
    + intros j b B U. apply (F j). apply reach_upath. now exists b.
Qed.
